(** * Boundary communication core of Parthenon: enumeration, addressing,
      buffer cache and face-centred packing

Shallow embedding of
  - [src/bvals/cc/bvals_utils.hpp]  (ForEachBoundary, SendKey, ReceiveKey,
    BuildBufferCache, CheckSendBufferCacheForRebuild,
    CheckReceiveBufferCacheForRebuild, RebuildBufferCache), and
  - [src/bvals/fc/bvals_fc.cpp]     (ComputeVariableBufferSize,
    ComputeFluxCorrectionBufferSize, LoadBoundaryBufferSameLevel,
    LoadBoundaryBufferToCoarser, LoadBoundaryBufferToFiner,
    SetBoundarySameLevel, SetBoundaryFromCoarser, SetBoundaryFromFiner,
    CountFineEdges, SetupPersistentMPI, StartReceiving, ClearBoundary).

Conventions.  A C++ [int] is a [Z]; every [int] computed below is an
offset, a level, a block extent or an index bound, far away from the
limits of the type (signed overflow has no defined result in C++), so
the arithmetic is that of [Z].  A [std::size_t] index is a [nat].  A
[std::vector] is a [list], read with [!!]; a read outside the vector has
no defined result and is [None] in the model.  A pointer to a
communication buffer is the key of that buffer in the communicator map,
so that two pointers to one buffer alias in the model as they do in the
program. *)

From stdpp Require Import functions base tactics option list gmap strings fin_maps.
From Stdlib Require Import ZArith Lia.

Local Open Scope Z_scope.

(** ** Data model *)

Module Mesh.

(** [NeighborConnect]: how two blocks touch. *)
Inductive NeighborConnect := none | face | edge | corner.

#[global] Instance NeighborConnect_eq_dec : EqDecision NeighborConnect.
Proof. solve_decision. Defined.

(** [NeighborIndexes]: offsets, sub-quadrant selectors and connectivity. *)
Record NeighborIndexes := mkNI {
  ox1 : Z; ox2 : Z; ox3 : Z;
  fi1 : Z; fi2 : Z;
  type : NeighborConnect
}.

(** [SimpleNeighborBlock]: where the neighbour lives. *)
Record SimpleNeighborBlock := mkSNB {
  rank : Z; level : Z; lid : Z; gid : Z
}.

Record NeighborBlock := mkNB {
  snb : SimpleNeighborBlock;
  ni : NeighborIndexes
}.

(** [CellVariable]: [label()], [IsSet(Metadata::FillGhost)], [IsAllocated()]. *)
Record CellVariable := mkCV {
  label : string;
  FillGhost : bool;
  IsAllocated : bool
}.

(** [MeshBlock]: [gid], [loc.level] and [pbval->neighbor[0..nneighbor)]. *)
Record MeshBlock := mkMB {
  mb_gid : Z;
  loc_level : Z;
  neighbor : list NeighborBlock
}.

(** [MeshBlockData]: [GetBlockPointer()] and [GetCellVariableVector()]. *)
Record MeshBlockData := mkMBD {
  GetBlockPointer : MeshBlock;
  GetCellVariableVector : list CellVariable
}.

(** [MeshData]: the blocks [GetBlockData(0..NumBlocks())]. *)
Definition MeshData := list MeshBlockData.

(** The data model's range of an offset. *)
Definition offset_ok (o : Z) : Prop := -1 <= o <= 1.

Definition offsets_ok (n : NeighborIndexes) : Prop :=
  offset_ok (ox1 n) /\ offset_ok (ox2 n) /\ offset_ok (ox3 n).

(** Number of nonzero offsets. *)
Definition nonzero_count (n : NeighborIndexes) : nat :=
  ((if decide (ox1 n = 0%Z) then 0 else 1) +
   (if decide (ox2 n = 0%Z) then 0 else 1) +
   (if decide (ox3 n = 0%Z) then 0 else 1))%nat.

(** The connectivity type that the data model derives from the offsets. *)
Definition connect_of (n : NeighborIndexes) : NeighborConnect :=
  match nonzero_count n with
  | 1%nat => face
  | 2%nat => edge
  | 3%nat => corner
  | _ => none
  end.

End Mesh.

Import Mesh.

(** ** Boundary enumerator *)

Module Enumerator.

Inductive LoopControl := cont | break_out.

(** Modelled from the spec: the enumeration [BoundaryType] is declared in
    [bvals/cc/bvals_cc_in_one.hpp], which is not among the sources; its five
    tags are the ones [ForEachBoundary] tests and section 4.1 lists. *)
Inductive BoundaryType := local | nonlocal | any | flxcor_send | flxcor_recv.

#[global] Instance BoundaryType_eq_dec : EqDecision BoundaryType.
Proof. solve_decision. Defined.

Section Loop.
Context {St : Type}.

(** The callback with the loop's captured variables as explicit state. *)
Definition callback : Type :=
  MeshBlock -> MeshBlockData -> NeighborBlock -> CellVariable -> St -> St * LoopControl.

Definition void_callback : Type :=
  MeshBlock -> MeshBlockData -> NeighborBlock -> CellVariable -> St -> St.

(** First overload of [func_caller]: the function returns a [LoopControl]. *)
Definition func_caller (func : callback) : callback := func.

(** Second overload: the function returns nothing; the loop continues. *)
Definition func_caller_void (func : void_callback) : callback :=
  fun pmb rc nb v s => (func pmb rc nb v s, cont).

Variable bound : BoundaryType.
Variable my_rank : Z.   (* Globals::my_rank *)

(** The chain of [continue] tests on one neighbour: [true] when the
    neighbour is skipped. *)
Definition skipped (pmb : MeshBlock) (nb : NeighborBlock) : bool :=
  match bound with
  | local => negb (rank (snb nb) =? my_rank)
  | nonlocal => rank (snb nb) =? my_rank
  | flxcor_send =>
      if negb (level (snb nb) =? loc_level pmb - 1) then true
      else negb (Z.abs (ox1 (ni nb)) + Z.abs (ox2 (ni nb)) + Z.abs (ox3 (ni nb)) =? 1)
  | flxcor_recv =>
      if negb (level (snb nb) - 1 =? loc_level pmb) then true
      else negb (Z.abs (ox1 (ni nb)) + Z.abs (ox2 (ni nb)) + Z.abs (ox3 (ni nb)) =? 1)
  | any => false
  end.

Variable func : callback.

(** [for (int n = 0; n < nneighbor; ++n)]; [break_out] is the [return]. *)
Fixpoint neighbor_loop (pmb : MeshBlock) (rc : MeshBlockData) (v : CellVariable)
         (nbs : list NeighborBlock) (s : St) : St * LoopControl :=
  match nbs with
  | [] => (s, cont)
  | nb :: rest =>
      if skipped pmb nb then neighbor_loop pmb rc v rest s
      else
        match func pmb rc nb v s with
        | (s', break_out) => (s', break_out)
        | (s', cont) => neighbor_loop pmb rc v rest s'
        end
  end.

(** [for (auto &v : rc->GetCellVariableVector())]. *)
Fixpoint variable_loop (pmb : MeshBlock) (rc : MeshBlockData)
         (vs : list CellVariable) (s : St) : St * LoopControl :=
  match vs with
  | [] => (s, cont)
  | v :: rest =>
      if FillGhost v then
        match neighbor_loop pmb rc v (neighbor pmb) s with
        | (s', break_out) => (s', break_out)
        | (s', cont) => variable_loop pmb rc rest s'
        end
      else variable_loop pmb rc rest s
  end.

(** [for (int block = 0; block < md->NumBlocks(); ++block)]. *)
Fixpoint block_loop (md : MeshData) (s : St) : St * LoopControl :=
  match md with
  | [] => (s, cont)
  | rc :: rest =>
      match variable_loop (GetBlockPointer rc) rc (GetCellVariableVector rc) s with
      | (s', break_out) => (s', break_out)
      | (s', cont) => block_loop rest s'
      end
  end.

Definition ForEachBoundary (md : MeshData) (s : St) : St :=
  fst (block_loop md s).

End Loop.

(** One visited boundary. *)
Definition boundary : Type := MeshBlock * MeshBlockData * NeighborBlock * CellVariable.

(** *** The enumeration in the words of section 4.1 *)

(** A relation is face-type when exactly one offset is nonzero. *)
Definition face_type (n : NeighborIndexes) : Prop := nonzero_count n = 1%nat.

(** The neighbour matches the subset tag. *)
Definition matches_tag (bound : BoundaryType) (my_rank : Z)
           (pmb : MeshBlock) (nb : NeighborBlock) : Prop :=
  match bound with
  | any => True
  | local => rank (snb nb) = my_rank
  | nonlocal => rank (snb nb) <> my_rank
  | flxcor_send => level (snb nb) = loc_level pmb - 1 /\ face_type (ni nb)
  | flxcor_recv => level (snb nb) = loc_level pmb + 1 /\ face_type (ni nb)
  end.

#[global] Instance matches_tag_dec bound my_rank pmb nb :
  Decision (matches_tag bound my_rank pmb nb).
Proof. unfold matches_tag, face_type; destruct bound; apply _. Defined.

(** The triples of section 4.1, in block, variable, neighbour order. *)
Definition selected (bound : BoundaryType) (my_rank : Z) (md : MeshData) : list boundary :=
  rc ← md;
  v ← filter (fun v => FillGhost v = true) (GetCellVariableVector rc);
  nb ← filter (matches_tag bound my_rank (GetBlockPointer rc)) (neighbor (GetBlockPointer rc));
  [(GetBlockPointer rc, rc, nb, v)].

(** The boundaries in visiting order, selected by the program's own tests. *)
Definition enumerate (bound : BoundaryType) (my_rank : Z) (md : MeshData) : list boundary :=
  rc ← md;
  v ← filter (fun v => FillGhost v = true) (GetCellVariableVector rc);
  nb ← filter (fun nb => skipped bound my_rank (GetBlockPointer rc) nb = false)
              (neighbor (GetBlockPointer rc));
  [(GetBlockPointer rc, rc, nb, v)].

(** A callback applied to one boundary. *)
Definition apply_visit {St : Type} (f : @void_callback St) (s : St) (b : boundary) : St :=
  f b.1.1.1 b.1.1.2 b.1.2 b.2 s.

(** A callback run over a list of boundaries until it asks to stop. *)
Fixpoint run_until {St : Type} (func : @callback St) (s : St) (L : list boundary)
  : St * LoopControl :=
  match L with
  | [] => (s, cont)
  | b :: L =>
      match func b.1.1.1 b.1.1.2 b.1.2 b.2 s with
      | (s', break_out) => (s', break_out)
      | (s', cont) => run_until func s' L
      end
  end.

(** Every neighbour relation of the mesh has its offsets in [{-1,0,1}]. *)
Definition mesh_offsets_ok (md : MeshData) : Prop :=
  Forall (fun rc => Forall (fun nb => offsets_ok (ni nb)) (neighbor (GetBlockPointer rc))) md.

(** The boundaries the program visits, recorded by a callback that appends
    its arguments. *)
Definition visited (bound : BoundaryType) (my_rank : Z) (md : MeshData) : list boundary :=
  ForEachBoundary bound my_rank
    (func_caller_void (fun pmb rc nb v acc => acc ++ [(pmb, rc, nb, v)])) md [].

End Enumerator.

Import Enumerator.

(** ** Addressing *)

Module Addressing.

(** [std::tuple<int, int, std::string, int>]. *)
Definition key_t : Type := Z * Z * string * Z.

Definition SendKey (pmb : MeshBlock) (nb : NeighborBlock) (pcv : CellVariable) : key_t :=
  let sender_id := mb_gid pmb in
  let receiver_id := gid (snb nb) in
  let location_idx := (1 + ox1 (ni nb)) + 3 * (1 + ox2 (ni nb) + 3 * (1 + ox3 (ni nb))) in
  (sender_id, receiver_id, label pcv, location_idx).

Definition ReceiveKey (pmb : MeshBlock) (nb : NeighborBlock) (pcv : CellVariable) : key_t :=
  let receiver_id := mb_gid pmb in
  let sender_id := gid (snb nb) in
  let location_idx := (1 - ox1 (ni nb)) + 3 * (1 - ox2 (ni nb) + 3 * (1 - ox3 (ni nb))) in
  (sender_id, receiver_id, label pcv, location_idx).

(** [B]'s relation [nbB] toward [A] is the mirror image of [A]'s relation
    [nbA] toward [B]: each names the other block and the offsets are
    negated. *)
Definition mirrored (A : MeshBlock) (nbA : NeighborBlock)
           (B : MeshBlock) (nbB : NeighborBlock) : Prop :=
  gid (snb nbA) = mb_gid B /\ gid (snb nbB) = mb_gid A /\
  ox1 (ni nbB) = - ox1 (ni nbA) /\
  ox2 (ni nbB) = - ox2 (ni nbA) /\
  ox3 (ni nbB) = - ox3 (ni nbA).

End Addressing.

Import Addressing.

(** ** Buffer cache: build, validate, rebuild *)

Module Cache.

(** Modelled from the spec: [BufferState] and [CommBuffer] are declared in
    [utils/communication_buffer.hpp], which is not among the sources.  The
    states are those of section 4.4; [IsAvailableForWrite] "tests exactly
    the available state"; [Allocate] reserves the channel's buffer (it takes
    storage from the pool when the channel holds none and keeps the storage
    it holds otherwise) and [Free] releases it; none of the three changes
    the state.  A storage resource is a pool handle; [None] is the empty
    handle of a channel without storage. *)
Inductive BufferState :=
  available | sending | sent | receiving | received | received_null.

#[global] Instance BufferState_eq_dec : EqDecision BufferState.
Proof. solve_decision. Defined.

Record CommBuffer := mkCB {
  GetState : BufferState;
  buffer : option nat
}.

Definition IsAvailableForWrite (b : CommBuffer) : bool :=
  bool_decide (GetState b = available).

(** [Allocate] with the pool's next unused handle; returns the pool's next
    unused handle afterwards. *)
Definition Allocate (b : CommBuffer) (pool : nat) : CommBuffer * nat :=
  match buffer b with
  | Some _ => (b, pool)
  | None => (mkCB (GetState b) (Some pool), S pool)
  end.

Definition Free (b : CommBuffer) : CommBuffer := mkCB (GetState b) None.

(** Modelled from the spec: [UsingSameResource] (utils/object_pool.hpp, not
    among the sources) is the identity check of section 4.3, "same backing
    buffer resource". *)
Definition UsingSameResource (r1 r2 : option nat) : bool := bool_decide (r1 = r2).

(** A freshly inserted channel, as [operator[]] of the map makes it. *)
Definition default_buffer : CommBuffer := mkCB available None.

(** The communicator map of the mesh together with its storage pool. *)
Record Comm := mkComm {
  comm_map : gmap key_t CommBuffer;
  pool_next : nat
}.

(** [BndInfo]: the fields of a transfer descriptor that validation reads. *)
Record BndInfo := mkBI {
  buf : option nat;
  allocated : bool
}.

Definition default_BndInfo : BndInfo := mkBI None false.

(** [BvarsSubCache_t]; a channel pointer is the channel's key. *)
Record BvarsSubCache_t := mkSubCache {
  buf_vec : list key_t;
  idx_vec : list nat;
  bnd_info : list BndInfo;
  bnd_info_h : list BndInfo
}.

(** [md->GetBvarsCache()]: one sub-cache per (subset, direction). *)
Definition BvarsCache_t : Type := BoundaryType -> bool -> BvarsSubCache_t.

Definition GetSubCache (c : BvarsCache_t) (bound : BoundaryType) (sender : bool)
  : BvarsSubCache_t := c bound sender.

(** Assignment through the reference [GetSubCache] returns. *)
Definition SetSubCache (c : BvarsCache_t) (bound : BoundaryType) (sender : bool)
           (sc : BvarsSubCache_t) : BvarsCache_t :=
  fun b s => if decide (b = bound /\ s = sender) then sc else c b s.

(** [operator[]] of the communicator map: the entry is created when it
    is absent. *)
Definition subscript (cm : gmap key_t CommBuffer) (key : key_t) : gmap key_t CommBuffer :=
  match cm !! key with
  | Some _ => cm
  | None => <[key := default_buffer]> cm
  end.

(** An element of [key_order]: (recvr_idx, boundary_idx, key). *)
Definition order_entry : Type := Z * nat * key_t.

(** The key a boundary resolves to, and its [key_order] element. *)
Definition key_of (KeyFunc : MeshBlock -> NeighborBlock -> CellVariable -> key_t)
           (b : boundary) : key_t :=
  KeyFunc b.1.1.1 b.1.2 b.2.

Definition entry_of (KeyFunc : MeshBlock -> NeighborBlock -> CellVariable -> key_t)
           (i : nat) (b : boundary) : order_entry :=
  (27 * (key_of KeyFunc b).1.1.2 + (key_of KeyFunc b).2, i, key_of KeyFunc b).

Definition entry_idx (t : order_entry) : nat := t.1.2.

Section Build.
Variable bound_type : BoundaryType.
Variable my_rank : Z.
Variable KeyFunc : MeshBlock -> NeighborBlock -> CellVariable -> key_t.
(** [std::shuffle] with the random generator: some rearrangement. *)
Variable shuffle : list order_entry -> list order_entry.

(** The first lambda; its captures are [key_order] and [boundary_idx].
    [PARTHENON_DEBUG_REQUIRE] is compiled out of release builds. *)
Definition build_visit : @void_callback (list order_entry * nat) :=
  fun pmb rc nb v '(key_order, boundary_idx) =>
    let key := KeyFunc pmb nb v in
    let recvr_idx := 27 * key.1.1.2 + key.2 in
    (key_order ++ [(recvr_idx, boundary_idx, key)], S boundary_idx).

(** The [std::for_each] lambda; its captures are [comm_map], [pbuf_vec],
    [pidx_vec] and [buff_idx].  The write into [pidx_vec] is in range
    whenever the shuffle only rearranges. *)
Definition build_store
           (st : gmap key_t CommBuffer * list key_t * list nat * nat)
           (t : order_entry)
  : gmap key_t CommBuffer * list key_t * list nat * nat :=
  let '(cm, pbuf_vec, pidx_vec, buff_idx) := st in
  (subscript cm t.2, pbuf_vec ++ [t.2], <[t.1.2 := buff_idx]> pidx_vec, S buff_idx).

(** Returns the communicator map, [pbuf_vec] and [pidx_vec]. *)
Definition BuildBufferCache (md : MeshData) (cm : gmap key_t CommBuffer)
  : gmap key_t CommBuffer * list key_t * list nat :=
  let '(key_order, _) :=
    ForEachBoundary bound_type my_rank (func_caller_void build_visit) md ([], 0%nat) in
  let key_order := shuffle key_order in
  let '(cm', pbuf_vec, pidx_vec, _) :=
    foldl build_store (cm, [], replicate (length key_order) 0%nat, 0%nat) key_order in
  (cm', pbuf_vec, pidx_vec).
End Build.

(** [std::shuffle] returns its input rearranged. *)
Definition rearranges (shuffle : list order_entry -> list order_entry) : Prop :=
  forall l, shuffle l ≡ₚ l.

(** The cache resolves the [i]-th boundary of the enumeration [L] to the
    channel of that boundary's key, through distinct slots. *)
Definition coherent (KeyFunc : MeshBlock -> NeighborBlock -> CellVariable -> key_t)
           (L : list boundary) (cache : BvarsSubCache_t) : Prop :=
  length (idx_vec cache) = length L /\
  length (buf_vec cache) = length L /\
  NoDup (idx_vec cache) /\
  forall (i : nat) (b : boundary), L !! i = Some b ->
    exists ibuf : nat, idx_vec cache !! i = Some ibuf /\
                       buf_vec cache !! ibuf = Some (key_of KeyFunc b).

(** The channel the cache resolves enumeration position [i] to. *)
Definition channel_of (cache : BvarsSubCache_t) (h : Comm) (i : nat) : option CommBuffer :=
  ibuf ← idx_vec cache !! i;
  key ← buf_vec cache !! ibuf;
  comm_map h !! key.

(** Enumeration position [i] resolves to a channel that is not available. *)
Definition busy (cache : BvarsSubCache_t) (h : Comm) (i : nat) : Prop :=
  exists cb, channel_of cache h i = Some cb /\ IsAvailableForWrite cb = false.

(** Enumeration position [i] forces a receive-side rebuild: its slot lies
    beyond the recorded descriptors, or the channel's storage is not the
    one recorded, or the channel is [received] and was recorded
    unallocated, or it is [received_null] and was recorded allocated. *)
Definition stale (cache : BvarsSubCache_t) (h : Comm) (i : nat) : Prop :=
  exists ibuf key cb,
    idx_vec cache !! i = Some ibuf /\
    buf_vec cache !! ibuf = Some key /\
    comm_map h !! key = Some cb /\
    ((length (bnd_info_h cache) <= ibuf)%nat \/
     exists bi, bnd_info_h cache !! ibuf = Some bi /\
       (buf bi <> buffer cb \/
        (GetState cb = received /\ allocated bi = false) \/
        (GetState cb = received_null /\ allocated bi = true))).

(** From enumeration position [n] on, the cache resolves the boundaries
    of [L] to the channels of their keys. *)
Definition resolves (KeyFunc : MeshBlock -> NeighborBlock -> CellVariable -> key_t)
           (cache : BvarsSubCache_t) (n : nat) (L : list boundary) : Prop :=
  forall (i : nat) (b : boundary), L !! i = Some b ->
    exists ibuf : nat, idx_vec cache !! (n + i)%nat = Some ibuf /\
                       buf_vec cache !! ibuf = Some (key_of KeyFunc b).

(** The channel of boundary [b] holds storage exactly when the variable of
    [b] is allocated. *)
Definition settled (KeyFunc : MeshBlock -> NeighborBlock -> CellVariable -> key_t)
           (h : Comm) (b : boundary) : Prop :=
  exists cb, comm_map h !! key_of KeyFunc b = Some cb /\
             (is_Some (buffer cb) <-> IsAllocated b.2 = true).

(** The descriptor factory records the channel's storage resource, which
    is what section 4.3 has validation compare against. *)
Definition records_buffer (BndInfoCreator : MeshBlock -> NeighborBlock -> CellVariable ->
                             key_t -> gmap key_t CommBuffer -> BndInfo) : Prop :=
  forall pmb nb v key cm cb,
    cm !! key = Some cb -> buf (BndInfoCreator pmb nb v key cm) = buffer cb.

(** Every channel keeps its storage resource from [h] to [h']; channel
    states may differ. *)
Definition same_resources (h h' : Comm) : Prop :=
  forall k, buffer <$> comm_map h' !! k = buffer <$> comm_map h !! k.

(** Result of send-side validation:
    (rebuild, nbound, other_communication_unfinished) and the channels. *)
Definition send_check : Type := bool * nat * bool * Comm.

(** The lambda of [CheckSendBufferCacheForRebuild]. *)
Definition check_send_visit (cache : BvarsSubCache_t)
  : @void_callback (option send_check) :=
  fun pmb rc nb v st =>
    '(rebuild, nbound, other_communication_unfinished, h) ← st;
    ibuf ← idx_vec cache !! nbound;
    key ← buf_vec cache !! ibuf;
    b ← comm_map h !! key;
    let other_communication_unfinished :=
      if negb (IsAvailableForWrite b) then true else other_communication_unfinished in
    let '(b', pool') :=
      if IsAllocated v then Allocate b (pool_next h) else (Free b, pool_next h) in
    let h' := mkComm (<[key := b']> (comm_map h)) pool' in
    let rebuild :=
      if decide (ibuf < length (bnd_info_h cache))%nat then
        match bnd_info_h cache !! ibuf with
        | Some bi => rebuild || negb (UsingSameResource (buf bi) (buffer b'))
        | None => true
        end
      else true in
    Some (rebuild, S nbound, other_communication_unfinished, h').

(** The lambda applied to one enumerated boundary. *)
Definition send_step (cache : BvarsSubCache_t)
  : option send_check -> boundary -> option send_check :=
  apply_visit (check_send_visit cache).

Definition CheckSendBufferCacheForRebuild (BOUND_TYPE : BoundaryType) (SENDER : bool)
           (my_rank : Z) (md : MeshData) (bvars : BvarsCache_t) (h : Comm)
  : option send_check :=
  let cache := GetSubCache bvars BOUND_TYPE SENDER in
  ForEachBoundary BOUND_TYPE my_rank (func_caller_void (check_send_visit cache)) md
                  (Some (false, 0%nat, false, h)).

(** The body of the receive-side lambda below the two vector reads: the
    new value of [rebuild] for slot [ibuf] and its channel. *)
Definition slot_verdict (cache : BvarsSubCache_t) (rb : bool) (ibuf : nat)
           (cb : CommBuffer) : bool :=
  if decide (ibuf < length (bnd_info_h cache))%nat then
    match bnd_info_h cache !! ibuf with
    | Some bi =>
        let rebuild := rb || negb (UsingSameResource (buf bi) (buffer cb)) in
        let rebuild :=
          if bool_decide (GetState cb = received) && negb (allocated bi)
          then true else rebuild in
        let rebuild :=
          if bool_decide (GetState cb = received_null) && allocated bi
          then true else rebuild in
        rebuild
    | None => true
    end
  else true.

(** The lambda of [CheckReceiveBufferCacheForRebuild]. *)
Definition check_receive_visit (cache : BvarsSubCache_t) (h : Comm)
  : @void_callback (option (bool * nat)) :=
  fun pmb rc nb v st =>
    '(rebuild, nbound) ← st;
    ibuf ← idx_vec cache !! nbound;
    key ← buf_vec cache !! ibuf;
    b ← comm_map h !! key;
    Some (slot_verdict cache rebuild ibuf b, S nbound).

Definition receive_step (cache : BvarsSubCache_t) (h : Comm)
  : option (bool * nat) -> boundary -> option (bool * nat) :=
  apply_visit (check_receive_visit cache h).

(** The enumeration is over [BoundaryType::flxcor_recv], as the source has
    it, whatever [BOUND_TYPE] selects the sub-cache. *)
Definition CheckReceiveBufferCacheForRebuild (BOUND_TYPE : BoundaryType) (SENDER : bool)
           (my_rank : Z) (md : MeshData) (bvars : BvarsCache_t) (h : Comm)
  : option (bool * nat) :=
  let cache := GetSubCache bvars BOUND_TYPE SENDER in
  ForEachBoundary flxcor_recv my_rank (func_caller_void (check_receive_visit cache h)) md
                  (Some (false, 0%nat)).

(** [F_BND_INFO]: the caller's descriptor factory; it receives the channel
    pointer and may read the channel through it. *)
Definition F_BND_INFO : Type :=
  MeshBlock -> NeighborBlock -> CellVariable -> key_t -> gmap key_t CommBuffer -> BndInfo.

(** The lambda of [RebuildBufferCache]; captures [cache] and [ibound]. *)
Definition rebuild_visit (BndInfoCreator : F_BND_INFO) (h : Comm)
  : @void_callback (option (BvarsSubCache_t * nat)) :=
  fun pmb rc nb v st =>
    '(cache, ibound) ← st;
    ibuf ← idx_vec cache !! ibound;
    key ← buf_vec cache !! ibuf;
    if decide (ibuf < length (bnd_info_h cache))%nat then
      Some (mkSubCache (buf_vec cache) (idx_vec cache) (bnd_info cache)
              (<[ibuf := BndInfoCreator pmb nb v key (comm_map h)]> (bnd_info_h cache)),
            S ibound)
    else None.

Definition rebuild_step (BndInfoCreator : F_BND_INFO) (h : Comm)
  : option (BvarsSubCache_t * nat) -> boundary -> option (BvarsSubCache_t * nat) :=
  apply_visit (rebuild_visit BndInfoCreator h).

Definition RebuildBufferCache (BOUND_TYPE : BoundaryType) (SENDER : bool)
           (my_rank : Z) (md : MeshData) (nbound : nat) (BndInfoCreator : F_BND_INFO)
           (bvars : BvarsCache_t) (h : Comm) : option BvarsCache_t :=
  let cache := GetSubCache bvars BOUND_TYPE SENDER in
  let cache := mkSubCache (buf_vec cache) (idx_vec cache)
                 (replicate nbound default_BndInfo) (bnd_info_h cache) in
  let cache := mkSubCache (buf_vec cache) (idx_vec cache) (bnd_info cache)
                 (replicate (length (bnd_info cache)) default_BndInfo) in
  '(cache, _) ← ForEachBoundary BOUND_TYPE my_rank
                  (func_caller_void (rebuild_visit BndInfoCreator h)) md
                  (Some (cache, 0%nat));
  let cache := mkSubCache (buf_vec cache) (idx_vec cache) (bnd_info_h cache)
                 (bnd_info_h cache) in
  Some (SetSubCache bvars BOUND_TYPE SENDER cache).

End Cache.

Import Cache.

(** ** Face-centred fields: buffer sizes, packing and unpacking *)

Module FaceCentered.

(** [IndexShape], read at the [interior] domain; [is_] is the source's
    [is], a reserved word here. *)
Record IndexShape := mkIS {
  is_ : Z; ie : Z;
  js : Z; je : Z;
  ks : Z; ke : Z
}.

(** [block_size]. *)
Record RegionSize := mkRS { nx1 : Z; nx2 : Z; nx3 : Z }.

(** The fields of [MeshBlock] and [Mesh] that the face-centred routines
    read: [pmb->cellbounds], [pmb->block_size], [pmy_mesh_->multilevel]. *)
Record Block := mkBlock {
  cellbounds : IndexShape;
  block_size : RegionSize;
  multilevel : bool
}.

(** The six loop bounds [si, ei, sj, ej, sk, ek]. *)
Record Box := mkBox {
  si : Z; ei : Z;
  sj : Z; ej : Z;
  sk : Z; ek : Z
}.

(** [ComputeFluxCorrectionBufferSize]; [cng] is not used by the source. *)
Definition ComputeFluxCorrectionBufferSize (pmb : Block) (ni : NeighborIndexes) (cng : Z) : Z :=
  let nx1 := nx1 (block_size pmb) in
  let nx2 := nx2 (block_size pmb) in
  let nx3 := nx3 (block_size pmb) in
  let size := 0 in
  if decide (type ni = face) then
    if decide (nx3 > 1) then
      if decide (ox1 ni <> 0) then (nx2 + 1) * nx3 + nx2 * (nx3 + 1)
      else if decide (ox2 ni <> 0) then (nx1 + 1) * nx3 + nx1 * (nx3 + 1)
      else (nx1 + 1) * nx2 + nx1 * (nx2 + 1)
    else if decide (nx2 > 1) then
      if decide (ox1 ni <> 0) then (nx2 + 1) + nx2
      else (nx1 + 1) + nx1
    else 2
  else if decide (type ni = edge) then
    if decide (nx3 > 1) then
      let size := if decide (ox3 ni = 0) then nx3 else size in
      let size := if decide (ox2 ni = 0) then nx2 else size in
      let size := if decide (ox1 ni = 0) then nx1 else size in
      size
    else if decide (nx2 > 1) then 1
    else size
  else size.

(** [BoundaryFace]. *)
Inductive BoundaryFace :=
  undef | inner_x1 | outer_x1 | inner_x2 | outer_x2 | inner_x3 | outer_x3.

#[global] Instance BoundaryFace_eq_dec : EqDecision BoundaryFace.
Proof. solve_decision. Defined.

(** A persistent flux-correction request set up for one neighbour, with its
    element count; [None] is the count read from a variable that was never
    assigned. *)
Inductive FluxChannel :=
| flcor_send (count : option Z)
| flcor_recv (count : option Z).

(** The flux-correction part of the neighbour loop of [SetupPersistentMPI],
    for a neighbour on another rank: the requests it initialises.  [size]
    enters with the value the field-buffer computation left in it;
    [f2csize] is declared without a value, so [None] is "not assigned".
    [edge_flag] is [edge_flag_[nb.eid]].  The division of two [int]s
    truncates ([Z.quot]).  A corner relation takes the [continue]. *)
Definition SetupPersistentMPI_flcor (pmb : Block) (mylevel : Z) (nb : NeighborBlock)
           (fid : BoundaryFace) (eid : Z) (edge_flag : bool) (size : Z)
  : list FluxChannel :=
  let nx1 := nx1 (block_size pmb) in
  let nx2 := nx2 (block_size pmb) in
  let nx3 := nx3 (block_size pmb) in
  let sizes : option (Z * option Z) :=
    if decide (type (ni nb) = face) then
      if decide (nx3 > 1) then
        if decide (fid = inner_x1 \/ fid = outer_x1) then
          Some ((nx2 + 1) * nx3 + nx2 * (nx3 + 1),
                Some ((nx2 `quot` 2 + 1) * (nx3 `quot` 2) + (nx2 `quot` 2) * (nx3 `quot` 2 + 1)))
        else if decide (fid = inner_x2 \/ fid = outer_x2) then
          Some ((nx1 + 1) * nx3 + nx1 * (nx3 + 1),
                Some ((nx1 `quot` 2 + 1) * (nx3 `quot` 2) + (nx1 `quot` 2) * (nx3 `quot` 2 + 1)))
        else if decide (fid = inner_x3 \/ fid = outer_x3) then
          Some ((nx1 + 1) * nx2 + nx1 * (nx2 + 1),
                Some ((nx1 `quot` 2 + 1) * (nx2 `quot` 2) + (nx1 `quot` 2) * (nx2 `quot` 2 + 1)))
        else Some (size, None)
      else if decide (nx2 > 1) then
        if decide (fid = inner_x1 \/ fid = outer_x1) then
          Some ((nx2 + 1) + nx2, Some ((nx2 `quot` 2 + 1) + nx2 `quot` 2))
        else if decide (fid = inner_x2 \/ fid = outer_x2) then
          Some ((nx1 + 1) + nx1, Some ((nx1 `quot` 2 + 1) + nx1 `quot` 2))
        else Some (size, None)
      else Some (2, Some 2)
    else if decide (type (ni nb) = edge) then
      if decide (nx3 > 1) then
        if decide (0 <= eid < 4) then Some (nx3, Some (nx3 `quot` 2))
        else if decide (4 <= eid < 8) then Some (nx2, Some (nx2 `quot` 2))
        else if decide (8 <= eid < 12) then Some (nx1, Some (nx1 `quot` 2))
        else Some (size, None)
      else if decide (nx2 > 1) then Some (1, Some 1)
      else Some (size, None)
    else None in
  match sizes with
  | None => []
  | Some (size, f2csize) =>
      (if decide (level (snb nb) = mylevel) then
         if decide (type (ni nb) = face \/ (type (ni nb) = edge /\ edge_flag = true))
         then [flcor_send (Some size); flcor_recv (Some size)] else []
       else []) ++
      (if decide (level (snb nb) > mylevel) then [flcor_recv f2csize] else []) ++
      (if decide (level (snb nb) < mylevel) then [flcor_send f2csize] else [])
  end.

Section Fields.
(** [Real]: the field values are only copied, never computed with. *)
Variable Real : Type.
(** The [NGHOST] macro. *)
Variable NGHOST : Z.

(** An array index [(k, j, i)], as in [a(k,j,i)]. *)
Definition index3 : Type := Z * Z * Z.

(** A three-dimensional array, read and written at any index. *)
Definition Array3D : Type := index3 -> Real.

(** [FaceField]. *)
Record FaceField := mkFF {
  x1f : Array3D;
  x2f : Array3D;
  x3f : Array3D
}.

(** [Real *buf], addressed by the running offset [p]. *)
Definition Buffer : Type := nat -> Real.

(** The values of [x] in [for (x = s; x <= e; ++x)]. *)
Definition range (s e : Z) : list Z := seqZ s (e - s + 1).

(** The indices of a box in loop order: [k] outermost, [i] innermost. *)
Definition box_indices (b : Box) : list index3 :=
  k ← range (sk b) (ek b);
  j ← range (sj b) (ej b);
  i ← range (si b) (ei b);
  [(k, j, i)].

(** The displacement of an index by [(dk, dj, di)]. *)
Definition displace (dk dj di : Z) (x : index3) : index3 :=
  (dk + x.1.1, dj + x.1.2, di + x.2).

(** Modelled from the spec: [BufferUtility::PackData] and [UnpackData]
    (utils/buffer_utils.hpp) are not among the sources.  Section 4.5 has
    unpacking mirror packing; both walk the index box in the same order and
    move one value per index through consecutive buffer positions, advancing
    the offset. *)
Definition PackData (src : Array3D) (buf : Buffer) (b : Box) (offset : nat) : Buffer * nat :=
  foldl (fun st x => (<[st.2 := src x]> st.1, S st.2)) (buf, offset) (box_indices b).

Definition UnpackData (buf : Buffer) (dst : Array3D) (b : Box) (offset : nat)
  : Array3D * nat :=
  foldl (fun st x => (<[x := buf st.2]> st.1, S st.2)) (dst, offset) (box_indices b).

(** The test [pmy_mesh_->multilevel && nb.ni.type != NeighborConnect::face]. *)
Definition overlap (pmb : Block) (nb : NeighborBlock) : bool :=
  multilevel pmb && bool_decide (type (ni nb) <> face).

(** *** [LoadBoundaryBufferSameLevel] *)

(** The bounds in force at the first [PackData] (bx1). *)
Definition load_bx1 (pmb : Block) (nb : NeighborBlock) : Box :=
  let cellbounds := cellbounds pmb in
  let si := if decide (ox1 (ni nb) = 0) then is_ cellbounds
            else if decide (ox1 (ni nb) > 0) then ie cellbounds - NGHOST + 1
            else is_ cellbounds + 1 in
  let ei := if decide (ox1 (ni nb) = 0) then ie cellbounds + 1
            else if decide (ox1 (ni nb) > 0) then ie cellbounds
            else is_ cellbounds + NGHOST in
  let sj := if decide (ox2 (ni nb) = 0) then js cellbounds
            else if decide (ox2 (ni nb) > 0) then je cellbounds - NGHOST + 1
            else js cellbounds in
  let ej := if decide (ox2 (ni nb) = 0) then je cellbounds
            else if decide (ox2 (ni nb) > 0) then je cellbounds
            else js cellbounds + NGHOST - 1 in
  let sk := if decide (ox3 (ni nb) = 0) then ks cellbounds
            else if decide (ox3 (ni nb) > 0) then ke cellbounds - NGHOST + 1
            else ks cellbounds in
  let ek := if decide (ox3 (ni nb) = 0) then ke cellbounds
            else if decide (ox3 (ni nb) > 0) then ke cellbounds
            else ks cellbounds + NGHOST - 1 in
  let ei := if overlap pmb nb then
              if decide (ox1 (ni nb) > 0) then ei + 1 else ei
            else ei in
  let si := if overlap pmb nb then
              if decide (ox1 (ni nb) > 0) then si
              else if decide (ox1 (ni nb) < 0) then si - 1 else si
            else si in
  mkBox si ei sj ej sk ek.

(** The bounds at the second [PackData] (bx2); [sk], [ek] are left as bx1
    set them. *)
Definition load_bx2 (pmb : Block) (nb : NeighborBlock) (prev : Box) : Box :=
  let cellbounds := cellbounds pmb in
  let si := if decide (ox1 (ni nb) = 0) then is_ cellbounds
            else if decide (ox1 (ni nb) > 0) then ie cellbounds - NGHOST + 1
            else is_ cellbounds in
  let ei := if decide (ox1 (ni nb) = 0) then ie cellbounds
            else if decide (ox1 (ni nb) > 0) then ie cellbounds
            else is_ cellbounds + NGHOST - 1 in
  let sj := if decide (nx2 (block_size pmb) = 1) then js cellbounds
            else if decide (ox2 (ni nb) = 0) then js cellbounds
            else if decide (ox2 (ni nb) > 0) then je cellbounds - NGHOST + 1
            else js cellbounds + 1 in
  let ej := if decide (nx2 (block_size pmb) = 1) then je cellbounds
            else if decide (ox2 (ni nb) = 0) then je cellbounds + 1
            else if decide (ox2 (ni nb) > 0) then je cellbounds
            else js cellbounds + NGHOST in
  let ej := if overlap pmb nb then
              if decide (ox2 (ni nb) > 0) then ej + 1 else ej
            else ej in
  let sj := if overlap pmb nb then
              if decide (ox2 (ni nb) > 0) then sj
              else if decide (ox2 (ni nb) < 0) then sj - 1 else sj
            else sj in
  mkBox si ei sj ej (sk prev) (ek prev).

(** The bounds at the third [PackData] (bx3); [si], [ei] are left as bx2
    set them. *)
Definition load_bx3 (pmb : Block) (nb : NeighborBlock) (prev : Box) : Box :=
  let cellbounds := cellbounds pmb in
  let sj := if decide (ox2 (ni nb) = 0) then js cellbounds
            else if decide (ox2 (ni nb) > 0) then je cellbounds - NGHOST + 1
            else js cellbounds in
  let ej := if decide (ox2 (ni nb) = 0) then je cellbounds
            else if decide (ox2 (ni nb) > 0) then je cellbounds
            else js cellbounds + NGHOST - 1 in
  let sk := if decide (nx3 (block_size pmb) = 1) then ks cellbounds
            else if decide (ox3 (ni nb) = 0) then ks cellbounds
            else if decide (ox3 (ni nb) > 0) then ke cellbounds - NGHOST + 1
            else ks cellbounds + 1 in
  let ek := if decide (nx3 (block_size pmb) = 1) then ke cellbounds
            else if decide (ox3 (ni nb) = 0) then ke cellbounds + 1
            else if decide (ox3 (ni nb) > 0) then ke cellbounds
            else ks cellbounds + NGHOST in
  let ek := if overlap pmb nb then
              if decide (ox3 (ni nb) > 0) then ek + 1 else ek
            else ek in
  let sk := if overlap pmb nb then
              if decide (ox3 (ni nb) > 0) then sk
              else if decide (ox3 (ni nb) < 0) then sk - 1 else sk
            else sk in
  mkBox (si prev) (ei prev) sj ej sk ek.

(** Returns the filled buffer and the count [p]. *)
Definition LoadBoundaryBufferSameLevel (pmb : Block) (var_fc : FaceField)
           (buf : Buffer) (nb : NeighborBlock) : Buffer * nat :=
  let p := 0%nat in
  let b1 := load_bx1 pmb nb in
  let '(buf, p) := PackData (x1f var_fc) buf b1 p in
  let b2 := load_bx2 pmb nb b1 in
  let '(buf, p) := PackData (x2f var_fc) buf b2 p in
  let b3 := load_bx3 pmb nb b2 in
  PackData (x3f var_fc) buf b3 p.

(** *** [SetBoundarySameLevel]

    The function opens with [const IndexShape & cellbounds = cellbounds;]:
    the local reference is initialised with itself, where the sibling
    functions write [pmb->cellbounds].  The bounds it reads are therefore
    not those of the block; what they are is not determined by the program.
    The model makes them the explicit argument [cellbounds]. *)

Definition set_bx1 (cellbounds : IndexShape) (pmb : Block) (nb : NeighborBlock) : Box :=
  let si := if decide (ox1 (ni nb) = 0) then is_ cellbounds
            else if decide (ox1 (ni nb) > 0) then ie cellbounds + 2
            else is_ cellbounds - NGHOST in
  let ei := if decide (ox1 (ni nb) = 0) then ie cellbounds + 1
            else if decide (ox1 (ni nb) > 0) then ie cellbounds + NGHOST + 1
            else is_ cellbounds - 1 in
  let sj := if decide (ox2 (ni nb) = 0) then js cellbounds
            else if decide (ox2 (ni nb) > 0) then je cellbounds + 1
            else js cellbounds - NGHOST in
  let ej := if decide (ox2 (ni nb) = 0) then je cellbounds
            else if decide (ox2 (ni nb) > 0) then je cellbounds + NGHOST
            else js cellbounds - 1 in
  let sk := if decide (ox3 (ni nb) = 0) then ks cellbounds
            else if decide (ox3 (ni nb) > 0) then ke cellbounds + 1
            else ks cellbounds - NGHOST in
  let ek := if decide (ox3 (ni nb) = 0) then ke cellbounds
            else if decide (ox3 (ni nb) > 0) then ke cellbounds + NGHOST
            else ks cellbounds - 1 in
  let si := if overlap pmb nb then
              if decide (ox1 (ni nb) > 0) then si - 1 else si
            else si in
  let ei := if overlap pmb nb then
              if decide (ox1 (ni nb) > 0) then ei
              else if decide (ox1 (ni nb) < 0) then ei + 1 else ei
            else ei in
  mkBox si ei sj ej sk ek.

Definition set_bx2 (cellbounds : IndexShape) (pmb : Block) (nb : NeighborBlock)
           (prev : Box) : Box :=
  let si := if decide (ox1 (ni nb) = 0) then is_ cellbounds
            else if decide (ox1 (ni nb) > 0) then ie cellbounds + 1
            else is_ cellbounds - NGHOST in
  let ei := if decide (ox1 (ni nb) = 0) then ie cellbounds
            else if decide (ox1 (ni nb) > 0) then ie cellbounds + NGHOST
            else is_ cellbounds - 1 in
  let sj := if decide (nx2 (block_size pmb) = 1) then js cellbounds
            else if decide (ox2 (ni nb) = 0) then js cellbounds
            else if decide (ox2 (ni nb) > 0) then je cellbounds + 2
            else js cellbounds - NGHOST in
  let ej := if decide (nx2 (block_size pmb) = 1) then je cellbounds
            else if decide (ox2 (ni nb) = 0) then je cellbounds + 1
            else if decide (ox2 (ni nb) > 0) then je cellbounds + NGHOST + 1
            else js cellbounds - 1 in
  let sj := if overlap pmb nb then
              if decide (ox2 (ni nb) > 0) then sj - 1 else sj
            else sj in
  let ej := if overlap pmb nb then
              if decide (ox2 (ni nb) > 0) then ej
              else if decide (ox2 (ni nb) < 0) then ej + 1 else ej
            else ej in
  mkBox si ei sj ej (sk prev) (ek prev).

Definition set_bx3 (cellbounds : IndexShape) (pmb : Block) (nb : NeighborBlock)
           (prev : Box) : Box :=
  let sj := if decide (ox2 (ni nb) = 0) then js cellbounds
            else if decide (ox2 (ni nb) > 0) then je cellbounds + 1
            else js cellbounds - NGHOST in
  let ej := if decide (ox2 (ni nb) = 0) then je cellbounds
            else if decide (ox2 (ni nb) > 0) then je cellbounds + NGHOST
            else js cellbounds - 1 in
  let sk := if decide (nx3 (block_size pmb) = 1) then ks cellbounds
            else if decide (ox3 (ni nb) = 0) then ks cellbounds
            else if decide (ox3 (ni nb) > 0) then ke cellbounds + 2
            else ks cellbounds - NGHOST in
  let ek := if decide (nx3 (block_size pmb) = 1) then ke cellbounds
            else if decide (ox3 (ni nb) = 0) then ke cellbounds + 1
            else if decide (ox3 (ni nb) > 0) then ke cellbounds + NGHOST + 1
            else ks cellbounds - 1 in
  let sk := if overlap pmb nb then
              if decide (ox3 (ni nb) > 0) then sk - 1 else sk
            else sk in
  let ek := if overlap pmb nb then
              if decide (ox3 (ni nb) > 0) then ek
              else if decide (ox3 (ni nb) < 0) then ek + 1 else ek
            else ek in
  mkBox (si prev) (ei prev) sj ej sk ek.

(** [for (i = si; i <= ei; ++i) x2f(sk,sj+1,i) = x2f(sk,sj,i);] *)
Definition copy_x2f_plane (a : Array3D) (b : Box) : Array3D :=
  foldl (fun a i => <[(sk b, sj b + 1, i) := a (sk b, sj b, i)]> a) a
        (range (si b) (ei b)).

(** [for (j = sj; j <= ej; ++j) for (i = si; i <= ei; ++i)
      x3f(sk+1,j,i) = x3f(sk,j,i);] *)
Definition copy_x3f_plane (a : Array3D) (b : Box) : Array3D :=
  foldl (fun a ji => <[(sk b + 1, ji.1, ji.2) := a (sk b, ji.1, ji.2)]> a) a
        (j ← range (sj b) (ej b); i ← range (si b) (ei b); [(j, i)]).

(** Returns the field after the three [UnpackData] calls and the copies on
    degenerate axes. *)
Definition SetBoundarySameLevel (cellbounds : IndexShape) (pmb : Block)
           (buf : Buffer) (nb : NeighborBlock) (var_fc : FaceField) : FaceField :=
  let p := 0%nat in
  let b1 := set_bx1 cellbounds pmb nb in
  let '(x1f', p) := UnpackData buf (x1f var_fc) b1 p in
  let b2 := set_bx2 cellbounds pmb nb b1 in
  let '(x2f', p) := UnpackData buf (x2f var_fc) b2 p in
  let x2f' := if decide (nx2 (block_size pmb) = 1) then copy_x2f_plane x2f' b2 else x2f' in
  let b3 := set_bx3 cellbounds pmb nb b2 in
  let '(x3f', p) := UnpackData buf (x3f var_fc) b3 p in
  let x3f' := if decide (nx3 (block_size pmb) = 1) then copy_x3f_plane x3f' b3 else x3f' in
  mkFF x1f' x2f' x3f'.

(** The interior bounds of the block span its extents. *)
Definition shape_ok (pmb : Block) : Prop :=
  ie (cellbounds pmb) = is_ (cellbounds pmb) + nx1 (block_size pmb) - 1 /\
  je (cellbounds pmb) = js (cellbounds pmb) + nx2 (block_size pmb) - 1 /\
  ke (cellbounds pmb) = ks (cellbounds pmb) + nx3 (block_size pmb) - 1.

(** A neighbour relation of the block: offsets in [{-1,0,1}], and none
    along an axis of extent 1. *)
Definition relation_ok (pmb : Block) (nb : NeighborBlock) : Prop :=
  offsets_ok (ni nb) /\
  (nx2 (block_size pmb) = 1 -> ox2 (ni nb) = 0) /\
  (nx3 (block_size pmb) = 1 -> ox3 (ni nb) = 0).

(** The receiver's relation [nb'] mirrors the sender's relation [nb]. *)
Definition mirror_relation (nb nb' : NeighborBlock) : Prop :=
  ox1 (ni nb') = - ox1 (ni nb) /\
  ox2 (ni nb') = - ox2 (ni nb) /\
  ox3 (ni nb') = - ox3 (ni nb) /\
  type (ni nb') = type (ni nb).

(** The index, in the receiver's array, of the sender's index [x]: the
    receiver lies one block extent away along each axis with a nonzero
    offset. *)
Definition to_receiver (pmb : Block) (nb : NeighborBlock) : index3 -> index3 :=
  displace (- (ox3 (ni nb) * nx3 (block_size pmb)))
           (- (ox2 (ni nb) * nx2 (block_size pmb)))
           (- (ox1 (ni nb) * nx1 (block_size pmb))).

End Fields.

End FaceCentered.

(** ** A two-block mesh used to run the definitions *)

Module Examples.

(** Two blocks on one level and one rank, side by side along axis 1, each
    with one ghost-exchanging, allocated variable. *)
Definition nbAB : NeighborBlock := mkNB (mkSNB 0 0 1 1) (mkNI 1 0 0 0 0 face).
Definition nbBA : NeighborBlock := mkNB (mkSNB 0 0 0 0) (mkNI (-1) 0 0 0 0 face).
Definition rho : CellVariable := mkCV "rho" true true.
Definition blockA : MeshBlock := mkMB 0 0 [nbAB].
Definition blockB : MeshBlock := mkMB 1 0 [nbBA].
Definition md2 : MeshData := [mkMBD blockA [rho]; mkMBD blockB [rho]].

Definition keyAB : key_t := SendKey blockA nbAB rho.
Definition keyBA : key_t := SendKey blockB nbBA rho.

(** A descriptor factory in the manner of the send-side one: it records
    the channel's storage and the variable's allocation. *)
Definition record_info : F_BND_INFO :=
  fun pmb nb v key cm =>
    mkBI (match cm !! key with Some cb => buffer cb | None => None end) (IsAllocated v).

Definition no_cache : BvarsCache_t := fun _ _ => mkSubCache [] [] [] [].

(** Both channels exist; the first is still [sending]. *)
Definition comm_sending : Comm :=
  mkComm (<[keyAB := mkCB sending (Some 0%nat)]>
          (<[keyBA := mkCB available (Some 1%nat)]> ∅)) 2.

(** The same channels after the first returned to [available]. *)
Definition comm_available : Comm :=
  mkComm (<[keyAB := mkCB available (Some 0%nat)]>
          (<[keyBA := mkCB available (Some 1%nat)]> ∅)) 2.

(** The cache of the subset [any] right after [BuildBufferCache], before
    any descriptor was recorded. *)
Definition built_any (sender : bool) : BvarsCache_t :=
  SetSubCache no_cache any sender (mkSubCache [keyAB; keyBA] [0; 1]%nat [] []).

(** Channels that have received data. *)
Definition comm_received : Comm :=
  mkComm (<[keyAB := mkCB received (Some 0%nat)]>
          (<[keyBA := mkCB received (Some 1%nat)]> ∅)) 2.

(** A 4 x 4 x 4 block with two ghost layers on a uniform mesh, its relation
    toward the neighbour across the upper axis-1 face, and that neighbour's
    relation back. *)
Definition fc_block : FaceCentered.Block :=
  FaceCentered.mkBlock (FaceCentered.mkIS 2 5 2 5 2 5) (FaceCentered.mkRS 4 4 4) false.
Definition fc_nb : NeighborBlock := mkNB (mkSNB 0 0 1 1) (mkNI 1 0 0 0 0 face).
Definition fc_nb' : NeighborBlock := mkNB (mkSNB 0 0 0 0) (mkNI (-1) 0 0 0 0 face).

(** The sender's field holds 1 everywhere, the receiver's 0. *)
Definition ones : FaceCentered.FaceField Z :=
  FaceCentered.mkFF Z (fun _ => 1) (fun _ => 1) (fun _ => 1).
Definition zeros : FaceCentered.FaceField Z :=
  FaceCentered.mkFF Z (fun _ => 0) (fun _ => 0) (fun _ => 0).

(** Bounds that are not those of [fc_block]. *)
Definition stray_bounds : FaceCentered.IndexShape := FaceCentered.mkIS 0 0 0 0 0 0.



End Examples.

(** ** Further readings of the cache *)

Module CacheReadings.

(** The descriptor of the slot that enumeration position [i] resolves to
    holds the storage resource that the channel of boundary [b] has in
    [h]: the comparison [UsingSameResource] of send-side validation
    succeeds at [i]. *)
Definition recorded (KeyFunc : MeshBlock -> NeighborBlock -> CellVariable -> key_t)
           (cache : BvarsSubCache_t) (h : Comm) (i : nat) (b : boundary) : Prop :=
  exists ibuf bi cb,
    idx_vec cache !! i = Some ibuf /\
    bnd_info_h cache !! ibuf = Some bi /\
    comm_map h !! key_of KeyFunc b = Some cb /\
    buf bi = buffer cb.

(** Every channel of the enumeration [L] exists in [h]. *)
Definition channels_present (KeyFunc : MeshBlock -> NeighborBlock -> CellVariable -> key_t)
           (L : list boundary) (h : Comm) : Prop :=
  forall b, b ∈ L -> is_Some (comm_map h !! key_of KeyFunc b).

End CacheReadings.

Module MoreExamples.

(** A callback that counts its calls and asks to stop at the second. *)
Definition stop_at_second : @callback nat :=
  fun _ _ _ _ n => (S n, if decide (n = 1%nat) then break_out else cont).

(** A block on level 0 whose neighbour across the upper axis-1 face is
    one level finer, its flux-correction receive channel holding received
    data, and the cache of that subset with the descriptor recorded. *)
Definition nbCF : NeighborBlock := mkNB (mkSNB 0 1 1 1) (mkNI 1 0 0 0 0 face).
Definition blockC : MeshBlock := mkMB 0 0 [nbCF].
Definition md_fine : MeshData := [mkMBD blockC [Examples.rho]].
Definition keyCF : key_t := ReceiveKey blockC nbCF Examples.rho.
Definition cache_flx : BvarsCache_t :=
  SetSubCache Examples.no_cache flxcor_recv false
    (mkSubCache [keyCF] [0%nat] [] [mkBI (Some 0%nat) true]).
Definition comm_flx : Comm := mkComm (<[keyCF := mkCB received (Some 0%nat)]> ∅) 1.

End MoreExamples.

(** ** Fine edges: [CountFineEdges] *)

Module FineEdges.
Import FaceCentered.

(** [pmb->pbval->nblevel[k][j][i]]: the level of the block at each of the
    27 positions around this one, position [1][1][1] being the block
    itself. *)
Definition nblevel_t : Type := Z -> Z -> Z -> Z.

(** The members [edge_flag_[12]] and [nedge_fine_[12]]. *)
Record EdgeCounts := mkEC {
  edge_flag_ : nat -> bool;
  nedge_fine_ : nat -> Z
}.

(** The body of the innermost loop on the level [l] of one position;
    the state is [(nf, fl)]. *)
Definition count_position (st : Z * Z) (l : Z) : Z * Z :=
  let '(nf, fl) := st in
  let '(nf, fl) := if decide (l > fl) then (0, fl + 1) else (nf, fl) in
  let nf := if decide (l = fl) then nf + 1 else nf in
  (nf, fl).

(** The two stores that end the body of an edge loop; the state is the
    arrays and [eid]. *)
Definition store_edge (mylevel : Z) (st : EdgeCounts * nat) (r : Z * Z)
  : EdgeCounts * nat :=
  let nf := r.1 in
  let fl := r.2 in
  (mkEC (<[st.2 := bool_decide (fl = mylevel)]> (edge_flag_ st.1))
        (<[st.2 := nf]> (nedge_fine_ st.1)),
   S st.2).

(** [for (int ox = -1; ox <= 1; ox += 2)]. *)
Definition sides : list Z := [-1; 1].

(** The bounds [max(ox-1, -1)] and [min(ox+1, 1)] of the position loops. *)
Definition around (ox : Z) : list Z := range (Z.max (ox - 1) (-1)) (Z.min (ox + 1) 1).

Section Count.
Variable nblevel : nblevel_t.
Variable mylevel : Z.

(** One loop nest over the four edges of a pair of axes; the three nests
    of the source differ only in how they index [nblevel], which is
    [level_at] here: its first argument runs in the outer position loop, its
    second in the inner one. *)
Definition edge_nest (level_at : Z -> Z -> Z) (st : EdgeCounts * nat) : EdgeCounts * nat :=
  foldl (fun st ob =>
    foldl (fun st oa =>
      store_edge mylevel st
        (foldl count_position (0, mylevel)
           (nb ← around ob; na ← around oa; [level_at nb na])))
      st sides) st sides.

(** [nblevel[1][nj+1][ni+1]], [nblevel[nk+1][1][ni+1]] and
    [nblevel[nk+1][nj+1][1]]. *)
Definition x1x2_level (nj ni : Z) : Z := nblevel 1 (nj + 1) (ni + 1).
Definition x1x3_level (nk ni : Z) : Z := nblevel (nk + 1) 1 (ni + 1).
Definition x2x3_level (nk nj : Z) : Z := nblevel (nk + 1) (nj + 1) 1.

(** [CountFineEdges]; [nx2], [nx3] are [pmb->block_size.nx2], [.nx3]. *)
Definition CountFineEdges (nx2 nx3 : Z) (ec : EdgeCounts) : EdgeCounts :=
  let st := (ec, 0%nat) in
  let st := if decide (nx2 > 1) then edge_nest x1x2_level st else st in
  let st := if decide (nx3 > 1) then edge_nest x2x3_level (edge_nest x1x3_level st)
            else st in
  st.1.
End Count.

(** The [eid] of the edge on side [oa] of the faster-running axis and
    side [ob] of the slower one, within its loop nest. *)
Definition edge_in_nest (oa ob : Z) : nat :=
  ((if decide (ob = 1%Z) then 2 else 0) + (if decide (oa = 1%Z) then 1 else 0))%nat.

(** The levels of the four positions around an edge: the block's own
    and the three that share the edge with it. *)
Definition edge_levels (level_at : Z -> Z -> Z) (oa ob : Z) : list Z :=
  [level_at 0 0; level_at 0 oa; level_at ob 0; level_at ob oa].

(** The number of positions on level [l]. *)
Definition on_level (l : Z) (ls : list Z) : Z :=
  Z.of_nat (length (filter (fun x => x = l) ls)).

(** The number of edge entries [CountFineEdges] writes. *)
Definition edges_written (nx2 nx3 : Z) : nat :=
  ((if decide (nx2 > 1)%Z then 4 else 0) + (if decide (nx3 > 1)%Z then 8 else 0))%nat.

End FineEdges.

Module EdgeExamples.
Import FineEdges.

(** Every position around the block is on level 0, except the one across
    the upper axis-1, upper axis-2 edge, which is on level 1. *)
Definition nblevel_corner : nblevel_t :=
  fun k j i => if decide (k = 1 /\ j = 2 /\ i = 2) then 1 else 0.

(** The arrays before the count. *)
Definition no_edges : EdgeCounts := mkEC (fun _ => false) (fun _ => 0).

End EdgeExamples.

(** ** Face-centred fields across refinement levels *)

Module CrossLevel.
Import FaceCentered.

(** The block as the cross-level routines read it: [block] holds
    [pmb->cellbounds], [pmb->block_size] and [pmy_mesh_->multilevel];
    the other members are [pmb->cnghost], [pmb->c_cellbounds] (at the
    [interior] domain), [pmb->loc.lx1], [.lx2], [.lx3] and
    [pmy_mesh_->ndim]. *)
Record LevelBlock := mkLB {
  block : Block;
  cnghost : Z;
  c_cellbounds : IndexShape;
  lx1 : Z; lx2 : Z; lx3 : Z;
  ndim : Z
}.

(** A pair [(s, e)] of loop bounds, and the updates [s += d], [s -= d],
    [e += d], [e -= d], [s--], [e++] written on it. *)
Definition bounds : Type := Z * Z.

Section Sizes.
(** The [NGHOST] macro. *)
Variable NGHOST : Z.

(** The sizes computed at the head of [ComputeVariableBufferSize] and,
    with [cng = pmb->cnghost], in the neighbour loop of
    [SetupPersistentMPI]: [size], and [csize], [fsize], which are assigned
    only on a multilevel mesh.  The division of two [int]s truncates
    ([Z.quot]). *)
Definition variable_sizes (pmb : LevelBlock) (ni : NeighborIndexes) (cng : Z)
  : Z * option (Z * Z) :=
  let nx1 := nx1 (block_size (block pmb)) in
  let nx2 := nx2 (block_size (block pmb)) in
  let nx3 := nx3 (block_size (block pmb)) in
  let f2 := if decide (ndim pmb >= 2) then 1 else 0 in
  let f3 := if decide (ndim pmb >= 3) then 1 else 0 in
  let cng1 := cng in
  let cng2 := cng * f2 in
  let cng3 := cng * f3 in
  let size1 := (if decide (ox1 ni = 0) then nx1 + 1 else NGHOST)
               * (if decide (ox2 ni = 0) then nx2 else NGHOST)
               * (if decide (ox3 ni = 0) then nx3 else NGHOST) in
  let size2 := (if decide (ox1 ni = 0) then nx1 else NGHOST)
               * (if decide (ox2 ni = 0) then nx2 + f2 else NGHOST)
               * (if decide (ox3 ni = 0) then nx3 else NGHOST) in
  let size3 := (if decide (ox1 ni = 0) then nx1 else NGHOST)
               * (if decide (ox2 ni = 0) then nx2 else NGHOST)
               * (if decide (ox3 ni = 0) then nx3 + f3 else NGHOST) in
  let size := size1 + size2 + size3 in
  if multilevel (block pmb) then
    let widen (ox s : Z) : Z :=
      if decide (type ni <> face) then
        if decide (ox <> 0) then s `quot` NGHOST * (NGHOST + 1) else s
      else s in
    let size1 := widen (ox1 ni) size1 in
    let size2 := widen (ox2 ni) size2 in
    let size3 := widen (ox3 ni) size3 in
    let size := size1 + size2 + size3 in
    let f2c1 := (if decide (ox1 ni = 0) then (nx1 + 1) `quot` 2 + 1 else NGHOST)
                * (if decide (ox2 ni = 0) then (nx2 + 1) `quot` 2 else NGHOST)
                * (if decide (ox3 ni = 0) then (nx3 + 1) `quot` 2 else NGHOST) in
    let f2c2 := (if decide (ox1 ni = 0) then (nx1 + 1) `quot` 2 else NGHOST)
                * (if decide (ox2 ni = 0) then (nx2 + 1) `quot` 2 + f2 else NGHOST)
                * (if decide (ox3 ni = 0) then (nx3 + 1) `quot` 2 else NGHOST) in
    let f2c3 := (if decide (ox1 ni = 0) then (nx1 + 1) `quot` 2 else NGHOST)
                * (if decide (ox2 ni = 0) then (nx2 + 1) `quot` 2 else NGHOST)
                * (if decide (ox3 ni = 0) then (nx3 + 1) `quot` 2 + f3 else NGHOST) in
    let f2c1 := widen (ox1 ni) f2c1 in
    let f2c2 := widen (ox2 ni) f2c2 in
    let f2c3 := widen (ox3 ni) f2c3 in
    let fsize := f2c1 + f2c2 + f2c3 in
    let c2f1 := (if decide (ox1 ni = 0) then (nx1 + 1) `quot` 2 + cng1 + 1 else cng + 1)
                * (if decide (ox2 ni = 0) then (nx2 + 1) `quot` 2 + cng2 else cng)
                * (if decide (ox3 ni = 0) then (nx3 + 1) `quot` 2 + cng3 else cng) in
    let c2f2 := (if decide (ox1 ni = 0) then (nx1 + 1) `quot` 2 + cng1 else cng)
                * (if decide (ox2 ni = 0) then (nx2 + 1) `quot` 2 + cng2 + f2 else cng + 1)
                * (if decide (ox3 ni = 0) then (nx3 + 1) `quot` 2 + cng3 else cng) in
    let c2f3 := (if decide (ox1 ni = 0) then (nx1 + 1) `quot` 2 + cng1 else cng)
                * (if decide (ox2 ni = 0) then (nx2 + 1) `quot` 2 + cng2 else cng)
                * (if decide (ox3 ni = 0) then (nx3 + 1) `quot` 2 + cng3 + f3 else cng + 1) in
    let csize := c2f1 + c2f2 + c2f3 in
    (size, Some (csize, fsize))
  else (size, None).

(** [ComputeVariableBufferSize]. *)
Definition ComputeVariableBufferSize (pmb : LevelBlock) (ni : NeighborIndexes) (cng : Z) : Z :=
  match variable_sizes pmb ni cng with
  | (size, Some (csize, fsize)) => Z.max size (Z.max csize fsize)
  | (size, None) => size
  end.

(** The field-buffer part of the neighbour loop of [SetupPersistentMPI],
    for a neighbour on another rank: the counts [(ssize, rsize)] given to
    [MPI_Send_init] and [MPI_Recv_init].  [None] is the read of a variable
    that was never assigned ([csize], [fsize] off a multilevel mesh). *)
Definition SetupPersistentMPI_field (pmb : LevelBlock) (mylevel : Z) (nb : NeighborBlock)
  : option Z * option Z :=
  let '(size, cf) := variable_sizes pmb (ni nb) (cnghost pmb) in
  if decide (level (snb nb) = mylevel) then (Some size, Some size)
  else if decide (level (snb nb) < mylevel) then (snd <$> cf, fst <$> cf)
  else (fst <$> cf, snd <$> cf).
End Sizes.

Section Routines.
(** [Real]: the field values are only copied. *)
Variable Real : Type.
Variable NGHOST : Z.

(** Modelled from the spec: [pmr->RestrictFieldX1], [X2], [X3]
    (mesh/mesh_refinement.hpp) are not among the sources, and section 1
    leaves the restriction operator to an external collaborator.  Each takes
    the fine array, the coarse array and the bounds, and returns the coarse
    array it leaves. *)
Variable RestrictFieldX1 : Array3D Real -> Array3D Real -> Box -> Array3D Real.
Variable RestrictFieldX2 : Array3D Real -> Array3D Real -> Box -> Array3D Real.
Variable RestrictFieldX3 : Array3D Real -> Array3D Real -> Box -> Array3D Real.

(** The adjustment [if (type != face) { if (ox > 0) e++; else if (ox < 0) s--; }]
    of the packing routines. *)
Definition widen_pack (nb : NeighborBlock) (ox : Z) (b : bounds) : bounds :=
  if decide (type (ni nb) <> face) then
    if decide (ox > 0) then (b.1, b.2 + 1)
    else if decide (ox < 0) then (b.1 - 1, b.2) else b
  else b.

(** The adjustment [if (type != face) { if (ox > 0) s--; else if (ox < 0) e++; }]
    of the unpacking routines. *)
Definition widen_unpack (nb : NeighborBlock) (ox : Z) (b : bounds) : bounds :=
  if decide (type (ni nb) <> face) then
    if decide (ox > 0) then (b.1 - 1, b.2)
    else if decide (ox < 0) then (b.1, b.2 + 1) else b
  else b.

(** *** [LoadBoundaryBufferToCoarser] *)

Definition coarser_bx1 (pmb : LevelBlock) (nb : NeighborBlock) : Box :=
  let cng := NGHOST in
  let c := c_cellbounds pmb in
  let i := if decide (ox1 (ni nb) = 0) then (is_ c, ie c + 1)
           else if decide (ox1 (ni nb) > 0) then (ie c - cng + 1, ie c)
           else (is_ c + 1, is_ c + cng) in
  let j := if decide (ox2 (ni nb) = 0) then (js c, je c)
           else if decide (ox2 (ni nb) > 0) then (je c - cng + 1, je c)
           else (js c, js c + cng - 1) in
  let k := if decide (ox3 (ni nb) = 0) then (ks c, ke c)
           else if decide (ox3 (ni nb) > 0) then (ke c - cng + 1, ke c)
           else (ks c, ks c + cng - 1) in
  let i := widen_pack nb (ox1 (ni nb)) i in
  mkBox i.1 i.2 j.1 j.2 k.1 k.2.

Definition coarser_bx2 (pmb : LevelBlock) (nb : NeighborBlock) (prev : Box) : Box :=
  let cng := NGHOST in
  let c := c_cellbounds pmb in
  let i := if decide (ox1 (ni nb) = 0) then (is_ c, ie c)
           else if decide (ox1 (ni nb) > 0) then (ie c - cng + 1, ie c)
           else (is_ c, is_ c + cng - 1) in
  let j := if decide (nx2 (block_size (block pmb)) = 1) then (js c, je c)
           else if decide (ox2 (ni nb) = 0) then (js c, je c + 1)
           else if decide (ox2 (ni nb) > 0) then (je c - cng + 1, je c)
           else (js c + 1, js c + cng) in
  let j := widen_pack nb (ox2 (ni nb)) j in
  mkBox i.1 i.2 j.1 j.2 (sk prev) (ek prev).

Definition coarser_bx3 (pmb : LevelBlock) (nb : NeighborBlock) (prev : Box) : Box :=
  let cng := NGHOST in
  let c := c_cellbounds pmb in
  let j := if decide (ox2 (ni nb) = 0) then (js c, je c)
           else if decide (ox2 (ni nb) > 0) then (je c - cng + 1, je c)
           else (js c, js c + cng - 1) in
  let k := if decide (nx3 (block_size (block pmb)) = 1) then (ks c, ke c)
           else if decide (ox3 (ni nb) = 0) then (ks c, ke c + 1)
           else if decide (ox3 (ni nb) > 0) then (ke c - cng + 1, ke c)
           else (ks c + 1, ks c + cng) in
  let k := widen_pack nb (ox3 (ni nb)) k in
  mkBox (si prev) (ei prev) j.1 j.2 k.1 k.2.

(** Returns the filled buffer, the count [p], and [coarse_buf] as the
    restrictions and the copies on degenerate axes leave it. *)
Definition LoadBoundaryBufferToCoarser (pmb : LevelBlock) (var_fc coarse_buf : FaceField Real)
           (buf : Buffer Real) (nb : NeighborBlock) : Buffer Real * nat * FaceField Real :=
  let p := 0%nat in
  let b1 := coarser_bx1 pmb nb in
  let c1 := RestrictFieldX1 (x1f Real var_fc) (x1f Real coarse_buf) b1 in
  let '(buf, p) := PackData Real c1 buf b1 p in
  let b2 := coarser_bx2 pmb nb b1 in
  let c2 := RestrictFieldX2 (x2f Real var_fc) (x2f Real coarse_buf) b2 in
  let c2 := if decide (nx2 (block_size (block pmb)) = 1)
            then copy_x2f_plane Real c2 b2 else c2 in
  let '(buf, p) := PackData Real c2 buf b2 p in
  let b3 := coarser_bx3 pmb nb b2 in
  let c3 := RestrictFieldX3 (x3f Real var_fc) (x3f Real coarse_buf) b3 in
  let c3 := if decide (nx3 (block_size (block pmb)) = 1)
            then copy_x3f_plane Real c3 b3 else c3 in
  let '(buf, p) := PackData Real c3 buf b3 p in
  (buf, p, mkFF Real c1 c2 c3).

(** *** [LoadBoundaryBufferToFiner] *)

(** [if (f == 1) s += d; else e -= d;] *)
Definition take_half (f d : Z) (b : bounds) : bounds :=
  if decide (f = 1) then (b.1 + d, b.2) else (b.1, b.2 - d).

(** The sub-quadrant flag that selects the half along axis 2, and along
    axis 3. *)
Definition flag_x2 (nb : NeighborBlock) : Z :=
  if decide (ox1 (ni nb) <> 0) then fi1 (ni nb) else fi2 (ni nb).
Definition flag_x3 (nb : NeighborBlock) : Z :=
  if decide (ox1 (ni nb) <> 0 /\ ox2 (ni nb) <> 0) then fi1 (ni nb) else fi2 (ni nb).

Definition finer_bx1 (pmb : LevelBlock) (nb : NeighborBlock) : Box :=
  let nx1 := nx1 (block_size (block pmb)) in
  let nx2 := nx2 (block_size (block pmb)) in
  let nx3 := nx3 (block_size (block pmb)) in
  let cn := cnghost pmb - 1 in
  let cellbounds := cellbounds (block pmb) in
  let i := if decide (ox1 (ni nb) = 0) then
             if decide (fi1 (ni nb) = 1)
             then (is_ cellbounds + nx1 `quot` 2 - cnghost pmb, ie cellbounds + 1)
             else (is_ cellbounds, ie cellbounds + 1 - nx1 `quot` 2 + cnghost pmb)
           else if decide (ox1 (ni nb) > 0)
                then (ie cellbounds + 1 - cnghost pmb, ie cellbounds + 1)
                else (is_ cellbounds, is_ cellbounds + cnghost pmb) in
  let j := if decide (ox2 (ni nb) = 0) then
             let j := (js cellbounds, je cellbounds) in
             if decide (nx2 > 1) then take_half (flag_x2 nb) (nx2 `quot` 2 - cnghost pmb) j
             else j
           else if decide (ox2 (ni nb) > 0) then (je cellbounds - cn, je cellbounds)
                else (js cellbounds, js cellbounds + cn) in
  let k := if decide (ox3 (ni nb) = 0) then
             let k := (ks cellbounds, ke cellbounds) in
             if decide (nx3 > 1) then take_half (flag_x3 nb) (nx3 `quot` 2 - cnghost pmb) k
             else k
           else if decide (ox3 (ni nb) > 0) then (ke cellbounds - cn, ke cellbounds)
                else (ks cellbounds, ks cellbounds + cn) in
  mkBox i.1 i.2 j.1 j.2 k.1 k.2.

Definition finer_bx2 (pmb : LevelBlock) (nb : NeighborBlock) (prev : Box) : Box :=
  let nx1 := nx1 (block_size (block pmb)) in
  let nx2 := nx2 (block_size (block pmb)) in
  let cn := cnghost pmb - 1 in
  let cellbounds := cellbounds (block pmb) in
  let i := if decide (ox1 (ni nb) = 0) then
             if decide (fi1 (ni nb) = 1)
             then (is_ cellbounds + nx1 `quot` 2 - cnghost pmb, ie cellbounds)
             else (is_ cellbounds, ie cellbounds - nx1 `quot` 2 + cnghost pmb)
           else if decide (ox1 (ni nb) > 0) then (ie cellbounds - cn, ie cellbounds)
                else (is_ cellbounds, is_ cellbounds + cn) in
  let j := if decide (ox2 (ni nb) = 0) then
             let j := (js cellbounds, je cellbounds) in
             if decide (nx2 > 1) then
               let j := (j.1, j.2 + 1) in
               take_half (flag_x2 nb) (nx2 `quot` 2 - cnghost pmb) j
             else j
           else if decide (ox2 (ni nb) > 0)
                then (je cellbounds + 1 - cnghost pmb, je cellbounds + 1)
                else (js cellbounds, js cellbounds + cnghost pmb) in
  mkBox i.1 i.2 j.1 j.2 (sk prev) (ek prev).

Definition finer_bx3 (pmb : LevelBlock) (nb : NeighborBlock) (prev : Box) : Box :=
  let nx2 := nx2 (block_size (block pmb)) in
  let nx3 := nx3 (block_size (block pmb)) in
  let cn := cnghost pmb - 1 in
  let cellbounds := cellbounds (block pmb) in
  let j := if decide (ox2 (ni nb) = 0) then
             let j := (js cellbounds, je cellbounds) in
             if decide (nx2 > 1) then take_half (flag_x2 nb) (nx2 `quot` 2 - cnghost pmb) j
             else j
           else if decide (ox2 (ni nb) > 0) then (je cellbounds - cn, je cellbounds)
                else (js cellbounds, js cellbounds + cn) in
  let k := if decide (ox3 (ni nb) = 0) then
             let k := (ks cellbounds, ke cellbounds) in
             if decide (nx3 > 1) then
               let k := (k.1, k.2 + 1) in
               take_half (flag_x3 nb) (nx3 `quot` 2 - cnghost pmb) k
             else k
           else if decide (ox3 (ni nb) > 0)
                then (ke cellbounds + 1 - cnghost pmb, ke cellbounds + 1)
                else (ks cellbounds, ks cellbounds + cnghost pmb) in
  mkBox (si prev) (ei prev) j.1 j.2 k.1 k.2.

Definition LoadBoundaryBufferToFiner (pmb : LevelBlock) (var_fc : FaceField Real)
           (buf : Buffer Real) (nb : NeighborBlock) : Buffer Real * nat :=
  let p := 0%nat in
  let b1 := finer_bx1 pmb nb in
  let '(buf, p) := PackData Real (x1f Real var_fc) buf b1 p in
  let b2 := finer_bx2 pmb nb b1 in
  let '(buf, p) := PackData Real (x2f Real var_fc) buf b2 p in
  let b3 := finer_bx3 pmb nb b2 in
  PackData Real (x3f Real var_fc) buf b3 p.

(** *** [SetBoundaryFromCoarser] *)

(** [if ((lx & 1LL) == 0LL) e += cng; else s -= cng;] *)
Definition pad_half (lx cng : Z) (b : bounds) : bounds :=
  if decide (Z.land lx 1 = 0) then (b.1, b.2 + cng) else (b.1 - cng, b.2).

Definition fromcoarser_bx1 (pmb : LevelBlock) (nb : NeighborBlock) : Box :=
  let cng := cnghost pmb in
  let c := c_cellbounds pmb in
  let i := if decide (ox1 (ni nb) = 0) then pad_half (lx1 pmb) cng (is_ c, ie c + 1)
           else if decide (ox1 (ni nb) > 0) then (ie c + 1, ie c + 1 + cng)
           else (is_ c - cng, is_ c) in
  let j := if decide (ox2 (ni nb) = 0) then
             let j := (js c, je c) in
             if decide (nx2 (block_size (block pmb)) > 1) then pad_half (lx2 pmb) cng j else j
           else if decide (ox2 (ni nb) > 0) then (je c + 1, je c + cng)
           else (js c - cng, js c - 1) in
  let k := if decide (ox3 (ni nb) = 0) then
             let k := (ks c, ke c) in
             if decide (nx3 (block_size (block pmb)) > 1) then pad_half (lx3 pmb) cng k else k
           else if decide (ox3 (ni nb) > 0) then (ke c + 1, ke c + cng)
           else (ks c - cng, ks c - 1) in
  mkBox i.1 i.2 j.1 j.2 k.1 k.2.

Definition fromcoarser_bx2 (pmb : LevelBlock) (nb : NeighborBlock) (prev : Box) : Box :=
  let cng := cnghost pmb in
  let c := c_cellbounds pmb in
  let i := if decide (ox1 (ni nb) = 0) then pad_half (lx1 pmb) cng (is_ c, ie c)
           else if decide (ox1 (ni nb) > 0) then (ie c + 1, ie c + cng)
           else (is_ c - cng, is_ c - 1) in
  let j := if decide (ox2 (ni nb) = 0) then
             let j := (js c, je c) in
             if decide (nx2 (block_size (block pmb)) > 1) then
               let j := (j.1, j.2 + 1) in pad_half (lx2 pmb) cng j
             else j
           else if decide (ox2 (ni nb) > 0) then (je c + 1, je c + 1 + cng)
           else (js c - cng, js c) in
  mkBox i.1 i.2 j.1 j.2 (sk prev) (ek prev).

Definition fromcoarser_bx3 (pmb : LevelBlock) (nb : NeighborBlock) (prev : Box) : Box :=
  let cng := cnghost pmb in
  let c := c_cellbounds pmb in
  let j := if decide (ox2 (ni nb) = 0) then
             let j := (js c, je c) in
             if decide (nx2 (block_size (block pmb)) > 1) then pad_half (lx2 pmb) cng j else j
           else if decide (ox2 (ni nb) > 0) then (je c + 1, je c + cng)
           else (js c - cng, js c - 1) in
  let k := if decide (ox3 (ni nb) = 0) then
             let k := (ks c, ke c) in
             if decide (nx3 (block_size (block pmb)) > 1) then
               let k := (k.1, k.2 + 1) in pad_half (lx3 pmb) cng k
             else k
           else if decide (ox3 (ni nb) > 0) then (ke c + 1, ke c + 1 + cng)
           else (ks c - cng, ks c) in
  mkBox (si prev) (ei prev) j.1 j.2 k.1 k.2.

(** Returns [coarse_buf] after the three [UnpackData] calls and the copies
    on degenerate axes. *)
Definition SetBoundaryFromCoarser (pmb : LevelBlock) (buf : Buffer Real)
           (nb : NeighborBlock) (coarse_buf : FaceField Real) : FaceField Real :=
  let p := 0%nat in
  let b1 := fromcoarser_bx1 pmb nb in
  let '(x1f', p) := UnpackData Real buf (x1f Real coarse_buf) b1 p in
  let b2 := fromcoarser_bx2 pmb nb b1 in
  let '(x2f', p) := UnpackData Real buf (x2f Real coarse_buf) b2 p in
  let x2f' := if decide (nx2 (block_size (block pmb)) = 1)
              then copy_x2f_plane Real x2f' b2 else x2f' in
  let b3 := fromcoarser_bx3 pmb nb b2 in
  let '(x3f', p) := UnpackData Real buf (x3f Real coarse_buf) b3 p in
  let x3f' := if decide (nx3 (block_size (block pmb)) = 1)
              then copy_x3f_plane Real x3f' b3 else x3f' in
  mkFF Real x1f' x2f' x3f'.

(** *** [SetBoundaryFromFiner] *)

Definition fromfiner_bx1 (pmb : LevelBlock) (nb : NeighborBlock) : Box :=
  let bs := block_size (block pmb) in
  let cellbounds := cellbounds (block pmb) in
  let i := if decide (ox1 (ni nb) = 0) then
             take_half (fi1 (ni nb)) (nx1 bs `quot` 2) (is_ cellbounds, ie cellbounds + 1)
           else if decide (ox1 (ni nb) > 0)
                then (ie cellbounds + 2, ie cellbounds + NGHOST + 1)
                else (is_ cellbounds - NGHOST, is_ cellbounds - 1) in
  let i := widen_unpack nb (ox1 (ni nb)) i in
  let j := if decide (ox2 (ni nb) = 0) then
             let j := (js cellbounds, je cellbounds) in
             if decide (nx2 bs > 1) then take_half (flag_x2 nb) (nx2 bs `quot` 2) j else j
           else if decide (ox2 (ni nb) > 0)
                then (je cellbounds + 1, je cellbounds + NGHOST)
                else (js cellbounds - NGHOST, js cellbounds - 1) in
  let k := if decide (ox3 (ni nb) = 0) then
             let k := (ks cellbounds, ke cellbounds) in
             if decide (nx3 bs > 1) then take_half (flag_x3 nb) (nx3 bs `quot` 2) k else k
           else if decide (ox3 (ni nb) > 0)
                then (ke cellbounds + 1, ke cellbounds + NGHOST)
                else (ks cellbounds - NGHOST, ks cellbounds - 1) in
  mkBox i.1 i.2 j.1 j.2 k.1 k.2.

Definition fromfiner_bx2 (pmb : LevelBlock) (nb : NeighborBlock) (prev : Box) : Box :=
  let bs := block_size (block pmb) in
  let cellbounds := cellbounds (block pmb) in
  let i := if decide (ox1 (ni nb) = 0) then
             take_half (fi1 (ni nb)) (nx1 bs `quot` 2) (is_ cellbounds, ie cellbounds)
           else if decide (ox1 (ni nb) > 0)
                then (ie cellbounds + 1, ie cellbounds + NGHOST)
                else (is_ cellbounds - NGHOST, is_ cellbounds - 1) in
  let j := if decide (ox2 (ni nb) = 0) then
             let j := (js cellbounds, je cellbounds) in
             if decide (nx2 bs > 1) then
               let j := (j.1, j.2 + 1) in take_half (flag_x2 nb) (nx2 bs `quot` 2) j
             else j
           else if decide (ox2 (ni nb) > 0)
                then (je cellbounds + 2, je cellbounds + NGHOST + 1)
                else (js cellbounds - NGHOST, js cellbounds - 1) in
  let j := widen_unpack nb (ox2 (ni nb)) j in
  mkBox i.1 i.2 j.1 j.2 (sk prev) (ek prev).

Definition fromfiner_bx3 (pmb : LevelBlock) (nb : NeighborBlock) (prev : Box) : Box :=
  let bs := block_size (block pmb) in
  let cellbounds := cellbounds (block pmb) in
  let j := if decide (ox2 (ni nb) = 0) then
             let j := (js cellbounds, je cellbounds) in
             if decide (nx2 bs > 1) then take_half (flag_x2 nb) (nx2 bs `quot` 2) j else j
           else if decide (ox2 (ni nb) > 0)
                then (je cellbounds + 1, je cellbounds + NGHOST)
                else (js cellbounds - NGHOST, js cellbounds - 1) in
  let k := if decide (ox3 (ni nb) = 0) then
             let k := (ks cellbounds, ke cellbounds) in
             if decide (nx3 bs > 1) then
               let k := (k.1, k.2 + 1) in take_half (flag_x3 nb) (nx3 bs `quot` 2) k
             else k
           else if decide (ox3 (ni nb) > 0)
                then (ke cellbounds + 2, ke cellbounds + NGHOST + 1)
                else (ks cellbounds - NGHOST, ks cellbounds - 1) in
  let k := widen_unpack nb (ox3 (ni nb)) k in
  mkBox (si prev) (ei prev) j.1 j.2 k.1 k.2.

Definition SetBoundaryFromFiner (pmb : LevelBlock) (buf : Buffer Real)
           (nb : NeighborBlock) (var_fc : FaceField Real) : FaceField Real :=
  let p := 0%nat in
  let b1 := fromfiner_bx1 pmb nb in
  let '(x1f', p) := UnpackData Real buf (x1f Real var_fc) b1 p in
  let b2 := fromfiner_bx2 pmb nb b1 in
  let '(x2f', p) := UnpackData Real buf (x2f Real var_fc) b2 p in
  let x2f' := if decide (nx2 (block_size (block pmb)) = 1)
              then copy_x2f_plane Real x2f' b2 else x2f' in
  let b3 := fromfiner_bx3 pmb nb b2 in
  let '(x3f', p) := UnpackData Real buf (x3f Real var_fc) b3 p in
  let x3f' := if decide (nx3 (block_size (block pmb)) = 1)
              then copy_x3f_plane Real x3f' b3 else x3f' in
  mkFF Real x1f' x2f' x3f'.
End Routines.

(** *** Conditions on the blocks *)

(** Every extent of the block is at least 1. *)
Definition extents_ok (pmb : Block) : Prop :=
  1 <= nx1 (block_size pmb) /\ 1 <= nx2 (block_size pmb) /\ 1 <= nx3 (block_size pmb).

(** [ndim] counts axis 2 and axis 3 exactly when the block extends along
    them. *)
Definition dims_ok (pmb : LevelBlock) : Prop :=
  (ndim pmb >= 2 <-> nx2 (block_size (block pmb)) > 1) /\
  (ndim pmb >= 3 <-> nx3 (block_size (block pmb)) > 1).

(** An extent that a refinement by two can halve: 1 (a degenerate axis,
    which is not refined) or an even number. *)
Definition halvable (n : Z) : Prop := n = 1 \/ exists h, 1 <= h /\ n = 2 * h.

Definition halvable_block (pmb : Block) : Prop :=
  halvable (nx1 (block_size pmb)) /\ halvable (nx2 (block_size pmb)) /\
  halvable (nx3 (block_size pmb)).

(** The extent of the coarse index space along an axis of extent [n]. *)
Definition coarse_extent (n : Z) : Z := if decide (n = 1) then 1 else n `quot` 2.

(** The coarse interior bounds span the coarse extents. *)
Definition c_shape_ok (pmb : LevelBlock) : Prop :=
  let c := c_cellbounds pmb in
  let bs := block_size (block pmb) in
  ie c = is_ c + coarse_extent (nx1 bs) - 1 /\
  je c = js c + coarse_extent (nx2 bs) - 1 /\
  ke c = ks c + coarse_extent (nx3 bs) - 1.

(** The sub-quadrant flags of the relation [nb] toward a finer block name
    the half that block lies in: along each axis with a zero offset the
    flag the routines consult is 1 exactly when the block's own logical
    coordinate is odd. *)
Definition fine_position_ok (fine : LevelBlock) (nb : NeighborBlock) : Prop :=
  let bs := block_size (block fine) in
  (ox1 (ni nb) = 0 -> (fi1 (ni nb) = 1 <-> Z.land (lx1 fine) 1 <> 0)) /\
  (ox2 (ni nb) = 0 -> nx2 bs > 1 -> (flag_x2 nb = 1 <-> Z.land (lx2 fine) 1 <> 0)) /\
  (ox3 (ni nb) = 0 -> nx3 bs > 1 -> (flag_x3 nb = 1 <-> Z.land (lx3 fine) 1 <> 0)).

(** How far, in coarse cells, the origin of the fine block lies from the
    origin of the coarse block along one axis: a whole block for a
    neighbour above, a coarse extent the other way for one below, and one
    half or none for a block inside the coarse block's extent. *)
Definition fine_origin (ox n : Z) (upper_half : bool) : Z :=
  if decide (ox > 0) then n
  else if decide (ox < 0) then - coarse_extent n
  else if upper_half then n `quot` 2 else 0.

(** The index, in the fine receiver's coarse buffer, of the coarse sender's
    index [x]; [nb] is the sender's relation toward the receiver. *)
Definition to_fine_receiver (sender fine : LevelBlock) (nb : NeighborBlock)
  : index3 -> index3 :=
  let bs := block_size (block sender) in
  let c := c_cellbounds fine in
  let b := cellbounds (block sender) in
  displace
    (ks c - ks b - fine_origin (ox3 (ni nb)) (nx3 bs) (bool_decide (Z.land (lx3 fine) 1 <> 0)))
    (js c - js b - fine_origin (ox2 (ni nb)) (nx2 bs) (bool_decide (Z.land (lx2 fine) 1 <> 0)))
    (is_ c - is_ b - fine_origin (ox1 (ni nb)) (nx1 bs) (bool_decide (Z.land (lx1 fine) 1 <> 0))).

(** The index, in the coarse receiver's array, of the index [x] of the
    fine sender's coarse buffer; [nb'] is the receiver's relation toward
    the sender, whose flags name the half the sender lies in. *)
Definition to_coarse_receiver (fine receiver : LevelBlock) (nb' : NeighborBlock)
  : index3 -> index3 :=
  let bs := block_size (block receiver) in
  let c := c_cellbounds fine in
  let b := cellbounds (block receiver) in
  displace
    (ks b - ks c + fine_origin (ox3 (ni nb')) (nx3 bs) (bool_decide (flag_x3 nb' = 1)))
    (js b - js c + fine_origin (ox2 (ni nb')) (nx2 bs) (bool_decide (flag_x2 nb' = 1)))
    (is_ b - is_ c + fine_origin (ox1 (ni nb')) (nx1 bs) (bool_decide (fi1 (ni nb') = 1))).

End CrossLevel.

Module LevelExamples.
Import FaceCentered CrossLevel.

(** A 4 x 4 x 4 block with two ghost layers on a multilevel mesh of three
    dimensions; its coarse index space has 2 x 2 x 2 cells and two ghost
    layers.  [lb_fine] sits in the upper half along axis 2 and the lower
    half along axis 3 of its coarser neighbour. *)
Definition fc_block_ml : Block := mkBlock (mkIS 2 5 2 5 2 5) (mkRS 4 4 4) true.
Definition lb_coarse : LevelBlock := mkLB fc_block_ml 2 (mkIS 2 3 2 3 2 3) 0 0 0 3.
Definition lb_fine : LevelBlock := mkLB fc_block_ml 2 (mkIS 2 3 2 3 2 3) 0 1 0 3.

(** The same block on a uniform mesh. *)
Definition lb_uniform : LevelBlock :=
  mkLB Examples.fc_block 2 (mkIS 2 3 2 3 2 3) 0 0 0 3.

(** The coarse block's relation toward the finer block across its upper
    axis-1 face, and the finer block's relation back. *)
Definition nb_to_fine : NeighborBlock := mkNB (mkSNB 0 1 1 1) (mkNI 1 0 0 1 0 face).
Definition nb_to_coarse : NeighborBlock := mkNB (mkSNB 0 0 0 0) (mkNI (-1) 0 0 0 0 face).

(** A restriction that samples the fine array at the doubled index. *)
Definition sample : Array3D Z -> Array3D Z -> Box -> Array3D Z :=
  fun fine coarse b x => fine (2 * x.1.1, 2 * x.1.2, 2 * x.2).

(** A field that holds the axis-1 index. *)
Definition ramp : FaceField Z :=
  mkFF Z (fun x => x.2) (fun x => x.2) (fun x => x.2).

End LevelExamples.

(** ** Persistent requests: [SetupPersistentMPI], [StartReceiving],
    [ClearBoundary] *)

Module Requests.
Import FaceCentered CrossLevel FineEdges.

(** Modelled from the spec: the enumeration [BoundaryCommSubset] is
    declared in [bvals/bvals_interfaces.hpp], which is not among the
    sources; the routines test for [all] and [gr_amr], and section 5 speaks
    of the phases other than [all]. *)
Inductive BoundaryCommSubset := mesh_init | gr_amr | all.

#[global] Instance BoundaryCommSubset_eq_dec : EqDecision BoundaryCommSubset.
Proof. solve_decision. Defined.

(** The members of [NeighborBlock] that the request routines read besides
    the relation: [bufid], [fid] and [eid]. *)
Record Neighbor := mkN {
  nbk : NeighborBlock;
  bufid : nat;
  fid : BoundaryFace;
  eid : Z
}.

(** The four request arrays: [bd_var_.req_send], [bd_var_.req_recv],
    [bd_var_flcor_.req_send], [bd_var_flcor_.req_recv]; a request is an
    array and an index [bufid]. *)
Inductive RequestArray := field_send | field_recv | flux_send | flux_recv.

#[global] Instance RequestArray_eq_dec : EqDecision RequestArray.
Proof. solve_decision. Defined.

Definition Request : Type := RequestArray * nat.

(** The request a flux-correction channel of [SetupPersistentMPI_flcor] is
    set up in, with its count. *)
Definition flux_request (n : Neighbor) (c : FluxChannel) : Request * option Z :=
  match c with
  | flcor_send count => ((flux_send, bufid n), count)
  | flcor_recv count => ((flux_recv, bufid n), count)
  end.

(** The test [(type == face) || ((type == edge) && edge_flag_[nb.eid])]. *)
Definition shares_flux (ec : EdgeCounts) (n : Neighbor) : bool :=
  bool_decide (type (ni (nbk n)) = face)
  || (bool_decide (type (ni (nbk n)) = edge) && edge_flag_ ec (Z.to_nat (eid n))).

Section Routines.
Variable NGHOST : Z.
(** The macro [MPI_PARALLEL]: whether the bodies under [#ifdef] are
    compiled. *)
Variable MPI_PARALLEL : bool.
(** [Globals::my_rank]. *)
Variable my_rank : Z.

(** [SetupPersistentMPI]: the edge arrays after [CountFineEdges], and the
    requests initialised with [MPI_Send_init] and [MPI_Recv_init], in
    order, each with the count it is given. *)
Definition SetupPersistentMPI (nblevel : nblevel_t) (pmb : LevelBlock) (mylevel : Z)
           (neighbor : list Neighbor) (ec : EdgeCounts)
  : EdgeCounts * list (Request * option Z) :=
  let ec := CountFineEdges nblevel mylevel (nx2 (block_size (block pmb)))
              (nx3 (block_size (block pmb))) ec in
  (ec,
   if MPI_PARALLEL then
     n ← neighbor;
     if decide (rank (snb (nbk n)) <> my_rank) then
       let size := (variable_sizes NGHOST pmb (ni (nbk n)) (cnghost pmb)).1 in
       let '(ssize, rsize) := SetupPersistentMPI_field NGHOST pmb mylevel (nbk n) in
       [((field_send, bufid n), ssize); ((field_recv, bufid n), rsize)]
       ++ (flux_request n <$>
             SetupPersistentMPI_flcor (block pmb) mylevel (nbk n) (fid n) (eid n)
               (edge_flag_ ec (Z.to_nat (eid n))) size)
     else []
   else []).

(** [StartReceiving]: the new value of [recv_flx_same_lvl_] and the
    requests given to [MPI_Start], in order. *)
Definition StartReceiving (mylevel : Z) (neighbor : list Neighbor) (ec : EdgeCounts)
           (recv_flx_same_lvl_ : bool) (phase : BoundaryCommSubset)
  : bool * list Request :=
  (if decide (phase = all) then true else recv_flx_same_lvl_,
   if MPI_PARALLEL then
     n ← neighbor;
     if decide (rank (snb (nbk n)) <> my_rank /\ phase <> gr_amr) then
       [(field_recv, bufid n)]
       ++ (if decide (phase = all /\
                      (type (ni (nbk n)) = face \/ type (ni (nbk n)) = edge)) then
             if decide (level (snb (nbk n)) > mylevel \/
                        (level (snb (nbk n)) = mylevel /\ shares_flux ec n = true))
             then [(flux_recv, bufid n)] else []
           else [])
     else []
   else []).

(** What [ClearBoundary] does for one neighbour, in order: the flags it
    sets to [BoundaryStatus::waiting] and the requests it gives to
    [MPI_Wait]. *)
Inductive Cleared :=
| reset_field (bufid : nat)     (* bd_var_.flag and bd_var_.sflag *)
| reset_flux (bufid : nat)      (* bd_var_flcor_.flag and bd_var_flcor_.sflag *)
| wait (r : Request).

Definition ClearBoundary (mylevel : Z) (neighbor : list Neighbor) (ec : EdgeCounts)
           (phase : BoundaryCommSubset) : list Cleared :=
  n ← neighbor;
  [reset_field (bufid n)]
  ++ (if decide ((type (ni (nbk n)) = face \/ type (ni (nbk n)) = edge) /\ phase = all)
      then [reset_flux (bufid n)] else [])
  ++ (if MPI_PARALLEL then
        if decide (rank (snb (nbk n)) <> my_rank /\ phase <> gr_amr) then
          [wait (field_send, bufid n)]
          ++ (if decide (phase = all) then
                if decide (type (ni (nbk n)) = face \/ type (ni (nbk n)) = edge) then
                  if decide (level (snb (nbk n)) < mylevel) then [wait (flux_send, bufid n)]
                  else if decide (level (snb (nbk n)) = mylevel /\ shares_flux ec n = true)
                       then [wait (flux_send, bufid n)] else []
                else []
              else [])
        else []
      else []).
End Routines.

(** The requests of one array among those given. *)
Definition of_array (a : RequestArray) (rs : list Request) : list Request :=
  filter (fun r => r.1 = a) rs.

(** The requests [ClearBoundary] waits on. *)
Definition waited (cs : list Cleared) : list Request :=
  c ← cs; match c with wait r => [r] | _ => [] end.

End Requests.

Module RequestExamples.
Import FaceCentered Requests.

(** Four neighbours of a block on rank 0 and level 0: a face neighbour of
    the same level on rank 1, an edge neighbour one level finer on rank 1,
    a face neighbour on the block's own rank, and a corner neighbour on
    rank 1. *)
Definition neighbors : list Neighbor :=
  [ mkN (mkNB (mkSNB 1 0 0 1) (mkNI 1 0 0 0 0 face)) 0 outer_x1 (-1);
    mkN (mkNB (mkSNB 1 1 0 2) (mkNI 1 1 0 0 0 edge)) 1 undef 3;
    mkN (mkNB (mkSNB 0 0 1 3) (mkNI (-1) 0 0 0 0 face)) 2 inner_x1 (-1);
    mkN (mkNB (mkSNB 1 0 0 4) (mkNI 1 1 1 0 0 corner)) 3 undef (-1) ].

End RequestExamples.

(** ** Flux-correction counts *)

Module FluxCounts.
Import FaceCentered.

(** The count a flux-correction request is initialised with. *)
Definition count_of (c : FluxChannel) : option Z :=
  match c with
  | flcor_send count => count
  | flcor_recv count => count
  end.

(** The face id [nb.fid] lies on the axis of the relation's offset. *)
Definition fid_on_offset_axis (n : NeighborIndexes) (fid : BoundaryFace) : Prop :=
  (ox1 n <> 0 -> fid = inner_x1 \/ fid = outer_x1) /\
  (ox2 n <> 0 -> fid = inner_x2 \/ fid = outer_x2) /\
  (ox3 n <> 0 -> fid = inner_x3 \/ fid = outer_x3).

(** The edge id [nb.eid] lies in the group of the edge's two axes, in the
    numbering [CountFineEdges] runs through: the edges of the axes 1-2
    from 0, those of the axes 1-3 from 4, those of the axes 2-3 from 8. *)
Definition eid_in_group (n : NeighborIndexes) (eid : Z) : Prop :=
  (ox3 n = 0 -> 0 <= eid < 4) /\
  (ox2 n = 0 -> 4 <= eid < 8) /\
  (ox1 n = 0 -> 8 <= eid < 12).

End FluxCounts.

(** ** [BuildBufferCache] with its debug check *)

Module CheckedBuild.

Section Build.
Variable bound_type : BoundaryType.
Variable my_rank : Z.
Variable KeyFunc : MeshBlock -> NeighborBlock -> CellVariable -> key_t.
Variable shuffle : list order_entry -> list order_entry.
(** The macro [NDEBUG]: whether the program is a release build. *)
Variable NDEBUG : bool.

(** Modelled from the spec: the macro [PARTHENON_DEBUG_REQUIRE] is declared
    in [utils/error_checking.hpp], which is not among the sources.  Section
    4.3 has the build resolve each address "fatal if absent", and section 7
    lists a missing channel among the fatal configuration errors: where the
    macro is compiled in (no [NDEBUG]) a false condition ends the program,
    which is [None] here. *)
Definition PARTHENON_DEBUG_REQUIRE {A : Type} (condition : bool) (continue : A) : option A :=
  if NDEBUG then Some continue
  else if condition then Some continue else None.

(** The first lambda of [BuildBufferCache] with the check of its second
    line, [comm_map->count(key) > 0]; once the program has ended, nothing
    more happens. *)
Definition build_visit_checked (cm : gmap key_t CommBuffer)
  : @void_callback (option (list order_entry * nat)) :=
  fun pmb rc nb v st =>
    match st with
    | None => None
    | Some s =>
        let key := KeyFunc pmb nb v in
        PARTHENON_DEBUG_REQUIRE (bool_decide (is_Some (cm !! key)))
          (build_visit KeyFunc pmb rc nb v s)
    end.

(** [BuildBufferCache] with the check: [None] when the check ended the
    program, else the communicator map, [pbuf_vec] and [pidx_vec]. *)
Definition BuildBufferCache_checked (md : MeshData) (cm : gmap key_t CommBuffer)
  : option (gmap key_t CommBuffer * list key_t * list nat) :=
  match ForEachBoundary bound_type my_rank
          (func_caller_void (build_visit_checked cm)) md (Some ([], 0%nat)) with
  | None => None
  | Some (key_order, _) =>
      let key_order := shuffle key_order in
      let '(cm', pbuf_vec, pidx_vec, _) :=
        foldl build_store (cm, [], replicate (length key_order) 0%nat, 0%nat) key_order in
      Some (cm', pbuf_vec, pidx_vec)
  end.
End Build.

End CheckedBuild.

Module PlaneExamples.


End PlaneExamples.

(* ====================================================================== *)
(** * Theorems *)
(* ====================================================================== *)

(** ** The enumerator *)

Section EnumeratorFacts.
Context {St : Type}.
Variable bound : BoundaryType.
Variable my_rank : Z.

Lemma run_until_app (func : @callback St) (L1 L2 : list boundary) (s : St) :
  run_until func s (L1 ++ L2) =
  match run_until func s L1 with
  | (s', break_out) => (s', break_out)
  | (s', cont) => run_until func s' L2
  end.
Proof.
  revert s; induction L1 as [|b L1 IH]; intros s; simpl; [done|].
  destruct (func b.1.1.1 b.1.1.2 b.1.2 b.2 s) as [s' []]; [apply IH|done].
Qed.

Lemma neighbor_loop_run (func : @callback St) pmb rc v nbs s :
  neighbor_loop bound my_rank func pmb rc v nbs s =
  run_until func s
    (nb ← filter (fun nb => skipped bound my_rank pmb nb = false) nbs; [(pmb, rc, nb, v)]).
Proof.
  revert s; induction nbs as [|nb rest IH]; intros s; simpl; [done|].
  destruct (skipped bound my_rank pmb nb) eqn:E.
  - rewrite filter_cons_False by congruence. apply IH.
  - rewrite filter_cons_True by done. rewrite bind_cons. simpl.
    destruct (func pmb rc nb v s) as [s' []]; [apply IH|done].
Qed.

Lemma variable_loop_run (func : @callback St) pmb rc vs s :
  variable_loop bound my_rank func pmb rc vs s =
  run_until func s
    (v ← filter (fun v => FillGhost v = true) vs;
     nb ← filter (fun nb => skipped bound my_rank pmb nb = false) (neighbor pmb);
     [(pmb, rc, nb, v)]).
Proof.
  revert s; induction vs as [|v rest IH]; intros s; simpl; [done|].
  destruct (FillGhost v) eqn:E.
  - rewrite filter_cons_True by done. rewrite bind_cons, run_until_app.
    rewrite neighbor_loop_run.
    destruct (run_until func s _) as [s' []]; [apply IH|done].
  - rewrite filter_cons_False by congruence. apply IH.
Qed.

Lemma block_loop_run (func : @callback St) md s :
  block_loop bound my_rank func md s = run_until func s (enumerate bound my_rank md).
Proof.
  revert s; induction md as [|rc rest IH]; intros s; [done|].
  unfold enumerate. rewrite bind_cons, run_until_app. simpl. rewrite variable_loop_run.
  destruct (run_until func s _) as [s' []]; [apply IH|done].
Qed.

(** The loops run the callback over the enumerated boundaries, in order,
    and return at the first [break_out]. *)
Lemma ForEachBoundary_run (func : @callback St) md s :
  ForEachBoundary bound my_rank func md s
  = (run_until func s (enumerate bound my_rank md)).1.
Proof. unfold ForEachBoundary. by rewrite block_loop_run. Qed.

Lemma run_until_void (f : @void_callback St) (L : list boundary) (s : St) :
  run_until (func_caller_void f) s L = (foldl (apply_visit f) s L, cont).
Proof. revert s; induction L as [|b L IH]; intros s; simpl; [done|]. apply IH. Qed.

(** A callback that never asks to stop is run on every enumerated
    boundary, in order. *)
Lemma ForEachBoundary_void (f : @void_callback St) md s :
  ForEachBoundary bound my_rank (func_caller_void f) md s =
  foldl (apply_visit f) s (enumerate bound my_rank md).
Proof. by rewrite ForEachBoundary_run, run_until_void. Qed.

(** A callback that asks to stop at its first call is called once. *)
Lemma ForEachBoundary_break (g : St -> St) md s b L :
  enumerate bound my_rank md = b :: L ->
  ForEachBoundary bound my_rank (func_caller (fun _ _ _ _ s => (g s, break_out))) md s
  = g s.
Proof. intros E. by rewrite ForEachBoundary_run, E. Qed.
End EnumeratorFacts.

Section EnumeratorSelection.
Variable bound : BoundaryType.
Variable my_rank : Z.

(** On offsets in range, the program's chain of tests passes exactly the
    neighbours that match the tag. *)
Lemma skipped_matches_tag pmb nb :
  offsets_ok (ni nb) ->
  skipped bound my_rank pmb nb = false <-> matches_tag bound my_rank pmb nb.
Proof.
  intros (H1 & H2 & H3). unfold offset_ok in *.
  unfold skipped, matches_tag, face_type, nonzero_count.
  destruct bound.
  - rewrite negb_false_iff. apply Z.eqb_eq.
  - apply Z.eqb_neq.
  - done.
  - destruct (Z.eqb_spec (level (snb nb)) (loc_level pmb - 1)); simpl;
      [|split; [done|intros []; done]].
    rewrite negb_false_iff, Z.eqb_eq.
    repeat case_decide; split; try intros [_ ?]; try split; try done; lia.
  - destruct (Z.eqb_spec (level (snb nb) - 1) (loc_level pmb)); simpl;
      [|split; [done|intros []; lia]].
    rewrite negb_false_iff, Z.eqb_eq.
    repeat case_decide; split; try intros [_ ?]; try split; try done; lia.
Qed.

Lemma filter_ext_Forall {A} (P Q : A -> Prop) `{!forall x, Decision (P x)}
      `{!forall x, Decision (Q x)} (l : list A) :
  Forall (fun x => P x <-> Q x) l -> filter P l = filter Q l.
Proof.
  induction l as [|x l IH]; intros HF; [done|].
  apply Forall_cons in HF as [Hx HF].
  rewrite !filter_cons, (IH HF).
  destruct (decide (P x)), (decide (Q x)); try done; exfalso; tauto.
Qed.

Lemma enumerate_selected md :
  mesh_offsets_ok md -> enumerate bound my_rank md = selected bound my_rank md.
Proof.
  induction md as [|rc md IH]; intros H; [done|].
  apply Forall_cons in H as [Hrc H]. specialize (IH H).
  unfold enumerate, selected in *. rewrite !bind_cons, IH. f_equal.
  rewrite (filter_ext_Forall _ (matches_tag bound my_rank (GetBlockPointer rc))); [done|].
  eapply Forall_impl; [exact Hrc|]. intros nb Hnb. by apply skipped_matches_tag.
Qed.

Lemma visited_enumerate md : visited bound my_rank md = enumerate bound my_rank md.
Proof.
  unfold visited. rewrite ForEachBoundary_void.
  assert (forall l acc, foldl (apply_visit
            (fun pmb rc nb v acc => acc ++ [(pmb, rc, nb, v)])) acc l = acc ++ l) as H.
  { induction l as [|[[[pmb rc] nb] v] l IH]; intros acc; simpl.
    - by rewrite app_nil_r.
    - rewrite IH. unfold apply_visit. simpl. by rewrite <- app_assoc. }
  by rewrite H.
Qed.

Lemma elem_of_selected (md : MeshData) (pmb : MeshBlock) (rc : MeshBlockData)
      (nb : NeighborBlock) (v : CellVariable) :
  ((pmb, rc, nb, v) ∈ selected bound my_rank md) <->
  ((rc ∈ md) /\ pmb = GetBlockPointer rc /\
   (v ∈ GetCellVariableVector rc) /\ FillGhost v = true /\
   (nb ∈ neighbor pmb) /\ matches_tag bound my_rank pmb nb).
Proof.
  unfold selected. rewrite list_elem_of_bind. split.
  - intros (rc' & Hin & Hrc). apply list_elem_of_bind in Hin as (v' & Hin & Hv).
    apply list_elem_of_bind in Hin as (nb' & Hin & Hnb).
    apply list_elem_of_singleton in Hin. simplify_eq.
    apply list_elem_of_filter in Hv as [? ?]. apply list_elem_of_filter in Hnb as [? ?].
    done.
  - intros (Hrc & -> & Hv & Hg & Hnb & Hm). exists rc. split; [|done].
    apply list_elem_of_bind. exists v. split; [|by apply list_elem_of_filter].
    apply list_elem_of_bind. exists nb. split; [|by apply list_elem_of_filter].
    by apply list_elem_of_singleton.
Qed.

(** C7.  On a mesh whose neighbour relations carry offsets in [{-1,0,1}],
    the boundaries [ForEachBoundary] hands to its callback are exactly the
    (block, neighbour, variable) triples of section 4.1, in block, variable,
    neighbour order: the variable is flagged [FillGhost] and the neighbour
    matches the tag ([any]: no filter; [local]: same rank; [nonlocal]:
    another rank; [flxcor_send]: one level coarser and exactly one nonzero
    offset; [flxcor_recv]: one level finer and exactly one nonzero
    offset). *)
Theorem ForEachBoundary_visits_selected (md : MeshData) :
  mesh_offsets_ok md ->
  visited bound my_rank md = selected bound my_rank md /\
  forall (pmb : MeshBlock) (rc : MeshBlockData) (nb : NeighborBlock) (v : CellVariable),
    ((pmb, rc, nb, v) ∈ visited bound my_rank md) <->
    ((rc ∈ md) /\ pmb = GetBlockPointer rc /\
     (v ∈ GetCellVariableVector rc) /\ FillGhost v = true /\
     (nb ∈ neighbor pmb) /\ matches_tag bound my_rank pmb nb).
Proof.
  intros Hok.
  assert (visited bound my_rank md = selected bound my_rank md) as E
    by (by rewrite visited_enumerate, enumerate_selected).
  split; [done|]. intros. rewrite E. apply elem_of_selected.
Qed.
End EnumeratorSelection.

(** ** Building the cache *)

Section BuildFacts.
Variable KeyFunc : MeshBlock -> NeighborBlock -> CellVariable -> key_t.

Lemma build_visit_fold (L : list boundary) : forall acc n,
  foldl (apply_visit (build_visit KeyFunc)) (acc, n) L =
  (acc ++ imap (fun i => entry_of KeyFunc (n + i)) L, (n + length L)%nat).
Proof.
  induction L as [|b L IH]; intros acc n; simpl.
  - by rewrite app_nil_r, Nat.add_0_r.
  - unfold apply_visit at 2. simpl. rewrite IH. f_equal.
    + rewrite <- app_assoc. simpl. do 2 f_equal.
      * unfold entry_of, key_of. by rewrite Nat.add_0_r.
      * apply imap_ext. intros i x _. simpl. f_equal. lia.
    + lia.
Qed.

Lemma key_order_idx (L : list boundary) n :
  entry_idx <$> imap (fun i => entry_of KeyFunc (n + i)) L = seq n (length L).
Proof.
  revert n; induction L as [|b L IH]; intros n; simpl; [done|].
  unfold entry_idx at 1. simpl. rewrite Nat.add_0_r. f_equal.
  rewrite <- IH. f_equal. apply imap_ext. intros i x _. simpl. f_equal. lia.
Qed.

Lemma key_order_lookup (L : list boundary) i b :
  L !! i = Some b ->
  imap (fun i => entry_of KeyFunc (0 + i)) L !! i = Some (entry_of KeyFunc i b).
Proof. intros H. by rewrite list_lookup_imap, H. Qed.
End BuildFacts.

Section StoreFacts.

Lemma build_store_buff_idx ko : forall st,
  (foldl build_store st ko).2 = (st.2 + length ko)%nat.
Proof.
  induction ko as [|t ko IH]; intros [[[cm bv] iv] n]; simpl; [lia|].
  rewrite IH. simpl. lia.
Qed.

Lemma build_store_buf_vec ko : forall st,
  (foldl build_store st ko).1.1.2 = st.1.1.2 ++ (snd <$> ko).
Proof.
  induction ko as [|t ko IH]; intros [[[cm bv] iv] n]; simpl.
  - by rewrite app_nil_r.
  - rewrite IH. simpl. by rewrite <- app_assoc.
Qed.

Lemma build_store_idx_length ko : forall st,
  length (foldl build_store st ko).1.2 = length st.1.2.
Proof.
  induction ko as [|t ko IH]; intros [[[cm bv] iv] n]; simpl; [done|].
  rewrite IH. simpl. apply length_insert.
Qed.

Lemma build_store_idx_other ko : forall st (i : nat),
  i ∉ entry_idx <$> ko ->
  (foldl build_store st ko).1.2 !! i = st.1.2 !! i.
Proof.
  induction ko as [|t ko IH]; intros [[[cm bv] iv] n] i Hi; simpl; [done|].
  rewrite fmap_cons, not_elem_of_cons in Hi. destruct Hi as [Hne Hi].
  rewrite IH by done. simpl. apply list_lookup_insert_ne. unfold entry_idx in Hne. done.
Qed.

Lemma build_store_idx_lookup ko : forall st (j : nat) t,
  NoDup (entry_idx <$> ko) ->
  (forall t, t ∈ ko -> (entry_idx t < length st.1.2)%nat) ->
  ko !! j = Some t ->
  (foldl build_store st ko).1.2 !! entry_idx t = Some (st.2 + j)%nat.
Proof.
  induction ko as [|t0 ko IH]; intros [[[cm bv] iv] n] j t Hnd Hlt Hj; [done|].
  rewrite fmap_cons in Hnd. apply NoDup_cons in Hnd as [Hnotin Hnd].
  destruct j as [|j]; simpl in *.
  - simplify_eq. rewrite build_store_idx_other by done. simpl.
    rewrite Nat.add_0_r. apply list_lookup_insert_eq. apply Hlt. left.
  - rewrite (IH _ j t); simpl; [f_equal; lia|done| |done].
    intros t' Ht'. rewrite length_insert. apply Hlt. by right.
Qed.

Lemma build_store_comm_keep ko : forall st k b,
  st.1.1.1 !! k = Some b -> (foldl build_store st ko).1.1.1 !! k = Some b.
Proof.
  induction ko as [|t ko IH]; intros [[[cm bv] iv] n] k b H; simpl in *; [done|].
  apply IH. simpl. unfold subscript. destruct (cm !! t.2) eqn:E; [done|].
  rewrite lookup_insert_ne; [done|]. intros Heq. rewrite Heq in E. congruence.
Qed.

Lemma build_store_comm_present ko : forall st t,
  t ∈ ko -> is_Some ((foldl build_store st ko).1.1.1 !! t.2).
Proof.
  induction ko as [|t0 ko IH]; intros [[[cm bv] iv] n] t Ht; simpl.
  - by apply elem_of_nil in Ht.
  - apply elem_of_cons in Ht as [->|Ht]; [|by apply IH].
    assert (is_Some (subscript cm t0.2 !! t0.2)) as [b Hb].
    { unfold subscript. destruct (cm !! t0.2) eqn:E; [by rewrite E|].
      rewrite lookup_insert_eq. by eexists. }
    exists b. by apply build_store_comm_keep.
Qed.
End StoreFacts.

Section BuildCache.
Variable bound : BoundaryType.
Variable my_rank : Z.
Variable KeyFunc : MeshBlock -> NeighborBlock -> CellVariable -> key_t.
Variable shuffle : list order_entry -> list order_entry.
Hypothesis shuffle_perm : rearranges shuffle.

Variable md : MeshData.
Variable cm : gmap key_t CommBuffer.

Let L := enumerate bound my_rank md.
Let key_order := imap (fun i => entry_of KeyFunc (0 + i)) L.
Let ko := shuffle key_order.
Let r := foldl build_store (cm, [], replicate (length ko) 0%nat, 0%nat) ko.

Lemma BuildBufferCache_unfold :
  BuildBufferCache bound my_rank KeyFunc shuffle md cm = (r.1.1.1, r.1.1.2, r.1.2).
Proof.
  unfold BuildBufferCache. rewrite ForEachBoundary_void, build_visit_fold. simpl.
  match goal with
  | |- context [foldl build_store ?a ?b] => change (foldl build_store a b) with r
  end.
  by destruct r as [[[? ?] ?] ?].
Qed.

Lemma ko_length : length ko = length L.
Proof.
  unfold ko. rewrite (Permutation_length (shuffle_perm key_order)).
  unfold key_order. apply length_imap.
Qed.

Lemma ko_idx_perm : entry_idx <$> ko ≡ₚ seq 0 (length L).
Proof.
  unfold ko. rewrite (shuffle_perm key_order). unfold key_order.
  by rewrite key_order_idx.
Qed.

Lemma ko_idx_NoDup : NoDup (entry_idx <$> ko).
Proof. rewrite ko_idx_perm. apply NoDup_seq. Qed.

Lemma ko_idx_lt t : t ∈ ko -> (entry_idx t < length L)%nat.
Proof.
  intros Ht. assert (entry_idx t ∈ entry_idx <$> ko) as H by by apply list_elem_of_fmap_2.
  rewrite ko_idx_perm in H. apply elem_of_seq in H. lia.
Qed.

(** The element of the shuffled order that carries boundary index [i]. *)
Lemma ko_find i b :
  L !! i = Some b -> exists j, ko !! j = Some (entry_of KeyFunc i b).
Proof.
  intros Hi. apply list_elem_of_lookup. unfold ko. rewrite (shuffle_perm key_order).
  apply list_elem_of_lookup. exists i. by apply key_order_lookup.
Qed.

Lemma built_idx_length : length r.1.2 = length L.
Proof.
  unfold r. rewrite build_store_idx_length. cbn [fst snd].
  rewrite length_replicate. apply ko_length.
Qed.

Lemma built_buf_length : length r.1.1.2 = length L.
Proof.
  unfold r. rewrite build_store_buf_vec. cbn [fst snd app].
  rewrite length_fmap. apply ko_length.
Qed.

Lemma built_idx_lookup j t :
  ko !! j = Some t -> r.1.2 !! entry_idx t = Some j.
Proof.
  intros Hj. unfold r. rewrite (build_store_idx_lookup ko _ j t); [done|apply ko_idx_NoDup| |done].
  intros t' Ht'. cbn [fst snd]. rewrite length_replicate, ko_length. by apply ko_idx_lt.
Qed.

Lemma built_idx_NoDup : NoDup r.1.2.
Proof.
  apply NoDup_alt. intros i i' x Hi Hi'.
  assert (forall i, r.1.2 !! i = Some x -> exists t, ko !! x = Some t /\ entry_idx t = i) as H.
  { clear i i' Hi Hi'. intros i Hi.
    assert (i < length L)%nat as Hlt.
    { rewrite <- built_idx_length. by eapply lookup_lt_Some. }
    assert (i ∈ entry_idx <$> ko) as Hin by (rewrite ko_idx_perm; apply elem_of_seq; lia).
    apply list_elem_of_fmap in Hin as (t & -> & Ht).
    apply list_elem_of_lookup in Ht as (j & Hj).
    pose proof (built_idx_lookup j t Hj) as Hj'. rewrite Hi in Hj'. simplify_eq.
    by exists t. }
  destruct (H i Hi) as (t & Ht & <-). destruct (H i' Hi') as (t' & Ht' & <-).
  congruence.
Qed.

Lemma built_idx_perm : r.1.2 ≡ₚ seq 0 (length L).
Proof.
  apply NoDup_Permutation; [apply built_idx_NoDup|apply NoDup_seq|].
  intros x. rewrite elem_of_seq. split.
  - intros Hx. apply list_elem_of_lookup in Hx as (i & Hi).
    assert (i < length L)%nat as Hlt.
    { rewrite <- built_idx_length. by eapply lookup_lt_Some. }
    assert (i ∈ entry_idx <$> ko) as Hin by (rewrite ko_idx_perm; apply elem_of_seq; lia).
    apply list_elem_of_fmap in Hin as (t & -> & Ht).
    apply list_elem_of_lookup in Ht as (j & Hj).
    pose proof (built_idx_lookup j t Hj) as Hj'. rewrite Hi in Hj'. simplify_eq.
    apply lookup_lt_Some in Hj. rewrite ko_length in Hj. lia.
  - intros [_ Hx]. simpl in Hx.
    destruct (lookup_lt_is_Some_2 ko x) as [t Ht]; [by rewrite ko_length|].
    apply list_elem_of_lookup. exists (entry_idx t). by apply built_idx_lookup.
Qed.

Lemma built_coherent bi bih :
  coherent KeyFunc L (mkSubCache r.1.1.2 r.1.2 bi bih).
Proof.
  unfold coherent. simpl.
  split; [apply built_idx_length|]. split; [apply built_buf_length|].
  split; [apply built_idx_NoDup|].
  intros i b Hi. destruct (ko_find i b Hi) as (j & Hj). exists j. split.
  - by apply (built_idx_lookup j _ Hj).
  - unfold r. rewrite build_store_buf_vec. cbn [fst snd app].
    exact (list_lookup_fmap_Some_2 snd ko j _ Hj).
Qed.

Lemma built_comm_present b :
  b ∈ L -> is_Some (r.1.1.1 !! key_of KeyFunc b).
Proof.
  intros Hb. apply list_elem_of_lookup in Hb as (i & Hi).
  destruct (ko_find i b Hi) as (j & Hj).
  apply (build_store_comm_present ko _ (entry_of KeyFunc i b)).
  apply list_elem_of_lookup. by exists j.
Qed.
End BuildCache.

(** C8.  Whatever rearrangement the shuffle makes, after [BuildBufferCache]
    over a subset whose enumeration yields [N] boundaries the cache holds
    exactly [N] channel pointers, and the remap vector has exactly [N]
    entries which form a permutation of [0, ..., N-1] (so distinct
    enumeration indices map to distinct slots). *)
Theorem BuildBufferCache_remap_is_permutation
        (bound : BoundaryType) (my_rank : Z)
        (KeyFunc : MeshBlock -> NeighborBlock -> CellVariable -> key_t)
        (shuffle : list order_entry -> list order_entry)
        (md : MeshData) (cm cm' : gmap key_t CommBuffer)
        (pbuf_vec : list key_t) (pidx_vec : list nat) :
  rearranges shuffle ->
  BuildBufferCache bound my_rank KeyFunc shuffle md cm = (cm', pbuf_vec, pidx_vec) ->
  let N := length (visited bound my_rank md) in
  length pbuf_vec = N /\ length pidx_vec = N /\
  pidx_vec ≡ₚ seq 0 N /\ NoDup pidx_vec.
Proof.
  intros Hsh HB N. subst N. rewrite visited_enumerate.
  rewrite BuildBufferCache_unfold in HB by done. simplify_eq.
  split; [by apply built_buf_length|]. split; [by apply built_idx_length|].
  split; [by apply built_idx_perm|by apply built_idx_NoDup].
Qed.

(** ** Send-side validation *)

Section SendCheck.
Variable cache : BvarsSubCache_t.

Let step := send_step cache.
Local Arguments send_step : simpl never.

Lemma send_fold_None (L : list boundary) : foldl step None L = None.
Proof. induction L as [|b L IH]; [done|]. simpl. apply IH. Qed.

(** One visit, spelled out. *)
Lemma send_step_Some rb n unf h b st :
  step (Some (rb, n, unf, h)) b = Some st ->
  exists ibuf key cb,
    idx_vec cache !! n = Some ibuf /\
    buf_vec cache !! ibuf = Some key /\
    comm_map h !! key = Some cb /\
    st = (if decide (ibuf < length (bnd_info_h cache))%nat then
            match bnd_info_h cache !! ibuf with
            | Some bi => rb || negb (UsingSameResource (buf bi)
                           (buffer (if IsAllocated b.2 then (Allocate cb (pool_next h)).1
                                    else Free cb)))
            | None => true
            end
          else true,
          S n,
          if negb (IsAvailableForWrite cb) then true else unf,
          mkComm (<[key := if IsAllocated b.2 then (Allocate cb (pool_next h)).1
                           else Free cb]> (comm_map h))
                 (if IsAllocated b.2 then (Allocate cb (pool_next h)).2
                  else pool_next h)).
Proof.
  unfold step, send_step, apply_visit, check_send_visit. simpl.
  destruct (idx_vec cache !! n) as [ibuf|] eqn:E1; simpl; [|done].
  destruct (buf_vec cache !! ibuf) as [key|] eqn:E2; simpl; [|done].
  destruct (comm_map h !! key) as [cb|] eqn:E3; simpl; [|done].
  intros H. exists ibuf, key, cb. repeat split; try done.
  destruct (IsAllocated b.2); [destruct (Allocate cb (pool_next h))|]; simpl in *;
    by simplify_eq.
Qed.

(** The position counter advances by one per boundary, and every position
    read from the remap vector is inside it. *)
Lemma send_fold_count (L : list boundary) : forall rb n unf h r,
  foldl step (Some (rb, n, unf, h)) L = Some r ->
  r.1.1.2 = (n + length L)%nat /\ (L = [] \/ (n + length L <= length (idx_vec cache))%nat).
Proof.
  induction L as [|b L IH]; intros rb n unf h r H; simpl in *.
  - simplify_eq. simpl. split; [lia|by left].
  - destruct (step (Some (rb, n, unf, h)) b) as [[[[rb1 n1] unf1] h1]|] eqn:E;
      [|by rewrite send_fold_None in H].
    apply send_step_Some in E as (ibuf & key & cb & Hi & _ & _ & E). simplify_eq.
    apply IH in H as [-> H]. split; [lia|]. right.
    destruct H as [->|H]; [|lia]. apply lookup_lt_Some in Hi. simpl. lia.
Qed.

Lemma Allocate_state cb p : GetState (Allocate cb p).1 = GetState cb.
Proof. unfold Allocate. by destruct (buffer cb). Qed.

Lemma send_step_states rb n unf h b st :
  step (Some (rb, n, unf, h)) b = Some st ->
  forall k, GetState <$> comm_map st.2 !! k = GetState <$> comm_map h !! k.
Proof.
  intros H k. apply send_step_Some in H as (ibuf & key & cb & _ & _ & Hk & ->). simpl.
  destruct (decide (key = k)) as [->|Hne].
  - rewrite lookup_insert_eq, Hk. simpl.
    destruct (IsAllocated b.2); [by rewrite Allocate_state|done].
  - by rewrite lookup_insert_ne.
Qed.

Lemma channel_of_states h h' i :
  (forall k, GetState <$> comm_map h' !! k = GetState <$> comm_map h !! k) ->
  GetState <$> channel_of cache h' i = GetState <$> channel_of cache h i.
Proof.
  intros H. unfold channel_of.
  destruct (idx_vec cache !! i) as [ibuf|]; simpl; [|done].
  destruct (buf_vec cache !! ibuf) as [key|]; simpl; [|done]. apply H.
Qed.

Lemma busy_states h h' i :
  (forall k, GetState <$> comm_map h' !! k = GetState <$> comm_map h !! k) ->
  busy cache h' i -> busy cache h i.
Proof.
  intros H (cb & Hc & Hb). pose proof (channel_of_states h h' i H) as E.
  rewrite Hc in E. simpl in E.
  destruct (channel_of cache h i) as [cb0|] eqn:E0; [|done]. simpl in E.
  exists cb0. split; [done|]. unfold IsAvailableForWrite in *.
  injection E as E. by rewrite <- E.
Qed.

(** The third result is raised exactly by a visited channel that is not
    available, and the visits leave every channel's state alone. *)
Lemma send_fold_unfinished (L : list boundary) : forall rb n unf h r,
  foldl step (Some (rb, n, unf, h)) L = Some r ->
  (r.1.2 = true <-> unf = true \/ exists i, (i < length L)%nat /\ busy cache h (n + i)) /\
  (forall k, GetState <$> comm_map r.2 !! k = GetState <$> comm_map h !! k).
Proof.
  induction L as [|b L IH]; intros rb n unf h r H; simpl in *.
  - simplify_eq. simpl. split; [|done]. split; [by left|].
    intros [?|(i & ? & _)]; [done|lia].
  - destruct (step (Some (rb, n, unf, h)) b) as [[[[rb1 n1] unf1] h1]|] eqn:E;
      [|by rewrite send_fold_None in H].
    pose proof (send_step_states _ _ _ _ _ _ E) as Hst. simpl in Hst.
    apply send_step_Some in E as (ibuf & key & cb & Hi & Hk & Hc & E).
    injection E as -> -> -> Hh1.
    apply IH in H as [Hunf Hstates]. split.
    + rewrite Hunf. split.
      * intros [Hu|(i & Hlt & Hb)].
        -- destruct (IsAvailableForWrite cb) eqn:Ea; simpl in Hu; [by left|].
           right. exists 0%nat. split; [lia|]. exists cb. split; [|done].
           unfold channel_of. rewrite Nat.add_0_r, Hi. simpl. rewrite Hk. simpl. done.
        -- right. exists (S i). split; [lia|].
           replace (n + S i)%nat with (S n + i)%nat by lia.
           by apply (busy_states h h1).
      * intros [Hu|(i & Hlt & Hb)].
        -- left. rewrite Hu. by destruct (negb _).
        -- destruct i as [|i].
           ++ left. destruct Hb as (cb' & Hc' & Ha). unfold channel_of in Hc'.
              rewrite Nat.add_0_r, Hi in Hc'. simpl in Hc'. rewrite Hk in Hc'.
              simpl in Hc'. rewrite Hc in Hc'. simplify_eq. by rewrite Ha.
           ++ right. exists i. split; [lia|].
              replace (S n + i)%nat with (n + S i)%nat by lia.
              apply (busy_states h1 h); [|done]. intros k. by rewrite Hst.
    + intros k. by rewrite Hstates, Hst.
Qed.
End SendCheck.

Lemma CheckSend_unfold BOUND SENDER my_rank md bvars h :
  CheckSendBufferCacheForRebuild BOUND SENDER my_rank md bvars h =
  foldl (send_step (GetSubCache bvars BOUND SENDER)) (Some (false, 0%nat, false, h))
        (enumerate BOUND my_rank md).
Proof. unfold CheckSendBufferCacheForRebuild. by rewrite ForEachBoundary_void. Qed.

(** C5.  Send-side validation reports an unfinished transfer exactly when
    some enumerated boundary's channel is not available for writing.  In
    particular a channel left in state [sending] makes the round not ready,
    and a validation over channels that are all [available] reports the
    round ready. *)
Theorem CheckSend_unfinished_iff
        (BOUND : BoundaryType) (SENDER : bool) (my_rank : Z) (md : MeshData)
        (bvars : BvarsCache_t) (h h' : Comm) (rb unf : bool) (n : nat) :
  CheckSendBufferCacheForRebuild BOUND SENDER my_rank md bvars h = Some (rb, n, unf, h') ->
  let cache := GetSubCache bvars BOUND SENDER in
  let N := length (visited BOUND my_rank md) in
  (unf = true <-> exists i, (i < N)%nat /\ busy cache h i) /\
  ((exists i cb, (i < N)%nat /\ channel_of cache h i = Some cb /\ GetState cb = sending) ->
   unf = true) /\
  ((forall i cb, (i < N)%nat -> channel_of cache h i = Some cb -> GetState cb = available) ->
   unf = false).
Proof.
  intros H cache N. subst N. rewrite visited_enumerate.
  rewrite CheckSend_unfold in H. apply send_fold_unfinished in H as [H _].
  simpl in H. fold cache in H.
  assert (unf = true <-> exists i, (i < length (enumerate BOUND my_rank md))%nat /\ busy cache h i)
    as Hiff.
  { rewrite H. split; [intros [?|?]; [done|done]|by right]. }
  split; [done|]. split.
  - intros (i & cb & Hi & Hc & Hs). apply Hiff. exists i. split; [done|].
    exists cb. split; [done|]. unfold IsAvailableForWrite. by rewrite Hs.
  - intros Hall. destruct unf; [|done]. destruct Hiff as [Hiff _].
    destruct (Hiff eq_refl) as (i & Hi & cb & Hc & Hb).
    apply (Hall i cb Hi) in Hc. unfold IsAvailableForWrite in Hb. by rewrite Hc in Hb.
Qed.

(** ** Receive-side validation *)

Section ReceiveCheck.
Variable cache : BvarsSubCache_t.
Variable h : Comm.

Let step := receive_step cache h.
Local Arguments receive_step : simpl never.

Lemma receive_fold_None (L : list boundary) : foldl step None L = None.
Proof. induction L as [|b L IH]; [done|]. simpl. apply IH. Qed.

Lemma receive_step_Some rb n b st :
  step (Some (rb, n)) b = Some st ->
  exists ibuf key cb,
    idx_vec cache !! n = Some ibuf /\
    buf_vec cache !! ibuf = Some key /\
    comm_map h !! key = Some cb /\
    st = (slot_verdict cache rb ibuf cb, S n).
Proof.
  unfold step, receive_step, apply_visit, check_receive_visit. simpl.
  destruct (idx_vec cache !! n) as [ibuf|] eqn:E1; simpl; [|done].
  destruct (buf_vec cache !! ibuf) as [key|] eqn:E2; simpl; [|done].
  destruct (comm_map h !! key) as [cb|] eqn:E3; simpl; [|done].
  intros H. exists ibuf, key, cb. repeat split; try done. by simplify_eq.
Qed.

Lemma receive_fold_count (L : list boundary) : forall rb n r,
  foldl step (Some (rb, n)) L = Some r ->
  r.2 = (n + length L)%nat /\ (L = [] \/ (n + length L <= length (idx_vec cache))%nat).
Proof.
  induction L as [|b L IH]; intros rb n r H; simpl in *.
  - simplify_eq. simpl. split; [lia|by left].
  - destruct (step (Some (rb, n)) b) as [[rb1 n1]|] eqn:E;
      [|by rewrite receive_fold_None in H].
    apply receive_step_Some in E as (ibuf & key & cb & Hi & _ & _ & E). simplify_eq.
    apply IH in H as [-> H]. split; [lia|]. right.
    destruct H as [->|H]; [|lia]. apply lookup_lt_Some in Hi. simpl. lia.
Qed.

Lemma slot_verdict_true rb ibuf key cb i :
  idx_vec cache !! i = Some ibuf ->
  buf_vec cache !! ibuf = Some key ->
  comm_map h !! key = Some cb ->
  slot_verdict cache rb ibuf cb = true <-> rb = true \/ stale cache h i.
Proof.
  intros Hi Hk Hc. unfold slot_verdict.
  destruct (decide (ibuf < length (bnd_info_h cache))%nat) as [Hlt|Hge].
  - destruct (lookup_lt_is_Some_2 _ _ Hlt) as [bi Hbi]. rewrite Hbi.
    assert (stale cache h i <->
            (buf bi <> buffer cb \/
             (GetState cb = received /\ allocated bi = false) \/
             (GetState cb = received_null /\ allocated bi = true))) as ->.
    { unfold stale. split.
      - intros (ibuf' & key' & cb' & Hi' & Hk' & Hc' & Hst).
        rewrite Hi in Hi'. injection Hi' as <-. rewrite Hk in Hk'. injection Hk' as <-.
        rewrite Hc in Hc'. injection Hc' as <-.
        destruct Hst as [Hge|(bi' & Hbi' & Hst)]; [lia|].
        rewrite Hbi in Hbi'. by injection Hbi' as <-.
      - intros Hst. exists ibuf, key, cb. repeat split; try done. right. by exists bi. }
    unfold UsingSameResource.
    destruct rb, (allocated bi); repeat case_bool_decide; simpl;
      split; try done; try (intros _; tauto); intros [?|[?|[[? ?]|[? ?]]]]; congruence.
  - split; [|done]. intros _. right. exists ibuf, key, cb. repeat split; try done.
    left. lia.
Qed.

(** What the receive-side loop computes over the boundaries it is given. *)
Lemma receive_fold_rebuild (L : list boundary) : forall rb n r,
  foldl step (Some (rb, n)) L = Some r ->
  (r.1 = true <-> rb = true \/ exists i, (i < length L)%nat /\ stale cache h (n + i)).
Proof.
  induction L as [|b L IH]; intros rb n r H; simpl in *.
  - simplify_eq. simpl. split; [by left|]. intros [?|(i & ? & _)]; [done|lia].
  - destruct (step (Some (rb, n)) b) as [[rb1 n1]|] eqn:E;
      [|by rewrite receive_fold_None in H].
    apply receive_step_Some in E as (ibuf & key & cb & Hi & Hk & Hc & E).
    injection E as -> ->. apply IH in H. rewrite H.
    rewrite (slot_verdict_true rb ibuf key cb n Hi Hk Hc). split.
    + intros [[?|Hs]|(i & Hlt & Hs)]; [by left| |].
      * right. exists 0%nat. split; [lia|]. by rewrite Nat.add_0_r.
      * right. exists (S i). split; [lia|].
        by replace (n + S i)%nat with (S n + i)%nat by lia.
    + intros [?|(i & Hlt & Hs)]; [by left; left|]. destruct i as [|i].
      * left. right. by rewrite Nat.add_0_r in Hs.
      * right. exists i. split; [lia|].
        by replace (S n + i)%nat with (n + S i)%nat by lia.
Qed.
End ReceiveCheck.

Lemma CheckReceive_unfold BOUND SENDER my_rank md bvars h :
  CheckReceiveBufferCacheForRebuild BOUND SENDER my_rank md bvars h =
  foldl (receive_step (GetSubCache bvars BOUND SENDER) h) (Some (false, 0%nat))
        (enumerate flxcor_recv my_rank md).
Proof. unfold CheckReceiveBufferCacheForRebuild. by rewrite ForEachBoundary_void. Qed.

(** On the flux-correction receive subset the validation is the one of
    section 4.3: a rebuild is asked for exactly when some enumerated
    position is stale. *)
Lemma CheckReceive_flxcor_recv_iff SENDER my_rank md bvars h rb n :
  CheckReceiveBufferCacheForRebuild flxcor_recv SENDER my_rank md bvars h = Some (rb, n) ->
  n = length (visited flxcor_recv my_rank md) /\
  (rb = true <->
   exists i, (i < n)%nat /\ stale (GetSubCache bvars flxcor_recv SENDER) h i).
Proof.
  intros H. rewrite CheckReceive_unfold in H. rewrite visited_enumerate.
  pose proof (receive_fold_count _ _ _ _ _ _ H) as [Hn _]. simpl in Hn. subst n.
  split; [done|]. apply receive_fold_rebuild in H. simpl in H. rewrite H.
  split; [intros [?|?]; done|by right].
Qed.

(** C10.  Both validation routines read the remap vector at every
    enumeration position without a bounds check: when the enumeration yields
    more boundaries than [idx_vec] has entries the read is out of bounds and
    the routine has no defined result; a defined result needs the
    enumerated count to be at most the length of [idx_vec]. *)
Theorem validation_needs_remap_in_bounds
        (BOUND : BoundaryType) (SENDER : bool) (my_rank : Z) (md : MeshData)
        (bvars : BvarsCache_t) (h : Comm) :
  let cache := GetSubCache bvars BOUND SENDER in
  ((length (idx_vec cache) < length (visited BOUND my_rank md))%nat ->
   CheckSendBufferCacheForRebuild BOUND SENDER my_rank md bvars h = None) /\
  ((length (idx_vec cache) < length (visited flxcor_recv my_rank md))%nat ->
   CheckReceiveBufferCacheForRebuild BOUND SENDER my_rank md bvars h = None) /\
  (is_Some (CheckSendBufferCacheForRebuild BOUND SENDER my_rank md bvars h) ->
   (length (visited BOUND my_rank md) <= length (idx_vec cache))%nat) /\
  (is_Some (CheckReceiveBufferCacheForRebuild BOUND SENDER my_rank md bvars h) ->
   (length (visited flxcor_recv my_rank md) <= length (idx_vec cache))%nat).
Proof.
  intros cache. rewrite !visited_enumerate, CheckSend_unfold, CheckReceive_unfold.
  fold cache.
  assert (forall r, foldl (send_step cache) (Some (false, 0%nat, false, h))
                      (enumerate BOUND my_rank md) = Some r ->
                    (length (enumerate BOUND my_rank md) <= length (idx_vec cache))%nat) as HS.
  { intros r Hr. apply send_fold_count in Hr as [_ [->|Hr]]; simpl in *; lia. }
  assert (forall r, foldl (receive_step cache h) (Some (false, 0%nat))
                      (enumerate flxcor_recv my_rank md) = Some r ->
                    (length (enumerate flxcor_recv my_rank md) <= length (idx_vec cache))%nat)
    as HR.
  { intros r Hr. apply receive_fold_count in Hr as [_ [->|Hr]]; simpl in *; lia. }
  repeat split.
  - intros Hlt. destruct (foldl (send_step cache) _ _) as [r|] eqn:E; [|done].
    specialize (HS r eq_refl). lia.
  - intros Hlt. destruct (foldl (receive_step cache h) _ _) as [r|] eqn:E; [|done].
    specialize (HR r eq_refl). lia.
  - intros [r Hr]. by apply HS in Hr.
  - intros [r Hr]. by apply HR in Hr.
Qed.

(** ** Cache stability *)

Section Stability.
Variable KeyFunc : MeshBlock -> NeighborBlock -> CellVariable -> key_t.

Local Arguments send_step : simpl never.
Local Arguments rebuild_step : simpl never.

Lemma resolves_tail cache n b L :
  resolves KeyFunc cache n (b :: L) -> resolves KeyFunc cache (S n) L.
Proof.
  intros H i b' Hi. destruct (H (S i) b' Hi) as (ibuf & H1 & H2).
  exists ibuf. split; [|done]. by replace (S n + i)%nat with (n + S i)%nat by lia.
Qed.

Lemma resolves_head cache n b L :
  resolves KeyFunc cache n (b :: L) ->
  exists ibuf, idx_vec cache !! n = Some ibuf /\
               buf_vec cache !! ibuf = Some (key_of KeyFunc b).
Proof.
  intros H. destruct (H 0%nat b eq_refl) as (ibuf & H1 & H2).
  exists ibuf. by rewrite Nat.add_0_r in H1.
Qed.

Lemma send_step_eq cache rb n unf h b ibuf key cb :
  idx_vec cache !! n = Some ibuf ->
  buf_vec cache !! ibuf = Some key ->
  comm_map h !! key = Some cb ->
  send_step cache (Some (rb, n, unf, h)) b =
  Some (if decide (ibuf < length (bnd_info_h cache))%nat then
          match bnd_info_h cache !! ibuf with
          | Some bi => rb || negb (UsingSameResource (buf bi)
                         (buffer (if IsAllocated b.2 then (Allocate cb (pool_next h)).1
                                  else Free cb)))
          | None => true
          end
        else true,
        S n,
        if negb (IsAvailableForWrite cb) then true else unf,
        mkComm (<[key := if IsAllocated b.2 then (Allocate cb (pool_next h)).1
                         else Free cb]> (comm_map h))
               (if IsAllocated b.2 then (Allocate cb (pool_next h)).2
                else pool_next h)).
Proof.
  intros E1 E2 E3. unfold send_step, apply_visit, check_send_visit. simpl.
  rewrite E1. simpl. rewrite E2. simpl. rewrite E3. simpl.
  destruct (IsAllocated b.2); [destruct (Allocate cb (pool_next h))|]; done.
Qed.

Lemma visit_settles cb (alloc : bool) p :
  is_Some (buffer (if alloc then (Allocate cb p).1 else Free cb)) <-> alloc = true.
Proof.
  destruct alloc; simpl.
  - unfold Allocate. destruct (buffer cb) eqn:E; simpl; [by rewrite E|]; by split.
  - split; [intros [? ?]; done|done].
Qed.

(** Validation over a cache that resolves the enumeration, on channels
    that exist, is defined; it touches only the channels of the
    enumeration and leaves each of them settled. *)
Lemma send_fold_defined cache (L : list boundary) : forall rb n unf h,
  resolves KeyFunc cache n L ->
  (forall b, b ∈ L -> is_Some (comm_map h !! key_of KeyFunc b)) ->
  exists r, foldl (send_step cache) (Some (rb, n, unf, h)) L = Some r /\
    r.1.1.2 = (n + length L)%nat /\
    (forall k, k ∉ key_of KeyFunc <$> L -> comm_map r.2 !! k = comm_map h !! k) /\
    (forall k, is_Some (comm_map h !! k) -> is_Some (comm_map r.2 !! k)) /\
    (NoDup (key_of KeyFunc <$> L) -> forall b, b ∈ L -> settled KeyFunc r.2 b).
Proof.
  induction L as [|b L IH]; intros rb n unf h Hres Hpres.
  - exists (rb, n, unf, h). simpl. repeat split; try done; try lia.
    intros _ b Hb. by apply elem_of_nil in Hb.
  - destruct (resolves_head _ _ _ _ Hres) as (ibuf & Hi & Hk).
    destruct (Hpres b) as [cb Hcb]; [left|].
    simpl. rewrite (send_step_eq _ _ _ _ _ _ _ _ _ Hi Hk Hcb).
    match goal with
    | |- context [foldl _ (Some (?rb1, _, ?unf1, ?h1)) L] =>
        destruct (IH rb1 (S n) unf1 h1) as (r & Hr & Hn & Hframe & Hdom & Hset)
    end.
    + by eapply resolves_tail.
    + intros b' Hb'. simpl. destruct (decide (key_of KeyFunc b = key_of KeyFunc b')) as [->|Hne].
      * rewrite lookup_insert_eq. by eexists.
      * rewrite lookup_insert_ne by done. apply Hpres. by right.
    + exists r. split; [done|]. split; [lia|]. simpl in *. split; [|split].
      * intros k Hk'. rewrite not_elem_of_cons in Hk'. destruct Hk' as [Hne Hk'].
        rewrite Hframe by done. by rewrite lookup_insert_ne.
      * intros k Hk'. apply Hdom. destruct (decide (key_of KeyFunc b = k)) as [->|Hne].
        -- rewrite lookup_insert_eq. by eexists.
        -- by rewrite lookup_insert_ne.
      * intros Hnd b' Hb'. apply NoDup_cons in Hnd as [Hnotin Hnd].
        apply elem_of_cons in Hb' as [->|Hb']; [|by apply Hset].
        eexists. split.
        -- rewrite Hframe by done. apply lookup_insert_eq.
        -- apply visit_settles.
Qed.

Lemma send_fold_stable cache (L : list boundary) : forall rb n unf h,
  (forall i b, L !! i = Some b ->
     exists ibuf key cb bi,
       idx_vec cache !! (n + i)%nat = Some ibuf /\
       buf_vec cache !! ibuf = Some key /\
       comm_map h !! key = Some cb /\
       (is_Some (buffer cb) <-> IsAllocated b.2 = true) /\
       bnd_info_h cache !! ibuf = Some bi /\
       buf bi = buffer cb) ->
  exists unf', foldl (send_step cache) (Some (rb, n, unf, h)) L =
               Some (rb, (n + length L)%nat, unf', h).
Proof.
  induction L as [|b L IH]; intros rb n unf h H.
  - exists unf. simpl. by rewrite Nat.add_0_r.
  - destruct (H 0%nat b eq_refl) as (ibuf & key & cb & bi & Hi & Hk & Hcb & Hset & Hbi & Hbuf).
    rewrite Nat.add_0_r in Hi. simpl. rewrite (send_step_eq _ _ _ _ _ _ _ _ _ Hi Hk Hcb).
    assert ((if IsAllocated b.2 then (Allocate cb (pool_next h)).1 else Free cb) = cb) as ->.
    { destruct (IsAllocated b.2).
      - destruct Hset as [_ [x Hx]]; [done|]. unfold Allocate. by rewrite Hx.
      - destruct cb as [st [x|]]; [|done]. destruct Hset as [Hset _].
        by discriminate Hset. }
    assert ((if IsAllocated b.2 then (Allocate cb (pool_next h)).2 else pool_next h)
            = pool_next h) as ->.
    { destruct (IsAllocated b.2); [|done].
      destruct Hset as [_ [x Hx]]; [done|]. unfold Allocate. by rewrite Hx. }
    rewrite insert_id by done.
    destruct (decide (ibuf < length (bnd_info_h cache))%nat) as [_|Hge];
      [|apply lookup_lt_Some in Hbi; lia].
    rewrite Hbi. unfold UsingSameResource. rewrite bool_decide_eq_true_2 by done.
    rewrite orb_false_r.
    replace (mkComm (comm_map h) (pool_next h)) with h by by destruct h.
    destruct (IH rb (S n) (if negb (IsAvailableForWrite cb) then true else unf) h)
      as (unf' & Hunf').
    + intros i b' Hb'. destruct (H (S i) b' Hb') as (i' & k' & cb' & bi' & ? & ?).
      exists i', k', cb', bi'. by replace (S n + i)%nat with (n + S i)%nat by lia.
    + exists unf'. rewrite Hunf'. do 4 f_equal. lia.
Qed.

Variable BndInfoCreator : F_BND_INFO.
Variable h : Comm.

Lemma rebuild_fold_None (L : list boundary) :
  foldl (rebuild_step BndInfoCreator h) None L = None.
Proof. induction L as [|b L IH]; [done|]. simpl. apply IH. Qed.

Lemma rebuild_step_eq c n b ibuf :
  idx_vec c !! n = Some ibuf ->
  buf_vec c !! ibuf = Some (key_of KeyFunc b) ->
  (ibuf < length (bnd_info_h c))%nat ->
  rebuild_step BndInfoCreator h (Some (c, n)) b =
  Some (mkSubCache (buf_vec c) (idx_vec c) (bnd_info c)
          (<[ibuf := BndInfoCreator b.1.1.1 b.1.2 b.2 (key_of KeyFunc b) (comm_map h)]>
             (bnd_info_h c)), S n).
Proof.
  intros E1 E2 Hlt. unfold rebuild_step, apply_visit, rebuild_visit. simpl.
  rewrite E1. simpl. rewrite E2. simpl. by rewrite decide_True by done.
Qed.

(** The rebuild loop writes, for every enumerated boundary, the factory's
    descriptor into the boundary's slot and changes nothing else. *)
Lemma rebuild_fold (L : list boundary) : forall c n,
  resolves KeyFunc c n L ->
  length (buf_vec c) = length (bnd_info_h c) ->
  exists c', foldl (rebuild_step BndInfoCreator h) (Some (c, n)) L
             = Some (c', (n + length L)%nat) /\
    buf_vec c' = buf_vec c /\ idx_vec c' = idx_vec c /\ bnd_info c' = bnd_info c /\
    length (bnd_info_h c') = length (bnd_info_h c) /\
    (forall j, (forall i, (i < length L)%nat -> idx_vec c !! (n + i)%nat <> Some j) ->
               bnd_info_h c' !! j = bnd_info_h c !! j) /\
    (NoDup (idx_vec c) -> forall i b, L !! i = Some b ->
       exists ibuf, idx_vec c !! (n + i)%nat = Some ibuf /\
         bnd_info_h c' !! ibuf =
         Some (BndInfoCreator b.1.1.1 b.1.2 b.2 (key_of KeyFunc b) (comm_map h))).
Proof.
  induction L as [|b L IH]; intros c n Hres Hlen.
  - exists c. simpl. rewrite Nat.add_0_r. repeat split; try done.
  - destruct (resolves_head _ _ _ _ Hres) as (ibuf & Hi & Hk).
    assert (ibuf < length (bnd_info_h c))%nat as Hlt.
    { rewrite <- Hlen. by eapply lookup_lt_Some. }
    simpl. rewrite (rebuild_step_eq _ _ _ _ Hi Hk Hlt).
    match goal with
    | |- context [foldl _ (Some (?c1, _)) L] =>
        destruct (IH c1 (S n)) as (c' & Hc' & Hb & Hx & Hbi & Hl & Hother & Hrec)
    end.
    + apply resolves_tail in Hres. exact Hres.
    + simpl. by rewrite length_insert.
    + simpl in *. exists c'. split; [rewrite Hc'; do 3 f_equal; lia|].
      rewrite length_insert in Hl. repeat split; try done.
      * intros j Hj. rewrite Hother.
        -- apply list_lookup_insert_ne. intros ->. apply (Hj 0%nat); [lia|].
           by rewrite Nat.add_0_r.
        -- intros i Hlt'. replace (S (n + i))%nat with (n + S i)%nat by lia.
           apply Hj. lia.
      * intros Hnd i b' Hb'. destruct i as [|i]; simpl in Hb'.
        -- simplify_eq. exists ibuf. rewrite Nat.add_0_r. split; [done|].
           rewrite Hother; [by apply list_lookup_insert_eq|].
           intros i Hlt' Hi'. apply (NoDup_lookup _ _ _ _ Hnd Hi) in Hi'. lia.
        -- destruct (Hrec Hnd i b' Hb') as (ibuf' & H1 & H2). exists ibuf'.
           by replace (n + S i)%nat with (S (n + i))%nat by lia.
Qed.
End Stability.

Lemma GetSubCache_SetSubCache c B S sc : GetSubCache (SetSubCache c B S sc) B S = sc.
Proof. unfold GetSubCache, SetSubCache. by rewrite decide_True. Qed.


Lemma Rebuild_unfold BOUND SENDER my_rank md nbound creator bvars h :
  RebuildBufferCache BOUND SENDER my_rank md nbound creator bvars h =
  let cache := GetSubCache bvars BOUND SENDER in
  r ← foldl (rebuild_step creator h)
        (Some (mkSubCache (buf_vec cache) (idx_vec cache)
                 (replicate nbound default_BndInfo)
                 (replicate (length (replicate nbound default_BndInfo)) default_BndInfo),
               0%nat))
        (enumerate BOUND my_rank md);
  Some (SetSubCache bvars BOUND SENDER
          (mkSubCache (buf_vec r.1) (idx_vec r.1) (bnd_info_h r.1) (bnd_info_h r.1))).
Proof.
  unfold RebuildBufferCache. rewrite ForEachBoundary_void. cbv zeta.
  unfold rebuild_step.
  destruct (foldl _ _ _) as [[c n]|]; done.
Qed.

(** Validation, rebuild and validation again over a coherent cache. *)
Lemma stability_core
      (bound : BoundaryType) (SENDER : bool) (my_rank : Z)
      (KeyFunc : MeshBlock -> NeighborBlock -> CellVariable -> key_t)
      (BndInfoCreator : F_BND_INFO)
      (md : MeshData) (h0 : Comm) (bvars0 : BvarsCache_t) :
  let L := enumerate bound my_rank md in
  coherent KeyFunc L (GetSubCache bvars0 bound SENDER) ->
  (forall b, b ∈ L -> is_Some (comm_map h0 !! key_of KeyFunc b)) ->
  NoDup (key_of KeyFunc <$> L) ->
  records_buffer BndInfoCreator ->
  exists rb unf h1 bvars1,
    CheckSendBufferCacheForRebuild bound SENDER my_rank md bvars0 h0
      = Some (rb, length L, unf, h1) /\
    RebuildBufferCache bound SENDER my_rank md (length L) BndInfoCreator bvars0 h1
      = Some bvars1 /\
    forall h2, same_resources h1 h2 ->
      exists unf',
        CheckSendBufferCacheForRebuild bound SENDER my_rank md bvars1 h2
          = Some (false, length L, unf', h2).
Proof.
  intros L. set (cache0 := GetSubCache bvars0 bound SENDER).
  intros (Hli & Hlb & Hndi & Hres0) Hpres Hnd Hrec.
  destruct (send_fold_defined KeyFunc cache0 L false 0%nat false h0 Hres0 Hpres)
    as ([[[rb n] unf] h1] & Hc1 & Hn & _ & _ & Hset).
  cbn [fst snd] in Hn, Hset. subst n. specialize (Hset Hnd).
  exists rb, unf, h1.
  set (cacheR := mkSubCache (buf_vec cache0) (idx_vec cache0)
                   (replicate (length L) default_BndInfo)
                   (replicate (length (replicate (length L) default_BndInfo)) default_BndInfo)).
  destruct (rebuild_fold KeyFunc BndInfoCreator h1 L cacheR 0%nat)
    as (c' & Hc' & Hbv & Hiv & _ & _ & _ & Hwritten).
  { exact Hres0. }
  { unfold cacheR. cbn [buf_vec bnd_info_h]. by rewrite !length_replicate. }
  specialize (Hwritten Hndi).
  set (cache1 := mkSubCache (buf_vec c') (idx_vec c') (bnd_info_h c') (bnd_info_h c')).
  exists (SetSubCache bvars0 bound SENDER cache1).
  split; [|split].
  - rewrite CheckSend_unfold. exact Hc1.
  - rewrite Rebuild_unfold. cbv zeta. fold cache0. fold L. fold cacheR.
    rewrite Hc'. done.
  - intros h2 Hsame. rewrite CheckSend_unfold, GetSubCache_SetSubCache. fold L.
    destruct (send_fold_stable cache1 L false 0%nat false h2) as (unf' & Hunf').
    + intros i b Hb.
      destruct (Hres0 i b Hb) as (ibuf & Hi & Hk).
      destruct (Hwritten i b Hb) as (ibuf' & Hi' & Hbi).
      change (0 + i)%nat with i in *. unfold cacheR in Hi'. cbn [idx_vec] in Hi'.
      rewrite Hi in Hi'. injection Hi' as <-.
      destruct (Hset b) as (cb1 & Hcb1 & Hs1).
      { apply list_elem_of_lookup. by exists i. }
      pose proof (Hsame (key_of KeyFunc b)) as Hsk. rewrite Hcb1 in Hsk. simpl in Hsk.
      destruct (comm_map h2 !! key_of KeyFunc b) as [cb2|] eqn:Hcb2; [|done].
      injection Hsk as Hsk.
      exists ibuf, (key_of KeyFunc b), cb2,
        (BndInfoCreator b.1.1.1 b.1.2 b.2 (key_of KeyFunc b) (comm_map h1)).
      unfold cache1. cbn [idx_vec buf_vec bnd_info_h]. rewrite Hiv, Hbv.
      cbn [idx_vec buf_vec cacheR].
      split; [exact Hi|]. split; [exact Hk|]. split; [done|].
      split; [rewrite Hsk; apply Hs1|]. split; [exact Hbi|].
      rewrite Hsk. by apply Hrec.
    + exists unf'. by rewrite Hunf'.
Qed.

(** C3.  Build the cache of a subset, validate it on the send side, and
    rebuild the descriptors from the same enumeration with a factory that
    records each channel's storage.  Then, as long as the topology and the
    variables' allocation are those of the build (the same [md]) and every
    channel keeps the storage resource it had at the rebuild, the next
    send-side validation is defined and returns [needs_rebuild = false]
    with the same boundary count.  Channel keys are distinct along the
    enumeration, and the shuffle is any rearrangement. *)
Theorem cache_stability
        (bound : BoundaryType) (SENDER : bool) (my_rank : Z)
        (KeyFunc : MeshBlock -> NeighborBlock -> CellVariable -> key_t)
        (shuffle : list order_entry -> list order_entry)
        (BndInfoCreator : F_BND_INFO)
        (md : MeshData) (cm cm' : gmap key_t CommBuffer) (pool : nat)
        (bvars : BvarsCache_t) (pbuf_vec : list key_t) (pidx_vec : list nat) :
  rearranges shuffle ->
  NoDup (key_of KeyFunc <$> visited bound my_rank md) ->
  records_buffer BndInfoCreator ->
  BuildBufferCache bound my_rank KeyFunc shuffle md cm = (cm', pbuf_vec, pidx_vec) ->
  let old := GetSubCache bvars bound SENDER in
  let bvars0 := SetSubCache bvars bound SENDER
                  (mkSubCache pbuf_vec pidx_vec (bnd_info old) (bnd_info_h old)) in
  let N := length (visited bound my_rank md) in
  exists rb unf h1 bvars1,
    CheckSendBufferCacheForRebuild bound SENDER my_rank md bvars0 (mkComm cm' pool)
      = Some (rb, N, unf, h1) /\
    RebuildBufferCache bound SENDER my_rank md N BndInfoCreator bvars0 h1 = Some bvars1 /\
    forall h2, same_resources h1 h2 ->
      exists unf',
        CheckSendBufferCacheForRebuild bound SENDER my_rank md bvars1 h2
          = Some (false, N, unf', h2).
Proof.
  intros Hsh Hnd Hrec HB old bvars0 N. subst N.
  rewrite visited_enumerate in *.
  rewrite BuildBufferCache_unfold in HB by done. injection HB as <- <- <-.
  apply (stability_core bound SENDER my_rank KeyFunc BndInfoCreator md _ bvars0);
    try done.
  - unfold bvars0. rewrite GetSubCache_SetSubCache. by apply built_coherent.
  - intros b Hb. by apply built_comm_present.
Qed.

(** ** Addressing *)

(** C1.  For two blocks [A] and [B] joined by an interface, [A]'s relation
    toward [B] carrying offsets in [{-1,0,1}] and [B]'s relation toward [A]
    the negated offsets, [SendKey] at [A] is [ReceiveKey] at [B] and
    [ReceiveKey] at [A] is [SendKey] at [B], for the same variable name,
    whatever the offsets and the connectivity type of the two relations;
    the location index of either key is one of the 27 positions [0..26]. *)
Theorem SendKey_ReceiveKey_symmetry
        (A B : MeshBlock) (nbA nbB : NeighborBlock) (vA vB : CellVariable) :
  mirrored A nbA B nbB ->
  offsets_ok (ni nbA) ->
  label vA = label vB ->
  SendKey A nbA vA = ReceiveKey B nbB vB /\
  ReceiveKey A nbA vA = SendKey B nbB vB /\
  0 <= (SendKey A nbA vA).2 <= 26 /\ 0 <= (ReceiveKey A nbA vA).2 <= 26.
Proof.
  intros (HgA & HgB & H1 & H2 & H3) (O1 & O2 & O3) Hl. unfold SendKey, ReceiveKey.
  rewrite HgA, HgB, H1, H2, H3, Hl. unfold offset_ok in *. simpl.
  split; [repeat f_equal; lia|]. split; [repeat f_equal; lia|lia].
Qed.

Lemma SendKey_ReceiveKey_symmetry_witness :
  mirrored Examples.blockA Examples.nbAB Examples.blockB Examples.nbBA /\
  SendKey Examples.blockA Examples.nbAB Examples.rho
    = ReceiveKey Examples.blockB Examples.nbBA Examples.rho /\
  ReceiveKey Examples.blockA Examples.nbAB Examples.rho
    = SendKey Examples.blockB Examples.nbBA Examples.rho /\
  0 <= (SendKey Examples.blockA Examples.nbAB Examples.rho).2 <= 26 /\
  0 <= (ReceiveKey Examples.blockA Examples.nbAB Examples.rho).2 <= 26.
Proof.
  assert (mirrored Examples.blockA Examples.nbAB Examples.blockB Examples.nbBA) as Hm
    by (repeat split; reflexivity).
  split; [exact Hm|].
  apply (SendKey_ReceiveKey_symmetry _ _ _ _ _ _ Hm); [|reflexivity].
  unfold offsets_ok, offset_ok; simpl; lia.
Defined.

(** The location index of a relation with offsets in range is one of the 27
    positions [0..26], and distinct offset vectors have distinct indices. *)
Lemma location_idx_range (pmb : MeshBlock) (nb : NeighborBlock) (v : CellVariable) :
  offsets_ok (ni nb) -> 0 <= (SendKey pmb nb v).2 <= 26.
Proof. intros (H1 & H2 & H3). unfold offset_ok in *. simpl. lia. Qed.

(** ** Witnesses on the two-block mesh *)

Lemma ForEachBoundary_visits_selected_witness :
  mesh_offsets_ok Examples.md2 /\
  visited flxcor_send 0 Examples.md2 = selected flxcor_send 0 Examples.md2 /\
  visited any 0 Examples.md2 = selected any 0 Examples.md2.
Proof.
  assert (mesh_offsets_ok Examples.md2) as Hok.
  { repeat constructor; simpl; unfold offset_ok; lia. }
  split; [exact Hok|].
  split; [exact (proj1 (ForEachBoundary_visits_selected flxcor_send 0 Examples.md2 Hok))|].
  exact (proj1 (ForEachBoundary_visits_selected any 0 Examples.md2 Hok)).
Defined.

Lemma rearranges_reverse : rearranges reverse.
Proof. intros l. apply reverse_Permutation. Defined.

Lemma BuildBufferCache_remap_witness :
  let r := BuildBufferCache any 0 SendKey reverse Examples.md2 ∅ in
  length r.1.2 = 2%nat /\ length r.2 = 2%nat /\ r.2 ≡ₚ seq 0 2 /\ NoDup r.2.
Proof.
  intros r.
  apply (BuildBufferCache_remap_is_permutation any 0 SendKey reverse Examples.md2 ∅
           r.1.1 r.1.2 r.2 rearranges_reverse).
  subst r. by destruct (BuildBufferCache _ _ _ _ _ _) as [[? ?] ?].
Defined.

Lemma record_info_records_buffer : records_buffer Examples.record_info.
Proof. intros pmb nb v key cm cb H. unfold Examples.record_info. simpl. by rewrite H. Defined.

Lemma cache_stability_witness :
  let r := BuildBufferCache any 0 SendKey reverse Examples.md2 ∅ in
  let bvars0 := SetSubCache Examples.no_cache any true (mkSubCache r.1.2 r.2 [] []) in
  exists rb unf h1 bvars1,
    CheckSendBufferCacheForRebuild any true 0 Examples.md2 bvars0 (mkComm r.1.1 0)
      = Some (rb, 2%nat, unf, h1) /\
    RebuildBufferCache any true 0 Examples.md2 2 Examples.record_info bvars0 h1
      = Some bvars1 /\
    forall h2, same_resources h1 h2 ->
      exists unf',
        CheckSendBufferCacheForRebuild any true 0 Examples.md2 bvars1 h2
          = Some (false, 2%nat, unf', h2).
Proof.
  intros r bvars0.
  apply (cache_stability any true 0 SendKey reverse Examples.record_info Examples.md2
           ∅ r.1.1 0 Examples.no_cache r.1.2 r.2 rearranges_reverse).
  - refine (bool_decide_unpack
              (NoDup (key_of SendKey <$> visited any 0 Examples.md2)) _).
    vm_compute. exact I.
  - exact record_info_records_buffer.
  - subst r. by destruct (BuildBufferCache _ _ _ _ _ _) as [[? ?] ?].
Defined.

Lemma CheckSend_unfinished_witness :
  (exists r, CheckSendBufferCacheForRebuild any true 0 Examples.md2
               (Examples.built_any true) Examples.comm_sending = Some r /\
             r.1.2 = true) /\
  (exists r, CheckSendBufferCacheForRebuild any true 0 Examples.md2
               (Examples.built_any true) Examples.comm_available = Some r /\
             r.1.2 = false).
Proof.
  split.
  - destruct (CheckSendBufferCacheForRebuild any true 0 Examples.md2
                (Examples.built_any true) Examples.comm_sending)
      as [[[[rb n] unf] h']|] eqn:E; [|vm_compute in E; discriminate E].
    exists (rb, n, unf, h'). split; [reflexivity|].
    apply (CheckSend_unfinished_iff _ _ _ _ _ _ _ _ _ _ E).
    exists 0%nat, (mkCB sending (Some 0%nat)).
    split; [vm_compute; lia|]. split; vm_compute; reflexivity.
  - destruct (CheckSendBufferCacheForRebuild any true 0 Examples.md2
                (Examples.built_any true) Examples.comm_available)
      as [[[[rb n] unf] h']|] eqn:E; [|vm_compute in E; discriminate E].
    exists (rb, n, unf, h'). split; [reflexivity|].
    apply (CheckSend_unfinished_iff _ _ _ _ _ _ _ _ _ _ E).
    intros i cb Hi Hc. change (length (visited any 0 Examples.md2)) with 2%nat in Hi.
    destruct i as [|[|i]]; [| |lia]; vm_compute in Hc; injection Hc as <-; reflexivity.
Defined.

Lemma validation_needs_remap_in_bounds_witness :
  (length (idx_vec (GetSubCache Examples.no_cache any true))
   < length (visited any 0 Examples.md2))%nat /\
  CheckSendBufferCacheForRebuild any true 0 Examples.md2 Examples.no_cache
    Examples.comm_available = None.
Proof.
  assert (length (idx_vec (GetSubCache Examples.no_cache any true))
          < length (visited any 0 Examples.md2))%nat as H by (vm_compute; lia).
  split; [exact H|].
  exact (proj1 (validation_needs_remap_in_bounds any true 0 Examples.md2
                  Examples.no_cache Examples.comm_available) H).
Defined.

(** C4, evaluated.  The sub-cache of the subset [any] was built for the two
    boundaries of the mesh and no descriptor has been recorded yet, so both
    positions lie beyond the descriptor count and are stale.  The
    receive-side validation of that sub-cache nevertheless enumerates the
    flux-correction receive subset, which is empty on this mesh, and returns
    [needs_rebuild = false] with a boundary count of 0. *)
Theorem CheckReceive_enumerates_flxcor_recv :
  let cache := GetSubCache (Examples.built_any false) any false in
  length (visited any 0 Examples.md2) = 2%nat /\
  (forall i, (i < 2)%nat -> stale cache Examples.comm_received i) /\
  CheckReceiveBufferCacheForRebuild any false 0 Examples.md2
    (Examples.built_any false) Examples.comm_received = Some (false, 0%nat).
Proof.
  intros cache. split; [reflexivity|]. split; [|by vm_compute].
  intros i Hi. destruct i as [|[|i]]; [| |lia].
  - exists 0%nat, Examples.keyAB, (mkCB received (Some 0%nat)).
    repeat split; try (vm_compute; reflexivity). left. simpl. lia.
  - exists 1%nat, Examples.keyBA, (mkCB received (Some 1%nat)).
    repeat split; try (vm_compute; reflexivity). left. simpl. lia.
Qed.

(** ** Face-centred fields *)

Import FaceCentered.

(** C6.  In three dimensions ([nx3 > 1]) the flux-correction buffer size of
    a face relation is [(nx2+1)*nx3 + nx2*(nx3+1)] when the offset is along
    axis 1, [(nx1+1)*nx3 + nx1*(nx3+1)] along axis 2 and
    [(nx1+1)*nx2 + nx1*(nx2+1)] along axis 3.  A corner relation has
    computed size 0, and the channel setup initialises no flux-correction
    request for it. *)
Theorem flux_correction_size (pmb : Block) (n : NeighborIndexes) (cng : Z) :
  let nx1 := nx1 (block_size pmb) in
  let nx2 := nx2 (block_size pmb) in
  let nx3 := nx3 (block_size pmb) in
  (nx3 > 1 -> type n = face -> connect_of n = face ->
   (ox1 n <> 0 ->
    ComputeFluxCorrectionBufferSize pmb n cng = (nx2 + 1) * nx3 + nx2 * (nx3 + 1)) /\
   (ox2 n <> 0 ->
    ComputeFluxCorrectionBufferSize pmb n cng = (nx1 + 1) * nx3 + nx1 * (nx3 + 1)) /\
   (ox3 n <> 0 ->
    ComputeFluxCorrectionBufferSize pmb n cng = (nx1 + 1) * nx2 + nx1 * (nx2 + 1))) /\
  (type n = corner ->
   ComputeFluxCorrectionBufferSize pmb n cng = 0 /\
   ~ ComputeFluxCorrectionBufferSize pmb n cng > 0 /\
   forall mylevel nb fid eid edge_flag size,
     ni nb = n ->
     SetupPersistentMPI_flcor pmb mylevel nb fid eid edge_flag size = []).
Proof.
  intros nx1' nx2' nx3'. split.
  - intros H3 Hface Hcon. unfold ComputeFluxCorrectionBufferSize.
    fold nx1' nx2' nx3'. rewrite decide_True by done. rewrite decide_True by done.
    unfold connect_of, nonzero_count in Hcon.
    repeat split; intros Hox; repeat case_decide; try done; simpl in Hcon; done.
  - intros Hc.
    assert (ComputeFluxCorrectionBufferSize pmb n cng = 0) as E.
    { unfold ComputeFluxCorrectionBufferSize. rewrite Hc.
      rewrite decide_False by done. by rewrite decide_False. }
    split; [done|]. split; [lia|].
    intros mylevel nb fid eid edge_flag size Hn. unfold SetupPersistentMPI_flcor.
    rewrite Hn, Hc. rewrite decide_False by done. by rewrite decide_False.
Qed.

Lemma flux_correction_size_witness :
  let pmb := mkBlock (mkIS 2 5 2 7 2 9) (mkRS 4 6 8) false in
  ComputeFluxCorrectionBufferSize pmb (mkNI 1 0 0 0 0 face) 2 = (6 + 1) * 8 + 6 * (8 + 1) /\
  ComputeFluxCorrectionBufferSize pmb (mkNI 0 (-1) 0 0 0 face) 2 = (4 + 1) * 8 + 4 * (8 + 1) /\
  ComputeFluxCorrectionBufferSize pmb (mkNI 0 0 1 0 0 face) 2 = (4 + 1) * 6 + 4 * (6 + 1).
Proof.
  intros pmb.
  assert (nx3 (block_size pmb) > 1) as H3 by (simpl; lia).
  split; [|split].
  - apply (proj1 (flux_correction_size pmb (mkNI 1 0 0 0 0 face) 2) H3 eq_refl eq_refl).
    simpl; lia.
  - apply (proj1 (flux_correction_size pmb (mkNI 0 (-1) 0 0 0 face) 2) H3 eq_refl eq_refl).
    simpl; lia.
  - apply (proj1 (flux_correction_size pmb (mkNI 0 0 1 0 0 face) 2) H3 eq_refl eq_refl).
    simpl; lia.
Defined.

(** *** Loops that copy array elements *)

Section Copies.
Context {Real : Type} {A I : Type} `{EqDecision A}.

(** A loop that, for each [i] of a list, writes the element at [src i] to
    the position [tgt i], where no target is a source and distinct [i] have
    distinct targets: afterwards each target holds the original value of its
    source and every other position is as before. *)
Lemma copy_loop (src tgt : I -> A) (l : list I) (a : A -> Real) :
  (forall i i', tgt i <> src i') ->
  (forall i i', tgt i = tgt i' -> i = i') ->
  let a' := foldl (fun a i => <[tgt i := a (src i)]> a) a l in
  (forall x, (forall i, i ∈ l -> x <> tgt i) -> a' x = a x) /\
  (forall i, i ∈ l -> a' (tgt i) = a (src i)).
Proof.
  intros Hdisj Hinj. induction l as [|i0 l IH] using rev_ind; simpl.
  - split; [done|]. intros i Hi. by apply elem_of_nil in Hi.
  - destruct IH as [Hother Hin]. rewrite foldl_app. simpl.
    set (al := foldl (fun a i => <[tgt i := a (src i)]> a) a l) in *.
    assert (al (src i0) = a (src i0)) as Hsrc.
    { apply Hother. intros i _ Heq. by apply (Hdisj i i0). }
    split.
    + intros x Hx. rewrite fn_lookup_insert_ne.
      * apply Hother. intros i Hi. apply Hx. apply elem_of_app. by left.
      * intros Heq. apply (Hx i0); [|done]. apply elem_of_app. right. by left.
    + intros i Hi. destruct (decide (tgt i0 = tgt i)) as [Heq|Hne].
      * rewrite Heq, fn_lookup_insert. apply Hinj in Heq. by subst.
      * rewrite fn_lookup_insert_ne by done. apply Hin.
        apply elem_of_app in Hi as [Hi|Hi]; [done|].
        apply list_elem_of_singleton in Hi. by subst.
Qed.
End Copies.

Section Replication.
Context {Real : Type}.
Variable NGHOST : Z.



(** The three components of the field [SetBoundarySameLevel] returns. *)
Lemma SetBoundarySameLevel_fields cellbounds pmb (buf : Buffer Real) nb var_fc :
  let b1 := set_bx1 NGHOST cellbounds pmb nb in
  let b2 := set_bx2 NGHOST cellbounds pmb nb b1 in
  let b3 := set_bx3 NGHOST cellbounds pmb nb b2 in
  let u1 := UnpackData Real buf (x1f Real var_fc) b1 0 in
  let u2 := UnpackData Real buf (x2f Real var_fc) b2 u1.2 in
  let u3 := UnpackData Real buf (x3f Real var_fc) b3 u2.2 in
  let out := SetBoundarySameLevel Real NGHOST cellbounds pmb buf nb var_fc in
  x1f Real out = u1.1 /\
  x2f Real out = (if decide (nx2 (block_size pmb) = 1)
                  then copy_x2f_plane Real u2.1 b2 else u2.1) /\
  x3f Real out = (if decide (nx3 (block_size pmb) = 1)
                  then copy_x3f_plane Real u3.1 b3 else u3.1).
Proof.
  intros b1 b2 b3 u1 u2 u3 out. subst out. unfold SetBoundarySameLevel.
  fold b1. fold u1. destruct u1 as [a1 p1] eqn:E1. fold b2. simpl in u2. fold u2.
  destruct u2 as [a2 p2] eqn:E2. fold b3. simpl in u3. fold u3.
  destruct u3 as [a3 p3] eqn:E3. done.
Qed.

End Replication.

(** *** Packing and unpacking a box *)

Section PackUnpack.
Context {Real : Type}.

Lemma pack_fold (src : index3 -> Real) (L : list index3) : forall (buf : nat -> Real) (p : nat),
  let r := foldl (fun st x => (<[st.2 := src x]> st.1, S st.2)) (buf, p) L in
  r.2 = (p + length L)%nat /\
  (forall n x, L !! n = Some x -> r.1 (p + n)%nat = src x) /\
  (forall q, (q < p \/ p + length L <= q)%nat -> r.1 q = buf q).
Proof.
  induction L as [|x0 L IH] using rev_ind; intros buf p; simpl.
  - split; [lia|]. split; [done|done].
  - rewrite foldl_app. simpl. destruct (IH buf p) as (Hp & Hin & Hout).
    set (rl := foldl (fun st x => (<[st.2 := src x]> st.1, S st.2)) (buf, p) L) in *.
    rewrite length_app. simpl. split; [lia|]. split.
    + intros n x Hn. apply lookup_app_Some in Hn as [Hn|[Hge Hn]].
      * rewrite fn_lookup_insert_ne; [by apply Hin|].
        apply lookup_lt_Some in Hn. lia.
      * destruct (n - length L)%nat eqn:E; [|done]. simpl in Hn. simplify_eq.
        replace (p + n)%nat with rl.2 by lia. apply fn_lookup_insert.
    + intros q Hq. rewrite fn_lookup_insert_ne by lia. apply Hout. lia.
Qed.

Lemma unpack_fold (buf : nat -> Real) (L : list index3) : forall (dst : index3 -> Real) (p : nat),
  let r := foldl (fun st x => (<[x := buf st.2]> st.1, S st.2)) (dst, p) L in
  r.2 = (p + length L)%nat /\
  (NoDup L -> forall n x, L !! n = Some x -> r.1 x = buf (p + n)%nat) /\
  (forall y, y ∉ L -> r.1 y = dst y).
Proof.
  induction L as [|x0 L IH] using rev_ind; intros dst p; simpl.
  - split; [lia|]. split; [done|done].
  - rewrite foldl_app. simpl. destruct (IH dst p) as (Hp & Hin & Hout).
    set (rl := foldl (fun st x => (<[x := buf st.2]> st.1, S st.2)) (dst, p) L) in *.
    rewrite length_app. simpl. split; [lia|]. split.
    + intros Hnd n x Hn. apply NoDup_app in Hnd as (HndL & Hdisj & _).
      apply lookup_app_Some in Hn as [Hn|[Hge Hn]].
      * rewrite fn_lookup_insert_ne; [by apply Hin|].
        intros <-. apply (Hdisj x0); [|left]. apply list_elem_of_lookup. by exists n.
      * destruct (n - length L)%nat eqn:E; [|done]. simpl in Hn. simplify_eq.
        rewrite fn_lookup_insert. f_equal. lia.
    + intros y Hy. apply not_elem_of_app in Hy as [Hy Hy0].
      apply not_elem_of_cons in Hy0 as [Hne _].
      rewrite fn_lookup_insert_ne by done. by apply Hout.
Qed.

Lemma range_shift (s e d : Z) : range (s + d) (e + d) = Z.add d <$> range s e.
Proof.
  unfold range. rewrite fmap_add_seqZ. f_equal; lia.
Qed.

Lemma range_NoDup (s e : Z) : NoDup (range s e).
Proof. apply NoDup_seqZ. Qed.

Lemma elem_of_range (s e x : Z) : x ∈ range s e <-> s <= x <= e.
Proof. unfold range. rewrite elem_of_seqZ. lia. Qed.

Lemma elem_of_box_indices (b : Box) (k j i : Z) :
  (k, j, i) ∈ box_indices b <->
  sk b <= k <= ek b /\ sj b <= j <= ej b /\ si b <= i <= ei b.
Proof.
  unfold box_indices. rewrite list_elem_of_bind. split.
  - intros (k' & Hin & Hk). apply list_elem_of_bind in Hin as (j' & Hin & Hj).
    apply list_elem_of_bind in Hin as (i' & Hin & Hi).
    apply list_elem_of_singleton in Hin. simplify_eq.
    by rewrite !elem_of_range in *.
  - intros (Hk & Hj & Hi). exists k. rewrite elem_of_range. split; [|done].
    apply list_elem_of_bind. exists j. rewrite elem_of_range. split; [|done].
    apply list_elem_of_bind. exists i. rewrite elem_of_range. split; [|done].
    by apply list_elem_of_singleton.
Qed.

Lemma box_indices_NoDup (b : Box) : NoDup (box_indices b).
Proof.
  unfold box_indices. apply NoDup_bind; [| |apply range_NoDup].
  - intros k1 k2 [[k j] i] _ _ H1 H2.
    apply list_elem_of_bind in H1 as (j1 & H1 & _).
    apply list_elem_of_bind in H1 as (i1 & H1 & _).
    apply list_elem_of_bind in H2 as (j2 & H2 & _).
    apply list_elem_of_bind in H2 as (i2 & H2 & _).
    apply list_elem_of_singleton in H1, H2. congruence.
  - intros k _. apply NoDup_bind; [| |apply range_NoDup].
    + intros j1 j2 [[k' j] i] _ _ H1 H2.
      apply list_elem_of_bind in H1 as (i1 & H1 & _).
      apply list_elem_of_bind in H2 as (i2 & H2 & _).
      apply list_elem_of_singleton in H1, H2. congruence.
    + intros j _. apply NoDup_bind; [| |apply range_NoDup].
      * intros i1 i2 y _ _ H1 H2. apply list_elem_of_singleton in H1, H2. congruence.
      * intros i _. apply NoDup_singleton.
Qed.

Lemma fmap_bind_list {A B C} (f : B -> C) (g : A -> list B) (l : list A) :
  f <$> (l ≫= g) = l ≫= (fun x => f <$> g x).
Proof.
  induction l as [|x l IH]; [done|]. by rewrite !bind_cons, fmap_app, IH.
Qed.

Lemma box_indices_displace (b : Box) (dk dj di : Z) :
  box_indices (mkBox (si b + di) (ei b + di) (sj b + dj) (ej b + dj) (sk b + dk) (ek b + dk))
  = displace dk dj di <$> box_indices b.
Proof.
  unfold box_indices. simpl. rewrite !range_shift.
  rewrite list_fmap_bind, fmap_bind_list. apply list_bind_ext; [|done].
  intros k. simpl. rewrite list_fmap_bind, fmap_bind_list. apply list_bind_ext; [|done].
  intros j. simpl. rewrite list_fmap_bind, fmap_bind_list. apply list_bind_ext; [|done].
  intros i. done.
Qed.

Lemma displace_inj dk dj di : Inj (=) (=) (displace dk dj di).
Proof.
  intros [[k j] i] [[k' j'] i'] [=]. f_equal; [f_equal|]; lia.
Qed.

(** [PackData] over a box: the count advances by the number of indices,
    the [n]-th position holds the value at the [n]-th index, the rest of the
    buffer is untouched. *)
Lemma PackData_spec (src : Array3D Real) (buf : Buffer Real) (b : Box) (p : nat) :
  let r := PackData Real src buf b p in
  r.2 = (p + length (box_indices b))%nat /\
  (forall n x, box_indices b !! n = Some x -> r.1 (p + n)%nat = src x) /\
  (forall q, (q < p \/ p + length (box_indices b) <= q)%nat -> r.1 q = buf q).
Proof. apply pack_fold. Qed.

(** [UnpackData] over a box: the [n]-th index receives the [n]-th position
    read, every index outside the box keeps its value. *)
Lemma UnpackData_spec (buf : Buffer Real) (dst : Array3D Real) (b : Box) (p : nat) :
  let r := UnpackData Real buf dst b p in
  r.2 = (p + length (box_indices b))%nat /\
  (forall n x, box_indices b !! n = Some x -> r.1 x = buf (p + n)%nat) /\
  (forall y, y ∉ box_indices b -> r.1 y = dst y).
Proof.
  destruct (unpack_fold buf (box_indices b) dst p) as (H1 & H2 & H3).
  split; [done|]. split; [|done]. apply H2, box_indices_NoDup.
Qed.
End PackUnpack.

(** *** Same-level round trip, with the receiver's bounds bound to its block *)

Section RoundTrip.
Context {Real : Type}.
Variable NGHOST : Z.
Variable pmb : Block.
Variables nb nb' : NeighborBlock.
Hypothesis Hshape : shape_ok pmb.
Hypothesis Hrel : relation_ok pmb nb.
Hypothesis Hmirror : mirror_relation nb nb'.

Let l1 := load_bx1 NGHOST pmb nb.
Let l2 := load_bx2 NGHOST pmb nb l1.
Let l3 := load_bx3 NGHOST pmb nb l2.
Let s1 := set_bx1 NGHOST (cellbounds pmb) pmb nb'.
Let s2 := set_bx2 NGHOST (cellbounds pmb) pmb nb' s1.
Let s3 := set_bx3 NGHOST (cellbounds pmb) pmb nb' s2.
Let dk := - (ox3 (ni nb) * nx3 (block_size pmb)).
Let dj := - (ox2 (ni nb) * nx2 (block_size pmb)).
Let di := - (ox1 (ni nb) * nx1 (block_size pmb)).

Lemma overlap_mirror : overlap pmb nb' = overlap pmb nb.
Proof. unfold overlap. destruct Hmirror as (_ & _ & _ & ->). done. Qed.

Ltac offsets_cases :=
  destruct Hshape as (Hi & Hj & Hk);
  destruct Hrel as ((H1 & H2 & H3) & Hd2 & Hd3);
  destruct Hmirror as (M1 & M2 & M3 & _);
  unfold offset_ok in *.

Ltac split_offset o :=
  let E := fresh "E" in
  assert (o = -1 \/ o = 0 \/ o = 1) as [E|[E|E]] by lia; rewrite E in *.

Ltac box_eq :=
  rewrite ?overlap_mirror; destruct (overlap pmb nb);
  match goal with
  | M1 : ox1 _ = _, M2 : ox2 _ = _, M3 : ox3 _ = _ |- _ => rewrite ?M1, ?M2, ?M3
  end;
  f_equal;
  split_offset (ox1 (ni nb)); split_offset (ox2 (ni nb)); split_offset (ox3 (ni nb));
  repeat (case_decide; try lia).

Lemma set_bx1_displaced :
  s1 = mkBox (si l1 + di) (ei l1 + di) (sj l1 + dj) (ej l1 + dj) (sk l1 + dk) (ek l1 + dk).
Proof.
  subst s1 l1 di dj dk. offsets_cases. unfold set_bx1, load_bx1.
  cbn [si ei sj ej sk ek]. box_eq.
Qed.

Lemma set_bx2_displaced :
  s2 = mkBox (si l2 + di) (ei l2 + di) (sj l2 + dj) (ej l2 + dj) (sk l2 + dk) (ek l2 + dk).
Proof.
  subst s2 l2. unfold set_bx2, load_bx2. rewrite set_bx1_displaced.
  subst di dj dk. offsets_cases. cbn [si ei sj ej sk ek]. box_eq.
Qed.

Lemma set_bx3_displaced :
  s3 = mkBox (si l3 + di) (ei l3 + di) (sj l3 + dj) (ej l3 + dj) (sk l3 + dk) (ek l3 + dk).
Proof.
  subst s3 l3. unfold set_bx3, load_bx3. rewrite set_bx2_displaced.
  subst di dj dk. offsets_cases. cbn [si ei sj ej sk ek]. box_eq.
Qed.

Lemma indices_1 : box_indices s1 = to_receiver pmb nb <$> box_indices l1.
Proof. rewrite set_bx1_displaced. apply box_indices_displace. Qed.

Lemma indices_2 : box_indices s2 = to_receiver pmb nb <$> box_indices l2.
Proof. rewrite set_bx2_displaced. apply box_indices_displace. Qed.

Lemma indices_3 : box_indices s3 = to_receiver pmb nb <$> box_indices l3.
Proof. rewrite set_bx3_displaced. apply box_indices_displace. Qed.

Variables var var' : FaceField Real.
Variable buf0 : Buffer Real.

Let P1 := PackData Real (x1f Real var) buf0 l1 0.
Let P2 := PackData Real (x2f Real var) P1.1 l2 P1.2.
Let P3 := PackData Real (x3f Real var) P2.1 l3 P2.2.

Lemma LoadBoundaryBufferSameLevel_packs :
  LoadBoundaryBufferSameLevel Real NGHOST pmb var buf0 nb = P3.
Proof.
  unfold LoadBoundaryBufferSameLevel. fold l1. fold P1.
  destruct P1 as [b1 p1] eqn:E1. fold l2. simpl in P2. fold P2.
  destruct P2 as [b2 p2] eqn:E2. fold l3. simpl in P3. fold P3. done.
Qed.

Let n1 := length (box_indices l1).
Let n2 := length (box_indices l2).
Let n3 := length (box_indices l3).

Lemma packed_counts : P1.2 = n1 /\ P2.2 = (n1 + n2)%nat /\ P3.2 = (n1 + n2 + n3)%nat.
Proof.
  destruct (PackData_spec (x1f Real var) buf0 l1 0) as (H1 & _).
  destruct (PackData_spec (x2f Real var) P1.1 l2 P1.2) as (H2 & _).
  destruct (PackData_spec (x3f Real var) P2.1 l3 P2.2) as (H3 & _).
  fold P1 in H1, H2. fold P2 in H2, H3. fold P3 in H3. subst n1 n2 n3. lia.
Qed.

Lemma packed_x1f n x : box_indices l1 !! n = Some x -> P3.1 n = x1f Real var x.
Proof.
  intros Hn. destruct packed_counts as (C1 & C2 & _).
  assert (n < n1)%nat as Hlt by (by eapply lookup_lt_Some).
  destruct (PackData_spec (x1f Real var) buf0 l1 0) as (_ & H1 & _).
  destruct (PackData_spec (x2f Real var) P1.1 l2 P1.2) as (_ & _ & H2).
  destruct (PackData_spec (x3f Real var) P2.1 l3 P2.2) as (_ & _ & H3).
  fold P1 in H1, H2. fold P2 in H2, H3. fold P3 in H3.
  rewrite H3 by lia. rewrite H2 by lia. by apply (H1 n x).
Qed.

Lemma packed_x2f n x : box_indices l2 !! n = Some x -> P3.1 (n1 + n)%nat = x2f Real var x.
Proof.
  intros Hn. destruct packed_counts as (C1 & C2 & _).
  assert (n < n2)%nat as Hlt by (by eapply lookup_lt_Some).
  destruct (PackData_spec (x2f Real var) P1.1 l2 P1.2) as (_ & H2 & _).
  destruct (PackData_spec (x3f Real var) P2.1 l3 P2.2) as (_ & _ & H3).
  fold P1 in H2. fold P2 in H2, H3. fold P3 in H3.
  rewrite H3 by lia. rewrite <- C1. by apply (H2 n x).
Qed.

Lemma packed_x3f n x :
  box_indices l3 !! n = Some x -> P3.1 (n1 + n2 + n)%nat = x3f Real var x.
Proof.
  intros Hn. destruct packed_counts as (C1 & C2 & _).
  destruct (PackData_spec (x3f Real var) P2.1 l3 P2.2) as (_ & H3 & _).
  fold P2 in H3. fold P3 in H3. rewrite <- C2. by apply (H3 n x).
Qed.

Let out := SetBoundarySameLevel Real NGHOST (cellbounds pmb) pmb P3.1 nb' var'.
Let U1 := UnpackData Real P3.1 (x1f Real var') s1 0.
Let U2 := UnpackData Real P3.1 (x2f Real var') s2 U1.2.
Let U3 := UnpackData Real P3.1 (x3f Real var') s3 U2.2.

Lemma unpacked_counts : U1.2 = n1 /\ U2.2 = (n1 + n2)%nat.
Proof.
  destruct (UnpackData_spec P3.1 (x1f Real var') s1 0) as (H1 & _).
  destruct (UnpackData_spec P3.1 (x2f Real var') s2 U1.2) as (H2 & _).
  fold U1 in H1, H2. fold U2 in H2.
  rewrite indices_1, length_fmap in H1. rewrite indices_2, length_fmap in H2.
  subst n1 n2. lia.
Qed.

Lemma unpacked_x1f x :
  x ∈ box_indices l1 -> U1.1 (to_receiver pmb nb x) = x1f Real var x.
Proof.
  intros Hx. apply list_elem_of_lookup in Hx as (n & Hn).
  destruct (UnpackData_spec P3.1 (x1f Real var') s1 0) as (_ & H1 & _). fold U1 in H1.
  rewrite (H1 n).
  - by apply packed_x1f.
  - rewrite indices_1, list_lookup_fmap, Hn. done.
Qed.

Lemma unpacked_x2f x :
  x ∈ box_indices l2 -> U2.1 (to_receiver pmb nb x) = x2f Real var x.
Proof.
  intros Hx. apply list_elem_of_lookup in Hx as (n & Hn).
  destruct unpacked_counts as (C1 & _).
  destruct (UnpackData_spec P3.1 (x2f Real var') s2 U1.2) as (_ & H2 & _). fold U2 in H2.
  rewrite (H2 n).
  - rewrite C1. by apply packed_x2f.
  - rewrite indices_2, list_lookup_fmap, Hn. done.
Qed.

Lemma unpacked_x3f x :
  x ∈ box_indices l3 -> U3.1 (to_receiver pmb nb x) = x3f Real var x.
Proof.
  intros Hx. apply list_elem_of_lookup in Hx as (n & Hn).
  destruct unpacked_counts as (_ & C2).
  destruct (UnpackData_spec P3.1 (x3f Real var') s3 U2.2) as (_ & H3 & _). fold U3 in H3.
  rewrite (H3 n).
  - rewrite C2. by apply packed_x3f.
  - rewrite indices_3, list_lookup_fmap, Hn. done.
Qed.

Lemma copy_x2f_plane_other (a : Array3D Real) (b : Box) (y : index3) :
  y.1.2 <> sj b + 1 -> copy_x2f_plane Real a b y = a y.
Proof.
  intros Hy. unfold copy_x2f_plane.
  destruct (copy_loop (fun i => (sk b, sj b, i)) (fun i => (sk b, sj b + 1, i))
              (range (si b) (ei b)) a) as [Hother _].
  - intros i1 i2 [=]. lia.
  - by intros i1 i2 [=].
  - apply Hother. intros i _ ->. by apply Hy.
Qed.

Lemma copy_x3f_plane_other (a : Array3D Real) (b : Box) (y : index3) :
  y.1.1 <> sk b + 1 -> copy_x3f_plane Real a b y = a y.
Proof.
  intros Hy. unfold copy_x3f_plane.
  destruct (copy_loop (fun ji : Z * Z => (sk b, ji.1, ji.2))
              (fun ji : Z * Z => (sk b + 1, ji.1, ji.2))
              (j ← range (sj b) (ej b); i ← range (si b) (ei b); [(j, i)]) a)
    as [Hother _].
  - intros i1 i2 [=]. lia.
  - intros [j1 i1] [j2 i2] [=]. by subst.
  - apply Hother. intros i _ ->. by apply Hy.
Qed.

(** On a block of axis-2 extent 1 the second box is the single plane
    [j = js], so the copy to [js + 1] does not touch it. *)
Lemma s2_single_plane : nx2 (block_size pmb) = 1 -> ej s2 = sj s2.
Proof.
  intros Hn. subst s2. offsets_cases. unfold set_bx2. cbn [sj ej].
  rewrite overlap_mirror. rewrite M2. rewrite (Hd2 Hn) in *.
  destruct (overlap pmb nb); repeat (case_decide; try lia).
Qed.

Lemma s3_single_plane : nx3 (block_size pmb) = 1 -> ek s3 = sk s3.
Proof.
  intros Hn. subst s3. offsets_cases. unfold set_bx3. cbn [sk ek].
  rewrite overlap_mirror. rewrite M3. rewrite (Hd3 Hn) in *.
  destruct (overlap pmb nb); repeat (case_decide; try lia).
Qed.

(** Packing on the sender and unpacking on the receiver, when the receiver
    reads the bounds of its own block: each component moves as many values
    as were packed, into the sender's indices displaced to the receiver, and
    every unpacked value is the sender's. *)
Lemma same_level_roundtrip :
  (box_indices s1 = to_receiver pmb nb <$> box_indices l1 /\
   box_indices s2 = to_receiver pmb nb <$> box_indices l2 /\
   box_indices s3 = to_receiver pmb nb <$> box_indices l3) /\
  (length (box_indices s1) = length (box_indices l1) /\
   length (box_indices s2) = length (box_indices l2) /\
   length (box_indices s3) = length (box_indices l3)) /\
  (forall x, x ∈ box_indices l1 -> x1f Real out (to_receiver pmb nb x) = x1f Real var x) /\
  (forall x, x ∈ box_indices l2 -> x2f Real out (to_receiver pmb nb x) = x2f Real var x) /\
  (forall x, x ∈ box_indices l3 -> x3f Real out (to_receiver pmb nb x) = x3f Real var x).
Proof.
  split; [by rewrite indices_1, indices_2, indices_3|].
  split; [by rewrite indices_1, indices_2, indices_3, !length_fmap|].
  destruct (SetBoundarySameLevel_fields NGHOST (cellbounds pmb) pmb P3.1 nb' var')
    as (E1 & E2 & E3).
  fold s1 s2 s3 U1 U2 U3 out in E1, E2, E3. rewrite E1, E2, E3.
  split; [apply unpacked_x1f|]. split.
  - intros x Hx. clear E1 E2 E3.
    destruct (decide (nx2 (block_size pmb) = 1)) as [Hn|Hn]; [|by apply unpacked_x2f].
    rewrite copy_x2f_plane_other; [by apply unpacked_x2f|].
    assert (to_receiver pmb nb x ∈ box_indices s2) as Hin
      by (rewrite indices_2; by apply list_elem_of_fmap_2).
    destruct (to_receiver pmb nb x) as [[k j] i].
    apply elem_of_box_indices in Hin as (_ & Hj & _).
    pose proof (s2_single_plane Hn). cbn [fst snd]. lia.
  - intros x Hx. clear E1 E2 E3.
    destruct (decide (nx3 (block_size pmb) = 1)) as [Hn|Hn]; [|by apply unpacked_x3f].
    rewrite copy_x3f_plane_other; [by apply unpacked_x3f|].
    assert (to_receiver pmb nb x ∈ box_indices s3) as Hin
      by (rewrite indices_3; by apply list_elem_of_fmap_2).
    destruct (to_receiver pmb nb x) as [[k j] i].
    apply elem_of_box_indices in Hin as (Hk & _ & _).
    pose proof (s3_single_plane Hn). cbn [fst snd]. lia.
Qed.
End RoundTrip.

(** C2, evaluated.  A 4 x 4 x 4 block with two ghost layers packs its
    upper axis-1 boundary: 32 values of [x1f].  The unpacking function does
    not read the bounds of the receiving block (its reference is bound to
    itself); with the bounds [stray_bounds] in their place it unpacks 2
    values of [x1f], and the receiver's ghost face [(2, 2, 0)], which
    corresponds to the sender's packed face [(2, 2, 4)], keeps its old
    value 0 instead of the sender's 1. *)
Theorem SetBoundarySameLevel_reads_unbound_cellbounds :
  let sent := LoadBoundaryBufferSameLevel Z 2 Examples.fc_block Examples.ones
                (fun _ => 0) Examples.fc_nb in
  let out := SetBoundarySameLevel Z 2 Examples.stray_bounds Examples.fc_block
               sent.1 Examples.fc_nb' Examples.zeros in
  mirror_relation Examples.fc_nb Examples.fc_nb' /\
  length (box_indices (load_bx1 2 Examples.fc_block Examples.fc_nb)) = 32%nat /\
  length (box_indices (set_bx1 2 Examples.stray_bounds Examples.fc_block Examples.fc_nb'))
    = 2%nat /\
  ((2, 2, 4) ∈ box_indices (load_bx1 2 Examples.fc_block Examples.fc_nb)) /\
  to_receiver Examples.fc_block Examples.fc_nb (2, 2, 4) = (2, 2, 0) /\
  x1f Z Examples.ones (2, 2, 4) = 1 /\
  x1f Z out (2, 2, 0) = 0.
Proof.
  intros sent out. split; [by repeat split|]. split; [by vm_compute|].
  split; [by vm_compute|]. split; [apply elem_of_box_indices; simpl; lia|].
  split; [by vm_compute|]. split; [done|]. by vm_compute.
Qed.

(** *** The columns the unpacking leaves alone *)

Section Columns.
Context {Real : Type}.
Variable NGHOST : Z.



End Columns.


(* ====================================================================== *)
(** * Further properties *)
(* ====================================================================== *)

(** ** More on the enumerator and the keys *)

(** X1.  [ForEachBoundary] runs its callback over the enumerated boundaries
    in order and returns at the first [break_out]: when the callback
    continues on the boundaries of [L1] and asks to stop on the next
    boundary [b], the loop returns the state of that call and the boundaries
    after [b] are not visited. *)
Theorem ForEachBoundary_stops_at_break {St : Type}
        (bound : BoundaryType) (my_rank : Z) (func : @callback St)
        (md : MeshData) (s s1 s2 : St) (L1 L2 : list boundary) (b : boundary) :
  enumerate bound my_rank md = L1 ++ b :: L2 ->
  run_until func s L1 = (s1, cont) ->
  func b.1.1.1 b.1.1.2 b.1.2 b.2 s1 = (s2, break_out) ->
  ForEachBoundary bound my_rank (func_caller func) md s = s2 /\
  forall md', enumerate bound my_rank md' = L1 ++ [b] ->
    ForEachBoundary bound my_rank (func_caller func) md' s = s2.
Proof.
  intros E H1 Hb. unfold func_caller.
  assert (forall L, run_until func s (L1 ++ b :: L) = (s2, break_out)) as H.
  { intros L. rewrite run_until_app, H1. simpl. by rewrite Hb. }
  split.
  - by rewrite ForEachBoundary_run, E, H.
  - intros md' E'. by rewrite ForEachBoundary_run, E', H.
Qed.

Lemma ForEachBoundary_stops_at_break_witness :
  ForEachBoundary any 0 (func_caller MoreExamples.stop_at_second)
    (Examples.md2 ++ Examples.md2) 0%nat = 2%nat.
Proof.
  refine (proj1 (ForEachBoundary_stops_at_break any 0 MoreExamples.stop_at_second
            (Examples.md2 ++ Examples.md2) 0%nat 1%nat 2%nat
            (take 1 (enumerate any 0 (Examples.md2 ++ Examples.md2)))
            (drop 2 (enumerate any 0 (Examples.md2 ++ Examples.md2)))
            (Examples.blockB, mkMBD Examples.blockB [Examples.rho],
             Examples.nbBA, Examples.rho) _ _ _)); reflexivity.
Defined.

(** X2.  A key determines the relation it was made from: for offsets in
    [{-1,0,1}], equal send keys (or equal receive keys) have the same block
    id, the same neighbour id, the same variable name and the same offset
    vector, so the 27 directions toward one neighbour get 27 distinct
    addresses. *)
Theorem keys_determine_relation
        (pmb pmb' : MeshBlock) (nb nb' : NeighborBlock) (v v' : CellVariable) :
  offsets_ok (ni nb) -> offsets_ok (ni nb') ->
  (SendKey pmb nb v = SendKey pmb' nb' v' \/ ReceiveKey pmb nb v = ReceiveKey pmb' nb' v') ->
  mb_gid pmb = mb_gid pmb' /\ gid (snb nb) = gid (snb nb') /\ label v = label v' /\
  ox1 (ni nb) = ox1 (ni nb') /\ ox2 (ni nb) = ox2 (ni nb') /\ ox3 (ni nb) = ox3 (ni nb').
Proof.
  intros (A1 & A2 & A3) (B1 & B2 & B3) H. unfold offset_ok in *.
  unfold SendKey, ReceiveKey in H. destruct H as [H|H]; injection H as E1 E2 E3 E4;
    repeat split; try done; lia.
Qed.

Lemma keys_determine_relation_witness :
  offsets_ok (ni Examples.nbAB) /\
  ox1 (ni Examples.nbAB) = ox1 (ni Examples.nbAB) /\
  (SendKey Examples.blockA Examples.nbAB Examples.rho
   = SendKey Examples.blockA (mkNB (mkSNB 0 0 1 1) (mkNI 1 1 0 0 0 edge)) Examples.rho ->
   False).
Proof.
  assert (offsets_ok (ni Examples.nbAB)) as O1 by (unfold offsets_ok, offset_ok; simpl; lia).
  assert (offsets_ok (ni (mkNB (mkSNB 0 0 1 1) (mkNI 1 1 0 0 0 edge)))) as O2
      by (unfold offsets_ok, offset_ok; simpl; lia).
  split; [exact O1|]. split.
  - exact (proj1 (proj2 (proj2 (proj2 (keys_determine_relation
             Examples.blockA Examples.blockA Examples.nbAB Examples.nbAB
             Examples.rho Examples.rho O1 O1 (or_introl eq_refl)))))).
  - intros H.
    pose proof (keys_determine_relation _ _ _ _ _ _ O1 O2 (or_introl H))
      as (_ & _ & _ & _ & E & _).
    simpl in E. lia.
Defined.

Import CheckedBuild.

(** ** The built cache and the channels *)

Section BuiltChannels.

(** The channels after the [std::for_each] of [BuildBufferCache]. *)
Lemma build_store_comm_lookup ko : forall st k,
  (foldl build_store st ko).1.1.1 !! k =
  match st.1.1.1 !! k with
  | Some cb => Some cb
  | None => if decide (k ∈ snd <$> ko) then Some default_buffer else None
  end.
Proof.
  induction ko as [|t ko IH]; intros [[[cm bv] iv] n] k; cbn [foldl fst snd].
  - destruct (cm !! k); [done|]. rewrite decide_False; [done|]. apply not_elem_of_nil.
  - rewrite IH. cbn [build_store fst snd fmap list_fmap]. unfold subscript.
    destruct (decide (k = t.2)) as [->|Hne].
    + destruct (cm !! t.2) eqn:E.
      * by rewrite E.
      * rewrite lookup_insert_eq. rewrite decide_True; [done|]. left.
    + assert ((match cm !! t.2 with Some _ => cm | None => <[t.2:=default_buffer]> cm end)
                !! k = cm !! k) as ->.
      { destruct (cm !! t.2); [done|]. by rewrite lookup_insert_ne. }
      destruct (cm !! k); [done|].
      destruct (decide (k ∈ snd <$> ko)) as [Hin|Hin].
      * rewrite decide_True; [done|]. by right.
      * rewrite decide_False; [done|]. rewrite not_elem_of_cons. done.
Qed.

Lemma key_order_keys (KeyFunc : MeshBlock -> NeighborBlock -> CellVariable -> key_t)
      (L : list boundary) n :
  snd <$> imap (fun i => entry_of KeyFunc (n + i)) L = key_of KeyFunc <$> L.
Proof.
  apply list_eq. intros i. rewrite !list_lookup_fmap, list_lookup_imap.
  by destruct (L !! i).
Qed.

End BuiltChannels.

(** X3.  After [BuildBufferCache], for any rearrangement made by the
    shuffle, the cache resolves every enumerated boundary to its own
    channel: for the [i]-th boundary of the enumeration,
    [buf_vec[idx_vec[i]]] is the channel of [KeyFunc] at that boundary. *)
Theorem BuildBufferCache_resolves_boundaries
        (bound : BoundaryType) (my_rank : Z)
        (KeyFunc : MeshBlock -> NeighborBlock -> CellVariable -> key_t)
        (shuffle : list order_entry -> list order_entry)
        (md : MeshData) (cm cm' : gmap key_t CommBuffer)
        (pbuf_vec : list key_t) (pidx_vec : list nat) :
  rearranges shuffle ->
  BuildBufferCache bound my_rank KeyFunc shuffle md cm = (cm', pbuf_vec, pidx_vec) ->
  forall (i : nat) (pmb : MeshBlock) (rc : MeshBlockData) (nb : NeighborBlock)
         (v : CellVariable),
    visited bound my_rank md !! i = Some (pmb, rc, nb, v) ->
    exists ibuf : nat,
      pidx_vec !! i = Some ibuf /\ pbuf_vec !! ibuf = Some (KeyFunc pmb nb v).
Proof.
  intros Hsh HB i pmb rc nb v Hi. rewrite visited_enumerate in Hi.
  rewrite BuildBufferCache_unfold in HB by done. injection HB as <- <- <-.
  destruct (built_coherent bound my_rank KeyFunc shuffle Hsh md cm [] [])
    as (_ & _ & _ & H).
  destruct (H i _ Hi) as (ibuf & H1 & H2). by exists ibuf.
Qed.

Lemma BuildBufferCache_resolves_boundaries_witness :
  let r := BuildBufferCache any 0 SendKey reverse Examples.md2 ∅ in
  exists ibuf : nat,
    r.2 !! 0%nat = Some ibuf /\ r.1.2 !! ibuf = Some Examples.keyAB.
Proof.
  intros r.
  refine (BuildBufferCache_resolves_boundaries any 0 SendKey reverse Examples.md2 ∅
            r.1.1 r.1.2 r.2 rearranges_reverse _ 0%nat Examples.blockA
            (mkMBD Examples.blockA [Examples.rho]) Examples.nbAB Examples.rho _).
  - subst r. by destruct (BuildBufferCache _ _ _ _ _ _) as [[? ?] ?].
  - reflexivity.
Defined.

Section CheckedBuildFacts.
Variable bound : BoundaryType.
Variable my_rank : Z.
Variable KeyFunc : MeshBlock -> NeighborBlock -> CellVariable -> key_t.
Variable cm : gmap key_t CommBuffer.

Lemma build_visit_checked_ended NDEBUG (L : list boundary) :
  foldl (apply_visit (build_visit_checked KeyFunc NDEBUG cm)) None L = None.
Proof. induction L as [|b L IH]; [done|]. exact IH. Qed.

(** With the check compiled in, the first loop ends the program at the
    first enumerated key without a channel; otherwise, and in a release
    build, it is the loop without the check. *)
Lemma build_visit_checked_fold NDEBUG (L : list boundary) : forall s,
  foldl (apply_visit (build_visit_checked KeyFunc NDEBUG cm)) (Some s) L
  = if decide (NDEBUG = true \/ Forall (fun b => is_Some (cm !! key_of KeyFunc b)) L)
    then Some (foldl (apply_visit (build_visit KeyFunc)) s L)
    else None.
Proof.
  induction L as [|b L IH]; intros s.
  - rewrite decide_True; [done|]. by right.
  - cbn [foldl]. destruct b as [[[pmb rc] nb] v].
    unfold apply_visit at 2. cbn [fst snd]. unfold build_visit_checked at 2.
    unfold PARTHENON_DEBUG_REQUIRE. destruct NDEBUG.
    + rewrite IH. rewrite !decide_True by (by left). done.
    + case_bool_decide as Hk.
      * rewrite IH. case_decide as HL.
        -- rewrite decide_True; [done|]. right. constructor; [exact Hk|].
           by destruct HL as [|HL].
        -- rewrite decide_False; [done|]. intros [|H]; [done|]. apply HL. right.
           by apply Forall_cons_1 in H as [_ ?].
      * rewrite build_visit_checked_ended. rewrite decide_False; [done|].
        intros [|H]; [done|]. apply Hk. by apply Forall_cons_1 in H as [? _].
Qed.
End CheckedBuildFacts.

(** X4.  [BuildBufferCache] with its debug check
    [PARTHENON_DEBUG_REQUIRE(comm_map->count(key) > 0)] compiled in runs to
    the end exactly when every enumerated key has a channel in the
    communicator map, and ends the program otherwise.  When it runs to the
    end it leaves the communicator map as it was and returns the cache of
    the build without the check; a release build is the build without the
    check. *)
Theorem BuildBufferCache_requires_channels
        (bound : BoundaryType) (my_rank : Z)
        (KeyFunc : MeshBlock -> NeighborBlock -> CellVariable -> key_t)
        (shuffle : list order_entry -> list order_entry)
        (md : MeshData) (cm : gmap key_t CommBuffer) :
  rearranges shuffle ->
  let checked := BuildBufferCache_checked bound my_rank KeyFunc shuffle false md cm in
  let unchecked := BuildBufferCache bound my_rank KeyFunc shuffle md cm in
  (is_Some checked <->
   forall b, b ∈ visited bound my_rank md -> is_Some (cm !! key_of KeyFunc b)) /\
  (forall r, checked = Some r -> r = unchecked /\ r.1.1 = cm) /\
  BuildBufferCache_checked bound my_rank KeyFunc shuffle true md cm = Some unchecked.
Proof.
  intros Hsh checked unchecked. subst checked unchecked.
  assert (forall NDEBUG,
    BuildBufferCache_checked bound my_rank KeyFunc shuffle NDEBUG md cm
    = if decide (NDEBUG = true \/
                 Forall (fun b => is_Some (cm !! key_of KeyFunc b))
                        (enumerate bound my_rank md))
      then Some (BuildBufferCache bound my_rank KeyFunc shuffle md cm) else None) as E.
  { intros NDEBUG. unfold BuildBufferCache_checked, BuildBufferCache.
    rewrite !ForEachBoundary_void, build_visit_checked_fold.
    case_decide; [|done].
    destruct (foldl (apply_visit (build_visit KeyFunc)) ([], 0%nat) _) as [ko n].
    by destruct (foldl build_store _ _) as [[[? ?] ?] ?]. }
  rewrite visited_enumerate. rewrite !E. rewrite <- Forall_forall. split; [|split].
  - case_decide as H.
    + split; [|by eexists]. intros _. by destruct H as [|H].
    + split; [by intros [? ?]|]. intros H'. exfalso. apply H. by right.
  - intros r Hr. case_decide as H; [|done]. injection Hr as <-. split; [done|].
    destruct H as [|H]; [done|]. rewrite Forall_forall in H.
    rewrite BuildBufferCache_unfold by done. cbn [fst snd].
    apply map_eq. intros k. rewrite build_store_comm_lookup. cbn [fst snd].
    destruct (cm !! k) eqn:Ek; [done|].
    rewrite decide_False; [done|]. intros Hin.
    rewrite (Hsh _) in Hin. rewrite (key_order_keys KeyFunc _ 0%nat) in Hin.
    apply list_elem_of_fmap in Hin as (b & -> & Hb).
    destruct (H b Hb) as [cb Hcb]. congruence.
  - rewrite decide_True by (by left). done.
Qed.

Lemma BuildBufferCache_requires_channels_witness :
  (exists r,
     BuildBufferCache_checked any 0 SendKey reverse false Examples.md2
       (comm_map Examples.comm_available) = Some r /\
     r.1.1 = comm_map Examples.comm_available) /\
  ~ is_Some (BuildBufferCache_checked any 0 SendKey reverse false Examples.md2 ∅).
Proof.
  split.
  - destruct (BuildBufferCache_requires_channels any 0 SendKey reverse Examples.md2
                (comm_map Examples.comm_available) rearranges_reverse) as (Hiff & Hr & _).
    cbv zeta in Hiff, Hr.
    assert (is_Some (BuildBufferCache_checked any 0 SendKey reverse false Examples.md2
                       (comm_map Examples.comm_available))) as [r E].
    { apply Hiff. intros b Hb. apply list_elem_of_lookup in Hb as (i & Hi).
      destruct i as [|[|i]]; vm_compute in Hi; [| |done]; injection Hi as <-;
        vm_compute; by eexists. }
    exists r. split; [exact E|]. by destruct (Hr r E).
  - destruct (BuildBufferCache_requires_channels any 0 SendKey reverse Examples.md2
                ∅ rearranges_reverse) as (Hiff & _ & _).
    cbv zeta in Hiff. intros H. pose proof (proj1 Hiff H) as H'.
    destruct (H' (Examples.blockA, mkMBD Examples.blockA [Examples.rho],
                 Examples.nbAB, Examples.rho)) as [cb Hcb].
    + apply list_elem_of_lookup. by exists 0%nat.
    + by rewrite lookup_empty in Hcb.
Defined.

Import CacheReadings.

(** ** Validation and rebuild over a coherent cache *)

Section CoherentCache.
Variable KeyFunc : MeshBlock -> NeighborBlock -> CellVariable -> key_t.

Local Arguments send_step : simpl never.
Local Arguments receive_step : simpl never.
Local Arguments rebuild_step : simpl never.

Lemma coherent_resolves L cache :
  coherent KeyFunc L cache -> resolves KeyFunc cache 0 L.
Proof. intros (_ & _ & _ & H). exact H. Qed.

(** The slots of a coherent cache are the numbers below the boundary
    count, each once. *)
Lemma coherent_slots L cache :
  coherent KeyFunc L cache -> idx_vec cache ≡ₚ seq 0 (length L).
Proof.
  intros (Hli & Hlb & Hnd & Hres).
  apply submseteq_length_Permutation.
  - apply NoDup_submseteq; [done|]. intros x Hx.
    apply list_elem_of_lookup in Hx as (i & Hi).
    assert (i < length L)%nat as Hlt by (rewrite <- Hli; by eapply lookup_lt_Some).
    destruct (lookup_lt_is_Some_2 L i Hlt) as [b Hb].
    destruct (Hres i b Hb) as (ibuf & H1 & H2). rewrite Hi in H1. injection H1 as <-.
    apply lookup_lt_Some in H2. apply elem_of_seq. lia.
  - rewrite length_seq. lia.
Qed.

(** The send-side verdict in terms of the channels as validation leaves
    them. *)
Lemma send_fold_rebuild cache (L : list boundary) : forall rb n unf h,
  resolves KeyFunc cache n L ->
  channels_present KeyFunc L h ->
  NoDup (key_of KeyFunc <$> L) ->
  exists r, foldl (send_step cache) (Some (rb, n, unf, h)) L = Some r /\
    (r.1.1.1 = false <->
     rb = false /\
     forall i b, L !! i = Some b -> recorded KeyFunc cache r.2 (n + i) b).
Proof.
  induction L as [|b L IH]; intros rb n unf h Hres Hpres Hnd.
  - exists (rb, n, unf, h). simpl. split; [done|]. split; [|by intros [? _]].
    intros ->. split; [done|]. intros i b Hi. done.
  - destruct (resolves_head _ _ _ _ _ Hres) as (ibuf & Hi & Hk).
    destruct (Hpres b) as [cb Hcb]; [left|].
    apply NoDup_cons in Hnd as [Hnotin Hnd].
    simpl. rewrite (send_step_eq _ _ _ _ _ _ _ _ _ Hi Hk Hcb).
    set (cb' := if IsAllocated b.2 then (Allocate cb (pool_next h)).1 else Free cb).
    set (h1 := mkComm (<[key_of KeyFunc b := cb']> (comm_map h))
                 (if IsAllocated b.2 then (Allocate cb (pool_next h)).2 else pool_next h)).
    set (rb1 := if decide (ibuf < length (bnd_info_h cache))%nat then
                  match bnd_info_h cache !! ibuf with
                  | Some bi => rb || negb (UsingSameResource (buf bi) (buffer cb'))
                  | None => true
                  end
                else true).
    set (unf1 := if negb (IsAvailableForWrite cb) then true else unf).
    assert (channels_present KeyFunc L h1) as Hpres1.
    { intros b' Hb'. unfold h1. simpl.
      destruct (decide (key_of KeyFunc b = key_of KeyFunc b')) as [->|Hne].
      - rewrite lookup_insert_eq. by eexists.
      - rewrite lookup_insert_ne by done. apply Hpres. by right. }
    pose proof (resolves_tail _ _ _ _ _ Hres) as Hres1.
    destruct (IH rb1 (S n) unf1 h1 Hres1 Hpres1 Hnd) as (r & Hr & Hiff).
    destruct (send_fold_defined KeyFunc cache L rb1 (S n) unf1 h1 Hres1 Hpres1)
      as (r' & Hr' & _ & Hframe & _).
    rewrite Hr in Hr'. injection Hr' as <-.
    exists r. split; [done|]. rewrite Hiff.
    assert (comm_map r.2 !! key_of KeyFunc b = Some cb') as Hfin.
    { rewrite Hframe by done. unfold h1. simpl. apply lookup_insert_eq. }
    assert (rb1 = false <-> rb = false /\ recorded KeyFunc cache r.2 n b) as Hrb1.
    { unfold rb1, recorded. split.
      - intros H. destruct (decide (ibuf < length (bnd_info_h cache))%nat); [|done].
        destruct (bnd_info_h cache !! ibuf) as [bi|] eqn:Hbi; [|done].
        apply orb_false_iff in H as [-> H]. split; [done|].
        exists ibuf, bi, cb'. repeat split; try done.
        unfold UsingSameResource in H. apply negb_false_iff in H.
        by apply bool_decide_eq_true in H.
      - intros (-> & ibuf' & bi & cb'' & Hi' & Hbi & Hc & Hb).
        rewrite Hi in Hi'. injection Hi' as <-. rewrite Hfin in Hc. injection Hc as <-.
        rewrite decide_True by (by eapply lookup_lt_Some). rewrite Hbi. simpl.
        unfold UsingSameResource. by rewrite bool_decide_eq_true_2. }
    rewrite Hrb1. split.
    + intros [[-> H0] HL]. split; [done|]. intros [|i] b' Hb'; simpl in Hb'.
      * injection Hb' as <-. by rewrite Nat.add_0_r.
      * replace (n + S i)%nat with (S n + i)%nat by lia. by apply HL.
    + intros [-> H]. split; [split; [done|]|].
      * specialize (H 0%nat b eq_refl). by rewrite Nat.add_0_r in H.
      * intros i b' Hb'. replace (S n + i)%nat with (n + S i)%nat by lia. by apply H.
Qed.

(** Receive-side validation over a cache that resolves the enumeration,
    on channels that exist, is defined. *)
Lemma receive_fold_defined cache h (L : list boundary) : forall rb n,
  resolves KeyFunc cache n L ->
  channels_present KeyFunc L h ->
  exists rb', foldl (receive_step cache h) (Some (rb, n)) L = Some (rb', (n + length L)%nat).
Proof.
  induction L as [|b L IH]; intros rb n Hres Hpres.
  - exists rb. simpl. by rewrite Nat.add_0_r.
  - destruct (resolves_head _ _ _ _ _ Hres) as (ibuf & Hi & Hk).
    destruct (Hpres b) as [cb Hcb]; [left|].
    assert (receive_step cache h (Some (rb, n)) b
            = Some (slot_verdict cache rb ibuf cb, S n)) as E.
    { unfold receive_step, apply_visit, check_receive_visit. simpl.
      rewrite Hi. simpl. rewrite Hk. simpl. by rewrite Hcb. }
    simpl. rewrite E.
    destruct (IH (slot_verdict cache rb ibuf cb) (S n)) as (rb' & Hrb').
    + by eapply resolves_tail.
    + intros b' Hb'. apply Hpres. by right.
    + exists rb'. rewrite Hrb'. simpl. do 2 f_equal. lia.
Qed.

Variable BndInfoCreator : F_BND_INFO.
Variable h : Comm.

(** The rebuild loop stops being defined at the first boundary whose slot
    lies beyond the descriptors. *)
Lemma rebuild_fold_overrun (L : list boundary) : forall c n i ibuf,
  (i < length L)%nat ->
  idx_vec c !! (n + i)%nat = Some ibuf ->
  (length (bnd_info_h c) <= ibuf)%nat ->
  foldl (rebuild_step BndInfoCreator h) (Some (c, n)) L = None.
Proof.
  induction L as [|b L IH]; intros c n i ibuf Hlt Hi Hge; simpl in *; [lia|].
  destruct (rebuild_step BndInfoCreator h (Some (c, n)) b) as [[c1 n1]|] eqn:E;
    [|apply rebuild_fold_None].
  unfold rebuild_step, apply_visit, rebuild_visit in E. simpl in E.
  destruct (idx_vec c !! n) as [ibuf0|] eqn:E1; simpl in E; [|done].
  destruct (buf_vec c !! ibuf0) as [key|] eqn:E2; simpl in E; [|done].
  destruct (decide (ibuf0 < length (bnd_info_h c))%nat) as [Hlt0|]; [|done].
  injection E as <- <-. destruct i as [|i].
  - rewrite Nat.add_0_r, E1 in Hi. injection Hi as ->. lia.
  - apply (IH _ (S n) i ibuf); cbn [idx_vec bnd_info_h]; [lia| |by rewrite length_insert].
    by replace (S n + i)%nat with (n + S i)%nat by lia.
Qed.

(** The rebuild loop over descriptors that reach every slot. *)
Lemma rebuild_fold_le (L : list boundary) : forall c n,
  resolves KeyFunc c n L ->
  (length (buf_vec c) <= length (bnd_info_h c))%nat ->
  exists c', foldl (rebuild_step BndInfoCreator h) (Some (c, n)) L
             = Some (c', (n + length L)%nat) /\
    buf_vec c' = buf_vec c /\ idx_vec c' = idx_vec c /\ bnd_info c' = bnd_info c /\
    length (bnd_info_h c') = length (bnd_info_h c) /\
    (forall j, (forall i, (i < length L)%nat -> idx_vec c !! (n + i)%nat <> Some j) ->
               bnd_info_h c' !! j = bnd_info_h c !! j) /\
    (NoDup (idx_vec c) -> forall i b, L !! i = Some b ->
       exists ibuf, idx_vec c !! (n + i)%nat = Some ibuf /\
         bnd_info_h c' !! ibuf =
         Some (BndInfoCreator b.1.1.1 b.1.2 b.2 (key_of KeyFunc b) (comm_map h))).
Proof.
  induction L as [|b L IH]; intros c n Hres Hlen.
  - exists c. simpl. rewrite Nat.add_0_r. repeat split; try done.
  - destruct (resolves_head _ _ _ _ _ Hres) as (ibuf & Hi & Hk).
    assert (ibuf < length (bnd_info_h c))%nat as Hlt.
    { apply lookup_lt_Some in Hk. lia. }
    simpl. rewrite (rebuild_step_eq KeyFunc _ _ _ _ _ _ Hi Hk Hlt).
    match goal with
    | |- context [foldl _ (Some (?c1, _)) L] =>
        destruct (IH c1 (S n)) as (c' & Hc' & Hb & Hx & Hbi & Hl & Hother & Hrec)
    end.
    + apply resolves_tail in Hres. exact Hres.
    + simpl. by rewrite length_insert.
    + simpl in *. exists c'. split; [rewrite Hc'; do 3 f_equal; lia|].
      rewrite length_insert in Hl. repeat split; try done.
      * intros j Hj. rewrite Hother.
        -- apply list_lookup_insert_ne. intros ->. apply (Hj 0%nat); [lia|].
           by rewrite Nat.add_0_r.
        -- intros i Hlt'. replace (S (n + i))%nat with (n + S i)%nat by lia.
           apply Hj. lia.
      * intros Hnd i b' Hb'. destruct i as [|i]; simpl in Hb'.
        -- simplify_eq. exists ibuf. rewrite Nat.add_0_r. split; [done|].
           rewrite Hother; [by apply list_lookup_insert_eq|].
           intros i Hlt' Hi'. apply (NoDup_lookup _ _ _ _ Hnd Hi) in Hi'. lia.
        -- destruct (Hrec Hnd i b' Hb') as (ibuf' & H1 & H2). exists ibuf'.
           by replace (n + S i)%nat with (S (n + i))%nat by lia.
Qed.
End CoherentCache.

(** The built cache of the two-block mesh is coherent, and its channels
    exist under distinct keys. *)
Lemma built_any_coherent (sender : bool) :
  coherent SendKey (visited any 0 Examples.md2)
           (GetSubCache (Examples.built_any sender) any sender).
Proof.
  unfold Examples.built_any. rewrite GetSubCache_SetSubCache.
  split; [reflexivity|]. split; [reflexivity|]. split.
  - refine (bool_decide_unpack (NoDup [0; 1]%nat) _). vm_compute. exact I.
  - intros i b Hi. destruct i as [|[|i]]; vm_compute in Hi; [| |done].
    + injection Hi as <-. exists 0%nat. split; reflexivity.
    + injection Hi as <-. exists 1%nat. split; reflexivity.
Defined.

Lemma md2_keys_NoDup : NoDup (key_of SendKey <$> visited any 0 Examples.md2).
Proof.
  refine (bool_decide_unpack (NoDup (key_of SendKey <$> visited any 0 Examples.md2)) _).
  vm_compute. exact I.
Defined.

Lemma md2_channels_present :
  channels_present SendKey (visited any 0 Examples.md2) Examples.comm_available.
Proof.
  intros b Hb. apply list_elem_of_lookup in Hb as (i & Hi).
  destruct i as [|[|i]]; vm_compute in Hi; [| |done]; injection Hi as <-;
    vm_compute; by eexists.
Defined.

(** X5.  Send-side validation over a coherent cache whose channels exist
    under distinct keys is defined and counts every enumerated boundary.
    It leaves the channel of each enumerated boundary holding storage
    exactly when the boundary's variable is allocated, touches no channel
    outside the enumeration, and changes no channel's state. *)
Theorem CheckSend_settles_channels
        (BOUND : BoundaryType) (SENDER : bool) (my_rank : Z)
        (KeyFunc : MeshBlock -> NeighborBlock -> CellVariable -> key_t)
        (md : MeshData) (bvars : BvarsCache_t) (h : Comm) :
  let L := visited BOUND my_rank md in
  coherent KeyFunc L (GetSubCache bvars BOUND SENDER) ->
  channels_present KeyFunc L h ->
  NoDup (key_of KeyFunc <$> L) ->
  exists rb unf h',
    CheckSendBufferCacheForRebuild BOUND SENDER my_rank md bvars h
      = Some (rb, length L, unf, h') /\
    (forall b, b ∈ L -> settled KeyFunc h' b) /\
    (forall k, k ∉ key_of KeyFunc <$> L -> comm_map h' !! k = comm_map h !! k) /\
    (forall k, GetState <$> comm_map h' !! k = GetState <$> comm_map h !! k).
Proof.
  intros L Hco Hpres Hnd. unfold L in *. rewrite visited_enumerate in *.
  destruct (send_fold_defined KeyFunc _ _ false 0%nat false h (coherent_resolves _ _ _ Hco) Hpres)
    as ([[[rb n] unf] h'] & Hr & Hn & Hframe & _ & Hset).
  cbn [fst snd] in Hn, Hframe, Hset. subst n.
  exists rb, unf, h'. rewrite CheckSend_unfold. split; [exact Hr|].
  split; [by apply Hset|]. split; [exact Hframe|].
  apply send_fold_unfinished in Hr as [_ Hst]. exact Hst.
Qed.

Lemma CheckSend_settles_channels_witness :
  exists rb unf h',
    CheckSendBufferCacheForRebuild any true 0 Examples.md2
      (Examples.built_any true) Examples.comm_available
      = Some (rb, length (visited any 0 Examples.md2), unf, h') /\
    (forall b, b ∈ visited any 0 Examples.md2 -> settled SendKey h' b) /\
    (forall k, k ∉ key_of SendKey <$> visited any 0 Examples.md2 ->
               comm_map h' !! k = comm_map Examples.comm_available !! k) /\
    (forall k, GetState <$> comm_map h' !! k
               = GetState <$> comm_map Examples.comm_available !! k).
Proof.
  exact (CheckSend_settles_channels any true 0 SendKey Examples.md2
           (Examples.built_any true) Examples.comm_available
           (built_any_coherent true) md2_channels_present md2_keys_NoDup).
Defined.

(** X6.  Under the same conditions send-side validation returns
    [needs_rebuild = false] exactly when, for every enumerated boundary,
    the slot of the boundary has a descriptor and that descriptor holds the
    storage resource the boundary's channel has after the validation. *)
Theorem CheckSend_rebuild_iff
        (BOUND : BoundaryType) (SENDER : bool) (my_rank : Z)
        (KeyFunc : MeshBlock -> NeighborBlock -> CellVariable -> key_t)
        (md : MeshData) (bvars : BvarsCache_t) (h : Comm) :
  let L := visited BOUND my_rank md in
  let cache := GetSubCache bvars BOUND SENDER in
  coherent KeyFunc L cache ->
  channels_present KeyFunc L h ->
  NoDup (key_of KeyFunc <$> L) ->
  exists rb n unf h',
    CheckSendBufferCacheForRebuild BOUND SENDER my_rank md bvars h = Some (rb, n, unf, h') /\
    (rb = false <-> forall i b, L !! i = Some b -> recorded KeyFunc cache h' i b).
Proof.
  intros L cache Hco Hpres Hnd. unfold L, cache in *. rewrite visited_enumerate in *.
  destruct (send_fold_rebuild KeyFunc _ _ false 0%nat false h
              (coherent_resolves _ _ _ Hco) Hpres Hnd)
    as ([[[rb n] unf] h'] & Hr & Hiff).
  cbn [fst snd] in Hiff.
  exists rb, n, unf, h'. rewrite CheckSend_unfold. split; [exact Hr|].
  rewrite Hiff. split; [by intros [_ ?]|by split].
Qed.

Lemma CheckSend_rebuild_iff_witness :
  exists rb n unf h',
    CheckSendBufferCacheForRebuild any true 0 Examples.md2
      (Examples.built_any true) Examples.comm_available = Some (rb, n, unf, h') /\
    (rb = false <->
     forall i b, visited any 0 Examples.md2 !! i = Some b ->
       recorded SendKey (GetSubCache (Examples.built_any true) any true) h' i b).
Proof.
  exact (CheckSend_rebuild_iff any true 0 SendKey Examples.md2
           (Examples.built_any true) Examples.comm_available
           (built_any_coherent true) md2_channels_present md2_keys_NoDup).
Defined.

(** X7.  For the flux-correction receive subset, receive-side validation
    over a coherent cache whose channels exist is defined, counts every
    enumerated boundary, and returns [needs_rebuild = true] exactly when
    some enumerated position is stale. *)
Theorem CheckReceive_flxcor_recv_defined
        (SENDER : bool) (my_rank : Z)
        (KeyFunc : MeshBlock -> NeighborBlock -> CellVariable -> key_t)
        (md : MeshData) (bvars : BvarsCache_t) (h : Comm) :
  let L := visited flxcor_recv my_rank md in
  let cache := GetSubCache bvars flxcor_recv SENDER in
  coherent KeyFunc L cache ->
  channels_present KeyFunc L h ->
  exists rb,
    CheckReceiveBufferCacheForRebuild flxcor_recv SENDER my_rank md bvars h
      = Some (rb, length L) /\
    (rb = true <-> exists i, (i < length L)%nat /\ stale cache h i).
Proof.
  intros L cache Hco Hpres. unfold L, cache in *. rewrite visited_enumerate in *.
  destruct (receive_fold_defined KeyFunc _ h _ false 0%nat
              (coherent_resolves _ _ _ Hco) Hpres) as (rb & Hr).
  exists rb. rewrite CheckReceive_unfold. split; [exact Hr|].
  apply receive_fold_rebuild in Hr. simpl in Hr. rewrite Hr.
  split; [intros [?|?]; done|by right].
Qed.

Lemma CheckReceive_flxcor_recv_defined_witness :
  exists rb,
    CheckReceiveBufferCacheForRebuild flxcor_recv false 0 MoreExamples.md_fine
      MoreExamples.cache_flx MoreExamples.comm_flx
      = Some (rb, length (visited flxcor_recv 0 MoreExamples.md_fine)) /\
    (rb = true <->
     exists i, (i < length (visited flxcor_recv 0 MoreExamples.md_fine))%nat /\
               stale (GetSubCache MoreExamples.cache_flx flxcor_recv false)
                     MoreExamples.comm_flx i).
Proof.
  apply (CheckReceive_flxcor_recv_defined false 0 ReceiveKey MoreExamples.md_fine
           MoreExamples.cache_flx MoreExamples.comm_flx).
  - unfold MoreExamples.cache_flx. rewrite GetSubCache_SetSubCache.
    split; [reflexivity|]. split; [reflexivity|]. split.
    + refine (bool_decide_unpack (NoDup [0%nat]) _). vm_compute. exact I.
    + intros i b Hi. destruct i as [|i]; vm_compute in Hi; [|done].
      injection Hi as <-. exists 0%nat. split; reflexivity.
  - intros b Hb. apply list_elem_of_lookup in Hb as (i & Hi).
    destruct i as [|i]; vm_compute in Hi; [|done]. injection Hi as <-.
    vm_compute. by eexists.
Defined.

(** X8.  [RebuildBufferCache] over a coherent cache, for a descriptor count
    that reaches the boundary count, is defined.  It keeps the channel
    pointers and the remap vector, makes [bnd_info] and [bnd_info_h] the
    same vector of [nbound] descriptors, writes into the slot of every
    enumerated boundary the factory's descriptor for that boundary, leaves
    the slots past the boundary count default-constructed, and leaves the
    sub-caches of the other subsets alone. *)
Theorem RebuildBufferCache_records
        (BOUND : BoundaryType) (SENDER : bool) (my_rank : Z)
        (KeyFunc : MeshBlock -> NeighborBlock -> CellVariable -> key_t)
        (BndInfoCreator : F_BND_INFO)
        (md : MeshData) (nbound : nat) (bvars : BvarsCache_t) (h : Comm) :
  let L := visited BOUND my_rank md in
  let cache := GetSubCache bvars BOUND SENDER in
  coherent KeyFunc L cache ->
  (length L <= nbound)%nat ->
  exists bvars1,
    RebuildBufferCache BOUND SENDER my_rank md nbound BndInfoCreator bvars h = Some bvars1 /\
    let cache1 := GetSubCache bvars1 BOUND SENDER in
    buf_vec cache1 = buf_vec cache /\
    idx_vec cache1 = idx_vec cache /\
    bnd_info cache1 = bnd_info_h cache1 /\
    length (bnd_info_h cache1) = nbound /\
    (forall i pmb rc nb v, L !! i = Some (pmb, rc, nb, v) ->
       exists ibuf, idx_vec cache !! i = Some ibuf /\
         bnd_info_h cache1 !! ibuf
         = Some (BndInfoCreator pmb nb v (KeyFunc pmb nb v) (comm_map h))) /\
    (forall j, (length L <= j < nbound)%nat ->
       bnd_info_h cache1 !! j = Some default_BndInfo) /\
    (forall B S, ~ (B = BOUND /\ S = SENDER) ->
       GetSubCache bvars1 B S = GetSubCache bvars B S).
Proof.
  intros L cache Hco Hle. unfold L in *. rewrite visited_enumerate in *.
  pose proof (coherent_slots _ _ _ Hco) as Hperm.
  destruct Hco as (Hli & Hlb & Hndi & Hres).
  set (cacheR := mkSubCache (buf_vec cache) (idx_vec cache)
                   (replicate nbound default_BndInfo)
                   (replicate (length (replicate nbound default_BndInfo)) default_BndInfo)).
  destruct (rebuild_fold_le KeyFunc BndInfoCreator h (enumerate BOUND my_rank md) cacheR 0%nat)
    as (c' & Hc' & Hbv & Hiv & _ & Hlen & Hother & Hwritten).
  { exact Hres. }
  { unfold cacheR. cbn [buf_vec bnd_info_h]. rewrite !length_replicate. lia. }
  specialize (Hwritten Hndi).
  eexists. split.
  { rewrite Rebuild_unfold. cbv zeta. fold cache. fold cacheR. rewrite Hc'. reflexivity. }
  cbv zeta. rewrite GetSubCache_SetSubCache. cbn [buf_vec idx_vec bnd_info bnd_info_h fst].
  split; [by rewrite Hbv|]. split; [by rewrite Hiv|]. split; [done|].
  split; [rewrite Hlen; unfold cacheR; cbn [bnd_info_h]; by rewrite !length_replicate|].
  split; [|split].
  - intros i pmb rc nb v Hi. destruct (Hwritten i _ Hi) as (ibuf & H1 & H2).
    exists ibuf. split; [exact H1|exact H2].
  - intros j [Hj1 Hj2]. rewrite Hother.
    + unfold cacheR. cbn [bnd_info_h]. apply lookup_replicate_2.
      rewrite length_replicate. lia.
    + intros i Hi Hij. cbn [idx_vec cacheR] in Hij.
      assert (j ∈ idx_vec cache) as Hin by (apply list_elem_of_lookup; by exists i).
      rewrite Hperm in Hin. apply elem_of_seq in Hin. lia.
  - intros B S Hne. unfold GetSubCache, SetSubCache. by rewrite decide_False.
Qed.

Lemma RebuildBufferCache_records_witness :
  exists bvars1,
    RebuildBufferCache any true 0 Examples.md2 3 Examples.record_info
      (Examples.built_any true) Examples.comm_available = Some bvars1 /\
    length (bnd_info_h (GetSubCache bvars1 any true)) = 3%nat /\
    bnd_info_h (GetSubCache bvars1 any true) !! 2%nat = Some default_BndInfo.
Proof.
  destruct (RebuildBufferCache_records any true 0 SendKey Examples.record_info
              Examples.md2 3 (Examples.built_any true) Examples.comm_available
              (built_any_coherent true))
    as (bvars1 & H1 & _ & _ & _ & H2 & _ & H3 & _).
  { vm_compute. lia. }
  exists bvars1. split; [exact H1|]. split; [exact H2|].
  apply H3. vm_compute. lia.
Defined.

(** X9.  [RebuildBufferCache] writes the descriptor slots without a bounds
    check: over a coherent cache it has a defined result exactly when the
    descriptor count [nbound] it is given reaches the number of enumerated
    boundaries. *)
Theorem RebuildBufferCache_defined_iff
        (BOUND : BoundaryType) (SENDER : bool) (my_rank : Z)
        (KeyFunc : MeshBlock -> NeighborBlock -> CellVariable -> key_t)
        (BndInfoCreator : F_BND_INFO)
        (md : MeshData) (nbound : nat) (bvars : BvarsCache_t) (h : Comm) :
  coherent KeyFunc (visited BOUND my_rank md) (GetSubCache bvars BOUND SENDER) ->
  (is_Some (RebuildBufferCache BOUND SENDER my_rank md nbound BndInfoCreator bvars h)
   <-> (length (visited BOUND my_rank md) <= nbound)%nat).
Proof.
  intros Hco. split.
  - intros [bvars1 H].
    destruct (decide (length (visited BOUND my_rank md) <= nbound)%nat) as [|Hgt]; [done|].
    exfalso. rewrite visited_enumerate in *.
    pose proof (coherent_slots _ _ _ Hco) as Hperm.
    assert (nbound ∈ idx_vec (GetSubCache bvars BOUND SENDER)) as Hin.
    { rewrite Hperm. apply elem_of_seq. lia. }
    apply list_elem_of_lookup in Hin as (i & Hi).
    destruct Hco as (Hli & _).
    rewrite Rebuild_unfold in H. cbv zeta in H.
    rewrite (rebuild_fold_overrun BndInfoCreator h _ _ 0%nat i nbound) in H; [done| | |].
    + rewrite <- Hli. by eapply lookup_lt_Some.
    + exact Hi.
    + cbn [bnd_info_h]. by rewrite !length_replicate.
  - intros Hle. rewrite visited_enumerate in *. destruct Hco as (_ & Hlb & _ & Hres).
    rewrite Rebuild_unfold. cbv zeta.
    match goal with
    | |- context [foldl _ (Some (?c, _)) _] =>
        destruct (rebuild_fold_le KeyFunc BndInfoCreator h (enumerate BOUND my_rank md) c 0%nat)
          as (c' & Hc' & _)
    end.
    + exact Hres.
    + cbn [buf_vec bnd_info_h]. rewrite !length_replicate. lia.
    + rewrite Hc'. by eexists.
Qed.

Lemma RebuildBufferCache_defined_iff_witness :
  is_Some (RebuildBufferCache any true 0 Examples.md2 2 Examples.record_info
             (Examples.built_any true) Examples.comm_available) /\
  RebuildBufferCache any true 0 Examples.md2 1 Examples.record_info
    (Examples.built_any true) Examples.comm_available = None.
Proof.
  split.
  - apply (RebuildBufferCache_defined_iff any true 0 SendKey Examples.record_info
             Examples.md2 2 (Examples.built_any true) Examples.comm_available
             (built_any_coherent true)).
    vm_compute. lia.
  - apply eq_None_not_Some. intros H.
    apply (RebuildBufferCache_defined_iff any true 0 SendKey Examples.record_info
             Examples.md2 1 (Examples.built_any true) Examples.comm_available
             (built_any_coherent true)) in H.
    vm_compute in H. lia.
Defined.

Import FineEdges.

(** ** Fine edges *)

Section FineEdgeFacts.
Variable mylevel : Z.

Lemma count_position_step nf fl l :
  count_position (nf, fl) l =
  if decide (l > fl) then (if decide (l = fl + 1) then 1 else 0, fl + 1)
  else (if decide (l = fl) then nf + 1 else nf, fl).
Proof. unfold count_position. repeat case_decide; try done; lia. Qed.

Lemma count_position_level (ls : list Z) : forall nf fl,
  mylevel <= fl ->
  (foldl count_position (nf, fl) ls).2 = mylevel <->
  fl = mylevel /\ Forall (fun l => l <= mylevel) ls.
Proof.
  induction ls as [|l ls IH]; intros nf fl Hfl; cbn [foldl].
  - simpl. split; [intros ->; by split|by intros [-> _]].
  - rewrite count_position_step. destruct (decide (l > fl)) as [Hgt|Hle].
    + rewrite IH by lia.
      split; [lia|]. intros [-> H]. apply Forall_cons in H as [H _]. lia.
    + rewrite IH by lia.
      rewrite Forall_cons. split; [intros [-> H]|intros [-> [? H]]]; repeat split; try done; lia.
Qed.

Lemma count_position_fine (ls : list Z) : forall nf,
  Forall (fun l => l <= mylevel + 1) ls ->
  foldl count_position (nf, mylevel + 1) ls = (nf + on_level (mylevel + 1) ls, mylevel + 1).
Proof.
  unfold on_level.
  induction ls as [|l ls IH]; intros nf H; cbn [foldl].
  - simpl. f_equal. lia.
  - apply Forall_cons in H as [Hl H]. rewrite count_position_step.
    rewrite (decide_False (P := l > mylevel + 1)) by lia.
    destruct (decide (l = mylevel + 1)) as [->|Hne].
    + rewrite IH by done. rewrite filter_cons_True by done. simpl length. f_equal. lia.
    + rewrite IH by done. by rewrite filter_cons_False by done.
Qed.

Lemma count_position_same (ls : list Z) : forall nf,
  Forall (fun l => l <= mylevel + 1) ls ->
  foldl count_position (nf, mylevel) ls =
  if decide (Forall (fun l => l <= mylevel) ls)
  then (nf + on_level mylevel ls, mylevel)
  else (on_level (mylevel + 1) ls, mylevel + 1).
Proof.
  induction ls as [|l ls IH]; intros nf H.
  - cbn [foldl]. rewrite decide_True by constructor. unfold on_level. simpl. f_equal. lia.
  - apply Forall_cons in H as [Hl H]. cbn [foldl]. rewrite count_position_step.
    destruct (decide (l > mylevel)) as [Hgt|Hle].
    + assert (l = mylevel + 1) as -> by lia.
      rewrite (decide_True (P := mylevel + 1 = mylevel + 1)) by done.
      rewrite count_position_fine by done.
      rewrite (decide_False (P := Forall _ (_ :: _)))
        by (intros HF; apply Forall_cons in HF as [? _]; lia).
      unfold on_level. rewrite filter_cons_True by done. simpl length. f_equal. lia.
    + rewrite IH by done. unfold on_level.
      destruct (decide (Forall (fun l => l <= mylevel) ls)) as [HF|HF].
      * rewrite (decide_True (P := Forall _ (_ :: _)))
          by (apply Forall_cons; split; [lia|done]).
        destruct (decide (l = mylevel)) as [->|Hne].
        -- rewrite filter_cons_True by done. simpl length. f_equal. lia.
        -- by rewrite filter_cons_False by done.
      * rewrite (decide_False (P := Forall _ (_ :: _)))
          by (intros HF'; apply Forall_cons in HF' as [_ ?]; done).
        by rewrite filter_cons_False by lia.
Qed.

Lemma around_lower : around (-1) = [-1; 0].
Proof. reflexivity. Qed.

Lemma around_upper : around 1 = [0; 1].
Proof. reflexivity. Qed.

(** The levels a nest reads around an edge are those of the four positions
    around it. *)
Lemma nest_levels (level_at : Z -> Z -> Z) (oa ob : Z) :
  oa ∈ sides -> ob ∈ sides ->
  (nb ← around ob; na ← around oa; [level_at nb na]) ≡ₚ edge_levels level_at oa ob.
Proof.
  unfold sides. rewrite !elem_of_cons, !elem_of_nil.
  intros [->|[->|[]]] [->|[->|[]]]; rewrite ?around_lower, ?around_upper;
    unfold edge_levels; simpl; solve_Permutation.
Qed.

(** What one nest leaves behind: four entries from [n] on, the others as
    they were. *)
Lemma edge_nest_spec (level_at : Z -> Z -> Z) (ec : EdgeCounts) (n : nat) :
  let st := edge_nest mylevel level_at (ec, n) in
  st.2 = (n + 4)%nat /\
  (forall oa ob, oa ∈ sides -> ob ∈ sides ->
     let r := foldl count_position (0, mylevel)
                (nb ← around ob; na ← around oa; [level_at nb na]) in
     edge_flag_ st.1 (n + edge_in_nest oa ob) = bool_decide (r.2 = mylevel) /\
     nedge_fine_ st.1 (n + edge_in_nest oa ob) = r.1) /\
  (forall e, (e < n \/ n + 4 <= e)%nat ->
     edge_flag_ st.1 e = edge_flag_ ec e /\ nedge_fine_ st.1 e = nedge_fine_ ec e).
Proof.
  unfold edge_nest, sides. cbn [foldl]. unfold store_edge.
  cbn [fst snd edge_flag_ nedge_fine_]. split; [lia|]. split.
  - intros oa ob. rewrite !elem_of_cons, !elem_of_nil.
    intros [->|[->|[]]] [->|[->|[]]];
      [change (edge_in_nest (-1) (-1)) with 0%nat|change (edge_in_nest (-1) 1) with 2%nat
      |change (edge_in_nest 1 (-1)) with 1%nat|change (edge_in_nest 1 1) with 3%nat];
      rewrite ?Nat.add_0_r.
    + rewrite !(fn_lookup_insert_ne _ (S _) n) by lia. by rewrite !fn_lookup_insert.
    + replace (n + 2)%nat with (S (S n)) by lia.
      rewrite !(fn_lookup_insert_ne _ (S (S (S n))) (S (S n))) by lia.
      by rewrite !fn_lookup_insert.
    + replace (n + 1)%nat with (S n) by lia.
      rewrite !(fn_lookup_insert_ne _ (S (S (S n))) (S n)) by lia.
      rewrite !(fn_lookup_insert_ne _ (S (S n)) (S n)) by lia.
      by rewrite !fn_lookup_insert.
    + replace (n + 3)%nat with (S (S (S n))) by lia.
      by rewrite !fn_lookup_insert.
  - intros e He. by rewrite !fn_lookup_insert_ne by lia.
Qed.

(** The entry of an edge in terms of the four positions around it. *)
Lemma edge_nest_result (level_at : Z -> Z -> Z) (ec : EdgeCounts) (n : nat) (oa ob : Z) :
  oa ∈ sides -> ob ∈ sides ->
  let st := edge_nest mylevel level_at (ec, n) in
  let ls := edge_levels level_at oa ob in
  let e := (n + edge_in_nest oa ob)%nat in
  (edge_flag_ st.1 e = true <-> Forall (fun l => l <= mylevel) ls) /\
  (Forall (fun l => l <= mylevel + 1) ls ->
   nedge_fine_ st.1 e = on_level (if edge_flag_ st.1 e then mylevel else mylevel + 1) ls).
Proof.
  intros Ha Hb st ls e.
  destruct (edge_nest_spec level_at ec n) as (_ & Hres & _).
  destruct (Hres oa ob Ha Hb) as [Hf Hn]. fold st in Hf, Hn. fold e in Hf, Hn.
  pose proof (nest_levels level_at oa ob Ha Hb) as Hperm. fold ls in Hperm.
  cbv zeta in Hf, Hn. split.
  - rewrite Hf, bool_decide_eq_true, count_position_level by lia.
    rewrite Hperm. split; [by intros [_ ?]|by split].
  - intros Hle. rewrite Hn, Hf.
    rewrite count_position_same by (by rewrite Hperm).
    assert (forall l, on_level l (around ob ≫= (fun nb => around oa ≫= (fun na => [level_at nb na])))
                      = on_level l ls) as Hon.
    { intros l. unfold on_level. by rewrite Hperm. }
    destruct (decide (Forall _ _)) as [HF|HF]; cbn [fst snd].
    + rewrite bool_decide_eq_true_2 by done. rewrite Hon. lia.
    + rewrite bool_decide_eq_false_2 by lia. by rewrite Hon.
Qed.

(** A nest leaves the entries outside its four alone. *)
Lemma edge_nest_frame (level_at : Z -> Z -> Z) (ec : EdgeCounts) (n e : nat) :
  (e < n \/ n + 4 <= e)%nat ->
  let st := edge_nest mylevel level_at (ec, n) in
  edge_flag_ st.1 e = edge_flag_ ec e /\ nedge_fine_ st.1 e = nedge_fine_ ec e.
Proof. intros He. by apply edge_nest_spec. Qed.

Lemma edge_nest_next (level_at : Z -> Z -> Z) (st : EdgeCounts * nat) :
  edge_nest mylevel level_at st = ((edge_nest mylevel level_at st).1, (st.2 + 4)%nat).
Proof.
  destruct st as [ec n]. destruct (edge_nest_spec level_at ec n) as (H & _).
  cbv zeta in H. cbn [snd]. rewrite <- H. by destruct (edge_nest _ _ _).
Qed.

Lemma edge_in_nest_lt oa ob : (edge_in_nest oa ob < 4)%nat.
Proof. unfold edge_in_nest. repeat case_decide; lia. Qed.
End FineEdgeFacts.

Section CountFineEdgesFacts.
Variable nblevel : nblevel_t.
Variable mylevel : Z.
Variables nx2 nx3 : Z.
Variable ec : EdgeCounts.

Let ec' := CountFineEdges nblevel mylevel nx2 nx3 ec.
Let base : nat := if decide (nx2 > 1) then 4%nat else 0%nat.

(** Peels a nest that does not write entry [e]. *)
Ltac peel lv e :=
  match goal with
  | |- context [edge_nest ?m lv (?a, ?n)] =>
      destruct (edge_nest_frame m lv a n e) as [-> ->]; [simpl; lia|]
  end.

(** Where the entries of an edge come from: the nest that wrote them, run
    on some earlier state at the edge's first entry. *)
Lemma CountFineEdges_x1x2 e :
  nx2 > 1 -> (e < 4)%nat ->
  edge_flag_ ec' e = edge_flag_ (edge_nest mylevel (x1x2_level nblevel) (ec, 0%nat)).1 e /\
  nedge_fine_ ec' e = nedge_fine_ (edge_nest mylevel (x1x2_level nblevel) (ec, 0%nat)).1 e.
Proof.
  intros H2 He. unfold ec', CountFineEdges. cbv zeta.
  rewrite (decide_True (P := nx2 > 1)) by done.
  destruct (decide (nx3 > 1)); [|done].
  rewrite (edge_nest_next _ (x1x2_level nblevel)). cbn [fst snd].
  rewrite (edge_nest_next _ (x1x3_level nblevel)). cbn [fst snd].
  peel (x2x3_level nblevel) e. peel (x1x3_level nblevel) e. done.
Qed.

Lemma CountFineEdges_x1x3 e :
  nx3 > 1 -> (base <= e < base + 4)%nat ->
  exists ec0,
    edge_flag_ ec' e = edge_flag_ (edge_nest mylevel (x1x3_level nblevel) (ec0, base)).1 e /\
    nedge_fine_ ec' e = nedge_fine_ (edge_nest mylevel (x1x3_level nblevel) (ec0, base)).1 e.
Proof.
  intros H3 He. unfold ec', CountFineEdges. cbv zeta. rewrite (decide_True (P := nx3 > 1)) by done.
  set (st0 := if decide (nx2 > 1) then edge_nest mylevel (x1x2_level nblevel) (ec, 0%nat)
              else (ec, 0%nat)).
  assert (st0 = (st0.1, base)) as Hst0.
  { unfold st0, base. destruct (decide (nx2 > 1)); [|done].
    by rewrite (edge_nest_next _ (x1x2_level nblevel)). }
  exists st0.1. rewrite Hst0. cbn [fst].
  rewrite (edge_nest_next _ (x1x3_level nblevel)). cbn [fst snd].
  peel (x2x3_level nblevel) e. done.
Qed.

Lemma CountFineEdges_x2x3 :
  nx3 > 1 ->
  exists ec0, ec' = (edge_nest mylevel (x2x3_level nblevel) (ec0, (base + 4)%nat)).1.
Proof.
  intros H3. unfold ec', CountFineEdges. cbv zeta. rewrite (decide_True (P := nx3 > 1)) by done.
  set (st0 := if decide (nx2 > 1) then edge_nest mylevel (x1x2_level nblevel) (ec, 0%nat)
              else (ec, 0%nat)).
  assert (st0 = (st0.1, base)) as Hst0.
  { unfold st0, base. destruct (decide (nx2 > 1)); [|done].
    by rewrite (edge_nest_next _ (x1x2_level nblevel)). }
  rewrite Hst0. rewrite (edge_nest_next _ (x1x3_level nblevel)). cbn [fst snd].
  by eexists.
Qed.

Lemma CountFineEdges_frame e :
  (edges_written nx2 nx3 <= e)%nat ->
  edge_flag_ ec' e = edge_flag_ ec e /\ nedge_fine_ ec' e = nedge_fine_ ec e.
Proof.
  unfold edges_written, ec', CountFineEdges. cbv zeta. intros He.
  destruct (decide (nx2 > 1)), (decide (nx3 > 1)); [| | |done].
  - rewrite (edge_nest_next _ (x1x2_level nblevel)). cbn [fst snd].
    rewrite (edge_nest_next _ (x1x3_level nblevel)). cbn [fst snd].
    peel (x2x3_level nblevel) e. peel (x1x3_level nblevel) e.
    apply edge_nest_frame. lia.
  - apply edge_nest_frame. lia.
  - rewrite (edge_nest_next _ (x1x3_level nblevel)). cbn [fst snd].
    peel (x2x3_level nblevel) e. apply edge_nest_frame. lia.
Qed.
End CountFineEdgesFacts.

Lemma on_level_bounds (mylevel : Z) (level_at : Z -> Z -> Z) (oa ob : Z) (flag : bool) :
  level_at 0 0 = mylevel ->
  Forall (fun l => l <= mylevel + 1) (edge_levels level_at oa ob) ->
  (flag = true <-> Forall (fun l => l <= mylevel) (edge_levels level_at oa ob)) ->
  1 <= on_level (if flag then mylevel else mylevel + 1) (edge_levels level_at oa ob) <= 4.
Proof.
  intros Hown Hle Hflag. unfold on_level. split.
  - assert (exists l, l ∈ edge_levels level_at oa ob /\
                      l = (if flag then mylevel else mylevel + 1)) as (l & Hin & Hl).
    { destruct flag.
      - exists mylevel. split; [|done]. unfold edge_levels. rewrite Hown. left.
      - destruct (decide (Forall (fun l => l <= mylevel) (edge_levels level_at oa ob)))
          as [HF|HF]; [by apply Hflag in HF|].
        apply not_Forall_Exists in HF; [|apply _].
        apply Exists_exists in HF as (l & Hin & Hl). exists l. split; [done|].
        rewrite Forall_forall in Hle. specialize (Hle l Hin). simpl in *. lia. }
    assert (l ∈ filter (fun x => x = (if flag then mylevel else mylevel + 1))
                       (edge_levels level_at oa ob)) as Hf
      by (apply list_elem_of_filter; by split).
    destruct (filter _ _); [by apply elem_of_nil in Hf|]. simpl. lia.
  - pose proof (length_filter (fun x => x = (if flag then mylevel else mylevel + 1))
                  (edge_levels level_at oa ob)) as H.
    unfold edge_levels in *. simpl length in H at 2. lia.
Qed.

(** X10.  [CountFineEdges] sets the flag of an edge exactly when none of
    the four positions around that edge holds a block finer than this one.
    The edges of the axes 1-2 come first (when [nx2 > 1]), then those of
    the axes 1-3 and 2-3 (when [nx3 > 1]); the entries past the edges
    written keep their values, so a one-dimensional block writes none. *)
Theorem CountFineEdges_flags
        (nblevel : nblevel_t) (mylevel nx2 nx3 : Z) (ec : EdgeCounts) (oa ob : Z) :
  oa ∈ sides -> ob ∈ sides ->
  let ec' := CountFineEdges nblevel mylevel nx2 nx3 ec in
  let base : nat := if decide (nx2 > 1) then 4%nat else 0%nat in
  let e := edge_in_nest oa ob in
  let coarse := Forall (fun l => l <= mylevel) in
  (nx2 > 1 ->
   (edge_flag_ ec' e = true <-> coarse (edge_levels (x1x2_level nblevel) oa ob))) /\
  (nx3 > 1 ->
   (edge_flag_ ec' (base + e) = true <-> coarse (edge_levels (x1x3_level nblevel) oa ob)) /\
   (edge_flag_ ec' (base + 4 + e) = true <->
    coarse (edge_levels (x2x3_level nblevel) oa ob))) /\
  (forall e', (edges_written nx2 nx3 <= e')%nat ->
     edge_flag_ ec' e' = edge_flag_ ec e' /\ nedge_fine_ ec' e' = nedge_fine_ ec e').
Proof.
  intros Ha Hb ec' base e coarse. subst ec' coarse.
  pose proof (edge_in_nest_lt oa ob) as Hlt. fold e in Hlt.
  split; [|split].
  - intros H2.
    destruct (CountFineEdges_x1x2 nblevel mylevel nx2 nx3 ec e H2 Hlt) as [-> _].
    apply (edge_nest_result mylevel _ ec 0 oa ob Ha Hb).
  - intros H3. split.
    + destruct (CountFineEdges_x1x3 nblevel mylevel nx2 nx3 ec (base + e) H3)
        as (ec0 & -> & _); [unfold base; lia|].
      apply (edge_nest_result mylevel _ ec0 base oa ob Ha Hb).
    + destruct (CountFineEdges_x2x3 nblevel mylevel nx2 nx3 ec H3) as (ec0 & Hec).
      rewrite Hec.
      apply (edge_nest_result mylevel _ ec0 (base + 4) oa ob Ha Hb).
  - apply CountFineEdges_frame.
Qed.

(** X11.  On a mesh whose neighbouring blocks differ by at most one level,
    [CountFineEdges] stores for each edge the number of positions around it
    that are on the finest level present there: this block's level when the
    flag is set, the next level otherwise.  The number is between 1 and
    4. *)
Theorem CountFineEdges_counts
        (nblevel : nblevel_t) (mylevel nx2 nx3 : Z) (ec : EdgeCounts) (oa ob : Z) :
  (forall k j i, nblevel k j i <= mylevel + 1) ->
  nblevel 1 1 1 = mylevel ->
  oa ∈ sides -> ob ∈ sides ->
  let ec' := CountFineEdges nblevel mylevel nx2 nx3 ec in
  let base : nat := if decide (nx2 > 1) then 4%nat else 0%nat in
  let e := edge_in_nest oa ob in
  let finest (eid : nat) := if edge_flag_ ec' eid then mylevel else mylevel + 1 in
  (nx2 > 1 ->
   nedge_fine_ ec' e = on_level (finest e) (edge_levels (x1x2_level nblevel) oa ob) /\
   1 <= nedge_fine_ ec' e <= 4) /\
  (nx3 > 1 ->
   (nedge_fine_ ec' (base + e)
    = on_level (finest (base + e)%nat) (edge_levels (x1x3_level nblevel) oa ob) /\
    1 <= nedge_fine_ ec' (base + e) <= 4) /\
   (nedge_fine_ ec' (base + 4 + e)
    = on_level (finest (base + 4 + e)%nat) (edge_levels (x2x3_level nblevel) oa ob) /\
    1 <= nedge_fine_ ec' (base + 4 + e) <= 4)).
Proof.
  intros Hbal Hown Ha Hb ec' base e finest.
  pose proof (edge_in_nest_lt oa ob) as Hlt. fold e in Hlt.
  assert (forall level_at, (forall a b, exists k j i, level_at a b = nblevel k j i) ->
            Forall (fun l => l <= mylevel + 1) (edge_levels level_at oa ob)) as Hall.
  { intros level_at Hat. unfold edge_levels. repeat constructor;
      match goal with |- level_at ?a ?b <= _ =>
        destruct (Hat a b) as (k & j & i & ->); apply Hbal end. }
  assert (forall level_at ec0 n,
            level_at 0 0 = mylevel ->
            (forall a b, exists k j i, level_at a b = nblevel k j i) ->
            let st := edge_nest mylevel level_at (ec0, n) in
            forall flag count,
            flag = edge_flag_ st.1 (n + e) -> count = nedge_fine_ st.1 (n + e) ->
            count = on_level (if flag then mylevel else mylevel + 1)
                      (edge_levels level_at oa ob) /\
            1 <= count <= 4) as Hnest.
  { intros level_at ec0 n Hat0 Hat st flag count -> ->.
    destruct (edge_nest_result mylevel level_at ec0 n oa ob Ha Hb) as [Hf Hn].
    cbv zeta in Hf, Hn. fold e in Hf, Hn. fold st in Hf, Hn.
    specialize (Hn (Hall level_at Hat)). split; [exact Hn|].
    rewrite Hn. apply on_level_bounds; [done|by apply Hall|done]. }
  split.
  - intros H2. unfold finest.
    destruct (CountFineEdges_x1x2 nblevel mylevel nx2 nx3 ec e H2 Hlt) as [Hf Hn].
    fold ec' in Hf, Hn.
    apply (Hnest (x1x2_level nblevel) ec 0%nat);
      first [done|exact Hown|intros a b; by eexists _, _, _].
  - intros H3. split.
    + destruct (CountFineEdges_x1x3 nblevel mylevel nx2 nx3 ec (base + e) H3)
        as (ec0 & Hf & Hn); [unfold base; lia|].
      fold ec' in Hf, Hn. unfold finest.
      apply (Hnest (x1x3_level nblevel) ec0 base);
        first [done|exact Hown|intros a b; by eexists _, _, _].
    + destruct (CountFineEdges_x2x3 nblevel mylevel nx2 nx3 ec H3) as (ec0 & Hec).
      fold ec' in Hec. unfold finest.
      apply (Hnest (x2x3_level nblevel) ec0 (base + 4)%nat);
        first [by rewrite Hec|exact Hown|intros a b; by eexists _, _, _].
Qed.

Lemma CountFineEdges_flags_witness :
  let ec' := CountFineEdges EdgeExamples.nblevel_corner 0 4 4 EdgeExamples.no_edges in
  edge_flag_ ec' 3 = false /\ edge_flag_ ec' 0 = true /\ edge_flag_ ec' 12 = false.
Proof.
  cbv zeta.
  assert ((1:Z) ∈ sides) as H1 by (right; left).
  assert ((-1:Z) ∈ sides) as Hm1 by left.
  destruct (CountFineEdges_flags EdgeExamples.nblevel_corner 0 4 4 EdgeExamples.no_edges
              1 1 H1 H1) as (Hup & _ & Hrest).
  destruct (CountFineEdges_flags EdgeExamples.nblevel_corner 0 4 4 EdgeExamples.no_edges
              (-1) (-1) Hm1 Hm1) as (Hlow & _ & _).
  cbv zeta in Hup, Hlow, Hrest. split; [|split].
  - apply not_true_is_false. intros Hf. apply Hup in Hf; [|lia].
    unfold edge_levels in Hf. rewrite !Forall_cons in Hf.
    destruct Hf as (_ & _ & _ & Hf & _). vm_compute in Hf. by apply Hf.
  - apply Hlow; [lia|]. unfold edge_levels. repeat constructor; by vm_compute.
  - destruct (Hrest 12%nat) as [-> _]; [vm_compute; lia|reflexivity].
Defined.

Lemma CountFineEdges_counts_witness :
  let ec' := CountFineEdges EdgeExamples.nblevel_corner 0 4 4 EdgeExamples.no_edges in
  nedge_fine_ ec' 3 = 1 /\ nedge_fine_ ec' 0 = 4.
Proof.
  cbv zeta.
  assert ((1:Z) ∈ sides) as H1 by (right; left).
  assert ((-1:Z) ∈ sides) as Hm1 by left.
  assert (forall k j i, EdgeExamples.nblevel_corner k j i <= 0 + 1) as Hbal.
  { intros k j i. unfold EdgeExamples.nblevel_corner. case_decide; lia. }
  destruct (CountFineEdges_counts EdgeExamples.nblevel_corner 0 4 4 EdgeExamples.no_edges
              1 1 Hbal eq_refl H1 H1) as (Hup & _).
  destruct (CountFineEdges_counts EdgeExamples.nblevel_corner 0 4 4 EdgeExamples.no_edges
              (-1) (-1) Hbal eq_refl Hm1 Hm1) as (Hlow & _).
  cbv zeta in Hup, Hlow. split.
  - destruct Hup as [-> _]; [lia|]. reflexivity.
  - destruct Hlow as [-> _]; [lia|]. reflexivity.
Defined.

Import CrossLevel.

(** ** Buffer sizes and packed counts *)

Section BoxCounts.

Lemma length_bind_const {A B} (f : A -> list B) (n : nat) (l : list A) :
  (forall x, length (f x) = n) -> length (l ≫= f) = (length l * n)%nat.
Proof.
  intros Hf. induction l as [|x l IH]; [done|].
  rewrite bind_cons, length_app, IH, Hf. simpl. lia.
Qed.

Lemma length_range (s e : Z) : length (range s e) = Z.to_nat (e - s + 1).
Proof. unfold range. apply length_seqZ. Qed.

(** The number of indices of a box. *)
Lemma length_box_indices (b : Box) :
  length (box_indices b)
  = (Z.to_nat (ek b - sk b + 1) * (Z.to_nat (ej b - sj b + 1) * Z.to_nat (ei b - si b + 1)))%nat.
Proof.
  unfold box_indices.
  rewrite (length_bind_const _ (Z.to_nat (ej b - sj b + 1) * Z.to_nat (ei b - si b + 1))).
  - by rewrite length_range.
  - intros k. rewrite (length_bind_const _ (Z.to_nat (ei b - si b + 1))).
    + by rewrite length_range.
    + intros j. rewrite (length_bind_const _ 1%nat); [|done].
      rewrite length_range. lia.
Qed.

Lemma box_count (b : Box) (ni nj nk : Z) :
  0 <= ni -> 0 <= nj -> 0 <= nk ->
  ei b - si b + 1 = ni -> ej b - sj b + 1 = nj -> ek b - sk b + 1 = nk ->
  Z.of_nat (length (box_indices b)) = ni * nj * nk.
Proof.
  intros Hi Hj Hk Ei Ej Ek. rewrite length_box_indices, Ei, Ej, Ek.
  rewrite !Nat2Z.inj_mul, !Z2Nat.id by done. ring.
Qed.

Lemma widen_first (g a b : Z) : 0 < g -> (g * a * b) `quot` g * (g + 1) = (g + 1) * a * b.
Proof.
  intros Hg. replace (g * a * b) with (a * b * g) by ring.
  rewrite Z.quot_mul by lia. ring.
Qed.

Lemma widen_second (g a b : Z) : 0 < g -> (a * g * b) `quot` g * (g + 1) = a * (g + 1) * b.
Proof.
  intros Hg. replace (a * g * b) with (a * b * g) by ring.
  rewrite Z.quot_mul by lia. ring.
Qed.

Lemma widen_third (g a b : Z) : 0 < g -> (a * b * g) `quot` g * (g + 1) = a * b * (g + 1).
Proof. intros Hg. rewrite Z.quot_mul by lia. ring. Qed.
End BoxCounts.

Section SameLevelSize.
Context {Real : Type}.
Variable NGHOST : Z.
Variable pmb : LevelBlock.
Variable nb : NeighborBlock.
Hypothesis Hghost : 0 < NGHOST.
Hypothesis Hext : extents_ok (block pmb).
Hypothesis Hshape : shape_ok (block pmb).
Hypothesis Hrel : relation_ok (block pmb) nb.
Hypothesis Hdims : dims_ok pmb.

Let l1 := load_bx1 NGHOST (block pmb) nb.
Let l2 := load_bx2 NGHOST (block pmb) nb l1.
Let l3 := load_bx3 NGHOST (block pmb) nb l2.

Let bs := block_size (block pmb).
Let f2 : Z := if decide (ndim pmb >= 2) then 1 else 0.
Let f3 : Z := if decide (ndim pmb >= 3) then 1 else 0.
(** One more layer along an axis with a nonzero offset, for edge and
    corner relations on a multilevel mesh. *)
Let extra (ox : Z) : Z :=
  if overlap (block pmb) nb then if decide (ox <> 0) then 1 else 0 else 0.

Ltac prepare :=
  destruct Hext as (X1 & X2 & X3);
  destruct Hshape as (Hi & Hj & Hk);
  destruct Hrel as ((H1 & H2 & H3) & Hd2 & Hd3);
  destruct Hdims as (D2 & D3);
  unfold offset_ok in *.

Ltac split_offset o :=
  let E := fresh "E" in
  assert (o = -1 \/ o = 0 \/ o = 1) as [E|[E|E]] by lia; rewrite E in *.

Lemma load_bx1_extents :
  ei l1 - si l1 + 1 = (if decide (ox1 (ni nb) = 0) then nx1 bs + 1 else NGHOST)
                      + extra (ox1 (ni nb)) /\
  ej l1 - sj l1 + 1 = (if decide (ox2 (ni nb) = 0) then nx2 bs else NGHOST) /\
  ek l1 - sk l1 + 1 = (if decide (ox3 (ni nb) = 0) then nx3 bs else NGHOST).
Proof.
  subst l1 bs extra. prepare. unfold load_bx1. cbn [si ei sj ej sk ek].
  destruct (overlap (block pmb) nb);
    (split; [|split]);
    [split_offset (ox1 (ni nb))|split_offset (ox2 (ni nb))|split_offset (ox3 (ni nb))
    |split_offset (ox1 (ni nb))|split_offset (ox2 (ni nb))|split_offset (ox3 (ni nb))];
    repeat (case_decide; try lia).
Qed.

Lemma load_bx2_extents :
  ei l2 - si l2 + 1 = (if decide (ox1 (ni nb) = 0) then nx1 bs else NGHOST) /\
  ej l2 - sj l2 + 1 = (if decide (ox2 (ni nb) = 0) then nx2 bs + f2 else NGHOST)
                      + extra (ox2 (ni nb)) /\
  ek l2 - sk l2 + 1 = (if decide (ox3 (ni nb) = 0) then nx3 bs else NGHOST).
Proof.
  destruct load_bx1_extents as (_ & _ & Ek1).
  subst l2 bs extra f2. unfold load_bx2. cbn [si ei sj ej sk ek].
  split; [|split; [|exact Ek1]]; clear Ek1; prepare.
  - split_offset (ox1 (ni nb)); repeat (case_decide; try lia).
  - destruct (overlap (block pmb) nb); split_offset (ox2 (ni nb));
      repeat (case_decide; try lia).
Qed.

Lemma load_bx3_extents :
  ei l3 - si l3 + 1 = (if decide (ox1 (ni nb) = 0) then nx1 bs else NGHOST) /\
  ej l3 - sj l3 + 1 = (if decide (ox2 (ni nb) = 0) then nx2 bs else NGHOST) /\
  ek l3 - sk l3 + 1 = (if decide (ox3 (ni nb) = 0) then nx3 bs + f3 else NGHOST)
                      + extra (ox3 (ni nb)).
Proof.
  destruct load_bx2_extents as (Ei2 & _ & _).
  subst l3 bs extra f3. unfold load_bx3. cbn [si ei sj ej sk ek].
  split; [exact Ei2|]. clear Ei2. prepare. split.
  - split_offset (ox2 (ni nb)); repeat (case_decide; try lia).
  - destruct (overlap (block pmb) nb); split_offset (ox3 (ni nb));
      repeat (case_decide; try lia).
Qed.

(** The count [LoadBoundaryBufferSameLevel] returns. *)
Lemma LoadBoundaryBufferSameLevel_count (var : FaceField Real) (buf : Buffer Real) :
  (LoadBoundaryBufferSameLevel Real NGHOST (block pmb) var buf nb).2
  = (length (box_indices l1) + length (box_indices l2) + length (box_indices l3))%nat.
Proof.
  rewrite (LoadBoundaryBufferSameLevel_packs NGHOST (block pmb) nb var buf).
  by destruct (packed_counts NGHOST (block pmb) nb var buf) as (_ & _ & ->).
Qed.

Lemma extra_nonneg ox : 0 <= extra ox <= 1.
Proof. unfold extra. destruct (overlap _ _); repeat case_decide; lia. Qed.

Lemma f2_f3_nonneg : 0 <= f2 <= 1 /\ 0 <= f3 <= 1.
Proof. unfold f2, f3. repeat case_decide; lia. Qed.

Lemma same_level_counts :
  Z.of_nat (length (box_indices l1))
  = ((if decide (ox1 (ni nb) = 0) then nx1 bs + 1 else NGHOST) + extra (ox1 (ni nb)))
    * (if decide (ox2 (ni nb) = 0) then nx2 bs else NGHOST)
    * (if decide (ox3 (ni nb) = 0) then nx3 bs else NGHOST) /\
  Z.of_nat (length (box_indices l2))
  = (if decide (ox1 (ni nb) = 0) then nx1 bs else NGHOST)
    * ((if decide (ox2 (ni nb) = 0) then nx2 bs + f2 else NGHOST) + extra (ox2 (ni nb)))
    * (if decide (ox3 (ni nb) = 0) then nx3 bs else NGHOST) /\
  Z.of_nat (length (box_indices l3))
  = (if decide (ox1 (ni nb) = 0) then nx1 bs else NGHOST)
    * (if decide (ox2 (ni nb) = 0) then nx2 bs else NGHOST)
    * ((if decide (ox3 (ni nb) = 0) then nx3 bs + f3 else NGHOST) + extra (ox3 (ni nb))).
Proof.
  destruct load_bx1_extents as (A1 & A2 & A3).
  destruct load_bx2_extents as (B1 & B2 & B3).
  destruct load_bx3_extents as (C1 & C2 & C3).
  destruct f2_f3_nonneg as [F2 F3].
  pose proof (extra_nonneg (ox1 (ni nb))). pose proof (extra_nonneg (ox2 (ni nb))).
  pose proof (extra_nonneg (ox3 (ni nb))).
  destruct Hext as (X1 & X2 & X3). fold bs in X1, X2, X3.
  split; [|split]; eapply box_count; try eassumption; repeat case_decide; lia.
Qed.

Lemma same_level_size (cng : Z) :
  (variable_sizes NGHOST pmb (ni nb) cng).1
  = Z.of_nat (length (box_indices l1) + length (box_indices l2) + length (box_indices l3)).
Proof.
  rewrite !Nat2Z.inj_add. destruct same_level_counts as (-> & -> & ->).
  unfold variable_sizes, extra, overlap. fold bs f2 f3.
  destruct (multilevel (block pmb)); cbn [fst andb]; [|ring].
  destruct (decide (type (ni nb) <> face)) as [Ht|Ht].
  - rewrite bool_decide_eq_true_2 by done.
    destruct (decide (ox1 (ni nb) = 0)), (decide (ox2 (ni nb) = 0)),
      (decide (ox3 (ni nb) = 0));
      repeat (case_decide; try lia);
      rewrite ?widen_first, ?widen_second, ?widen_third by done; ring.
  - rewrite bool_decide_eq_false_2 by done. ring.
Qed.
End SameLevelSize.

(** X12.  The buffer size [ComputeVariableBufferSize] computes holds what
    [LoadBoundaryBufferSameLevel] packs: on a block whose bounds span its
    extents, for a relation with offsets in [{-1,0,1}] that are zero along
    degenerate axes, the count the packing returns is the value [size] of
    the computation, which the returned size is at least and, off a
    multilevel mesh, equal to.  [SetupPersistentMPI] gives the same count to
    both requests of a same-level neighbour. *)
Theorem ComputeVariableBufferSize_holds_same_level {Real : Type}
        (NGHOST : Z) (pmb : LevelBlock) (nb : NeighborBlock) (cng mylevel : Z)
        (var : FaceField Real) (buf : Buffer Real) :
  0 < NGHOST ->
  extents_ok (block pmb) ->
  shape_ok (block pmb) ->
  relation_ok (block pmb) nb ->
  dims_ok pmb ->
  let p := Z.of_nat (LoadBoundaryBufferSameLevel Real NGHOST (block pmb) var buf nb).2 in
  p <= ComputeVariableBufferSize NGHOST pmb (ni nb) cng /\
  (multilevel (block pmb) = false -> ComputeVariableBufferSize NGHOST pmb (ni nb) cng = p) /\
  (level (snb nb) = mylevel ->
   SetupPersistentMPI_field NGHOST pmb mylevel nb = (Some p, Some p)).
Proof.
  intros Hg Hext Hshape Hrel Hdims p.
  assert (forall c, (variable_sizes NGHOST pmb (ni nb) c).1 = p) as Hsize.
  { intros c. unfold p. rewrite LoadBoundaryBufferSameLevel_count.
    by apply same_level_size. }
  split; [|split].
  - unfold ComputeVariableBufferSize. specialize (Hsize cng).
    destruct (variable_sizes NGHOST pmb (ni nb) cng) as [size [[csize fsize]|]];
      simpl in Hsize; lia.
  - intros M. unfold ComputeVariableBufferSize. specialize (Hsize cng).
    unfold variable_sizes in *. rewrite M in *. exact Hsize.
  - intros Hl. unfold SetupPersistentMPI_field. specialize (Hsize (cnghost pmb)).
    destruct (variable_sizes NGHOST pmb (ni nb) (cnghost pmb)) as [size cf].
    simpl in Hsize. rewrite decide_True by done. by rewrite Hsize.
Qed.

(** ** Packing three boxes and unpacking them elsewhere *)

Section ThreeStage.
Context {Real : Type}.
Variables l1 l2 l3 s1 s2 s3 : Box.
Variable f : index3 -> index3.
Hypothesis I1 : box_indices s1 = f <$> box_indices l1.
Hypothesis I2 : box_indices s2 = f <$> box_indices l2.
Hypothesis I3 : box_indices s3 = f <$> box_indices l3.
Variables a1 a2 a3 d1 d2 d3 : Array3D Real.
Variable buf0 : Buffer Real.

Let P1 := PackData Real a1 buf0 l1 0.
Let P2 := PackData Real a2 P1.1 l2 P1.2.
Let P3 := PackData Real a3 P2.1 l3 P2.2.
Let U1 := UnpackData Real P3.1 d1 s1 0.
Let U2 := UnpackData Real P3.1 d2 s2 U1.2.
Let U3 := UnpackData Real P3.1 d3 s3 U2.2.
Let n1 := length (box_indices l1).
Let n2 := length (box_indices l2).
Let n3 := length (box_indices l3).

Lemma stage_counts :
  P1.2 = n1 /\ P2.2 = (n1 + n2)%nat /\ P3.2 = (n1 + n2 + n3)%nat /\
  U1.2 = n1 /\ U2.2 = (n1 + n2)%nat.
Proof.
  destruct (PackData_spec a1 buf0 l1 0) as (H1 & _).
  destruct (PackData_spec a2 P1.1 l2 P1.2) as (H2 & _).
  destruct (PackData_spec a3 P2.1 l3 P2.2) as (H3 & _).
  destruct (UnpackData_spec P3.1 d1 s1 0) as (G1 & _).
  destruct (UnpackData_spec P3.1 d2 s2 U1.2) as (G2 & _).
  fold P1 in H1, H2. fold P2 in H2, H3. fold P3 in H3, G1, G2. fold U1 in G1, G2.
  fold U2 in G2. rewrite I1, length_fmap in G1. rewrite I2, length_fmap in G2.
  subst n1 n2 n3. lia.
Qed.

Lemma stage_packed :
  (forall n x, box_indices l1 !! n = Some x -> P3.1 n = a1 x) /\
  (forall n x, box_indices l2 !! n = Some x -> P3.1 (n1 + n)%nat = a2 x) /\
  (forall n x, box_indices l3 !! n = Some x -> P3.1 (n1 + n2 + n)%nat = a3 x) /\
  (forall q, (n1 + n2 + n3 <= q)%nat -> P3.1 q = buf0 q).
Proof.
  destruct stage_counts as (C1 & C2 & C3 & _).
  destruct (PackData_spec a1 buf0 l1 0) as (_ & H1 & O1).
  destruct (PackData_spec a2 P1.1 l2 P1.2) as (_ & H2 & O2).
  destruct (PackData_spec a3 P2.1 l3 P2.2) as (_ & H3 & O3).
  fold P1 in H1, O1, H2, O2. fold P2 in H2, O2, H3, O3. fold P3 in H3, O3.
  fold n1 in O1. fold n2 in O2. fold n3 in O3.
  split; [|split; [|split]].
  - intros n x Hn. assert (n < n1)%nat by (by eapply lookup_lt_Some).
    rewrite O3 by lia. rewrite O2 by lia. by apply (H1 n x).
  - intros n x Hn. assert (n < n2)%nat by (by eapply lookup_lt_Some).
    rewrite O3 by lia. rewrite <- C1. by apply (H2 n x).
  - intros n x Hn. rewrite <- C2. by apply (H3 n x).
  - intros q Hq. rewrite O3 by lia. rewrite O2 by lia. apply O1. lia.
Qed.

Lemma stage_unpacked :
  (forall x, x ∈ box_indices l1 -> U1.1 (f x) = a1 x) /\
  (forall x, x ∈ box_indices l2 -> U2.1 (f x) = a2 x) /\
  (forall x, x ∈ box_indices l3 -> U3.1 (f x) = a3 x) /\
  (forall y, y ∉ box_indices s1 -> U1.1 y = d1 y) /\
  (forall y, y ∉ box_indices s2 -> U2.1 y = d2 y) /\
  (forall y, y ∉ box_indices s3 -> U3.1 y = d3 y).
Proof.
  destruct stage_counts as (_ & _ & _ & C1 & C2).
  destruct stage_packed as (K1 & K2 & K3 & _).
  destruct (UnpackData_spec P3.1 d1 s1 0) as (_ & G1 & O1).
  destruct (UnpackData_spec P3.1 d2 s2 U1.2) as (_ & G2 & O2).
  destruct (UnpackData_spec P3.1 d3 s3 U2.2) as (_ & G3 & O3).
  fold U1 in G1, O1, G2, O2. fold U2 in G2, O2, G3, O3. fold U3 in G3, O3.
  repeat split; try done.
  - intros x Hx. apply list_elem_of_lookup in Hx as (n & Hn). rewrite (G1 n).
    + by apply K1.
    + by rewrite I1, list_lookup_fmap, Hn.
  - intros x Hx. apply list_elem_of_lookup in Hx as (n & Hn). rewrite (G2 n).
    + rewrite C1. by apply K2.
    + by rewrite I2, list_lookup_fmap, Hn.
  - intros x Hx. apply list_elem_of_lookup in Hx as (n & Hn). rewrite (G3 n).
    + rewrite C2. by apply K3.
    + by rewrite I3, list_lookup_fmap, Hn.
Qed.

(** Three boxes packed one after the other from [a1], [a2], [a3], then
    unpacked into [d1], [d2], [d3] over boxes that are their images under
    [f]: the count, the rest of the buffer, the values that arrive and the
    values that stay. *)
Lemma three_stage :
  P3.2 = (n1 + n2 + n3)%nat /\
  (forall q, (n1 + n2 + n3 <= q)%nat -> P3.1 q = buf0 q) /\
  (forall x, x ∈ box_indices l1 -> U1.1 (f x) = a1 x) /\
  (forall x, x ∈ box_indices l2 -> U2.1 (f x) = a2 x) /\
  (forall x, x ∈ box_indices l3 -> U3.1 (f x) = a3 x) /\
  (forall y, y ∉ box_indices s1 -> U1.1 y = d1 y) /\
  (forall y, y ∉ box_indices s2 -> U2.1 y = d2 y) /\
  (forall y, y ∉ box_indices s3 -> U3.1 y = d3 y).
Proof.
  destruct stage_counts as (_ & _ & C3 & _).
  destruct stage_packed as (_ & _ & _ & K).
  destruct stage_unpacked as (V1 & V2 & V3 & O1 & O2 & O3).
  done.
Qed.
End ThreeStage.

(** ** Halving an extent *)

Lemma halvable_quot (n : Z) :
  halvable n ->
  n `quot` 2 = n - coarse_extent n /\ (n + 1) `quot` 2 = coarse_extent n /\
  1 <= coarse_extent n <= n /\ (n > 1 -> n = 2 * coarse_extent n).
Proof.
  unfold halvable, coarse_extent. intros [->|(h & Hh & ->)].
  - rewrite decide_True by done. repeat split; try reflexivity; lia.
  - rewrite decide_False by lia.
    assert ((2 * h) `quot` 2 = h) as E1.
    { rewrite Z.mul_comm. apply Z.quot_mul. lia. }
    assert ((2 * h + 1) `quot` 2 = h) as E2.
    { rewrite Z.quot_div_nonneg by lia.
      rewrite Z.mul_comm, Z.div_add_l by lia. change (1 / 2) with 0. lia. }
    rewrite E1, E2. lia.
Qed.

(** ** The copies on degenerate axes leave the other planes alone *)

Lemma copy_x2f_plane_keeps {Real : Type} (a : Array3D Real) (b : Box) (y : index3) :
  y.1.2 <> sj b + 1 -> copy_x2f_plane Real a b y = a y.
Proof.
  intros Hy. unfold copy_x2f_plane.
  destruct (copy_loop (fun i => (sk b, sj b, i)) (fun i => (sk b, sj b + 1, i))
              (range (si b) (ei b)) a) as [Hother _].
  - intros i1 i2 [=]. lia.
  - by intros i1 i2 [=].
  - apply Hother. intros i _ ->. by apply Hy.
Qed.

Lemma copy_x3f_plane_keeps {Real : Type} (a : Array3D Real) (b : Box) (y : index3) :
  y.1.1 <> sk b + 1 -> copy_x3f_plane Real a b y = a y.
Proof.
  intros Hy. unfold copy_x3f_plane.
  destruct (copy_loop (fun ji : Z * Z => (sk b, ji.1, ji.2))
              (fun ji : Z * Z => (sk b + 1, ji.1, ji.2))
              (j ← range (sj b) (ej b); i ← range (si b) (ei b); [(j, i)]) a)
    as [Hother _].
  - intros i1 i2 [=]. lia.
  - intros [j1 i1] [j2 i2] [=]. by subst.
  - apply Hother. intros i _ ->. by apply Hy.
Qed.

(** ** From a coarse block to a finer neighbour *)

Section ToFiner.
Context {Real : Type}.
Variables sender fine : LevelBlock.
Variables nb nb' : NeighborBlock.
Hypothesis Hshape : shape_ok (block sender).
Hypothesis Hcshape : c_shape_ok fine.
Hypothesis Hsize : block_size (block fine) = block_size (block sender).
Hypothesis Hcng : cnghost fine = cnghost sender.
Hypothesis Hhalv : halvable_block (block sender).
Hypothesis Hrel : relation_ok (block sender) nb.
Hypothesis Hmirror : mirror_relation nb nb'.
Hypothesis Hpos : fine_position_ok fine nb.

Let l1 := finer_bx1 sender nb.
Let l2 := finer_bx2 sender nb l1.
Let l3 := finer_bx3 sender nb l2.
Let s1 := fromcoarser_bx1 fine nb'.
Let s2 := fromcoarser_bx2 fine nb' s1.
Let s3 := fromcoarser_bx3 fine nb' s2.
Let bs := block_size (block sender).
Let dk := ks (c_cellbounds fine) - ks (cellbounds (block sender))
          - fine_origin (ox3 (ni nb)) (nx3 bs) (bool_decide (Z.land (lx3 fine) 1 <> 0)).
Let dj := js (c_cellbounds fine) - js (cellbounds (block sender))
          - fine_origin (ox2 (ni nb)) (nx2 bs) (bool_decide (Z.land (lx2 fine) 1 <> 0)).
Let di := is_ (c_cellbounds fine) - is_ (cellbounds (block sender))
          - fine_origin (ox1 (ni nb)) (nx1 bs) (bool_decide (Z.land (lx1 fine) 1 <> 0)).

Ltac split_offset o :=
  let E := fresh "E" in
  assert (o = -1 \/ o = 0 \/ o = 1) as [E|[E|E]] by lia; rewrite E in *.

(** Brings the hypotheses into linear form: the halves become the
    differences of extents and coarse extents. *)
Ltac prepare :=
  destruct Hshape as (Hi & Hj & Hk);
  destruct Hcshape as (Ci & Cj & Ck);
  destruct Hhalv as (V1 & V2 & V3);
  destruct Hrel as ((H1 & H2 & H3) & Hd2 & Hd3);
  destruct Hmirror as (M1 & M2 & M3 & _);
  destruct Hpos as (P1 & P2 & P3);
  cbv zeta in Ci, Cj, Ck, P1, P2, P3;
  rewrite Hsize in Ci, Cj, Ck, P2, P3;
  apply halvable_quot in V1 as (Q1 & _ & R1 & T1);
  apply halvable_quot in V2 as (Q2 & _ & R2 & T2);
  apply halvable_quot in V3 as (Q3 & _ & R3 & T3);
  unfold offset_ok in *.

Ltac crunch :=
  repeat (first [case_decide|case_bool_decide]; cbn [fst snd]; try lia).

(** One axis at a time, with the facts about that axis only. *)
Ltac axis o Hs Hc Hq Hr Ht Ho Hd Hp :=
  clear - Hs Hc Hq Hr Ht Ho Hd Hp; split_offset o; crunch.

Lemma fromcoarser_bx1_displaced :
  s1 = mkBox (si l1 + di) (ei l1 + di) (sj l1 + dj) (ej l1 + dj) (sk l1 + dk) (ek l1 + dk).
Proof.
  subst s1 l1 di dj dk bs. prepare.
  unfold fromcoarser_bx1, finer_bx1, pad_half, take_half, fine_origin.
  cbn [si ei sj ej sk ek]. rewrite Hsize, Hcng, M1, M2, M3, Q1, Q2, Q3.
  f_equal.
  - axis (ox1 (ni nb)) Hi Ci Q1 R1 T1 H1 H1 P1.
  - axis (ox1 (ni nb)) Hi Ci Q1 R1 T1 H1 H1 P1.
  - axis (ox2 (ni nb)) Hj Cj Q2 R2 T2 H2 Hd2 P2.
  - axis (ox2 (ni nb)) Hj Cj Q2 R2 T2 H2 Hd2 P2.
  - axis (ox3 (ni nb)) Hk Ck Q3 R3 T3 H3 Hd3 P3.
  - axis (ox3 (ni nb)) Hk Ck Q3 R3 T3 H3 Hd3 P3.
Qed.

Lemma fromcoarser_bx2_displaced :
  s2 = mkBox (si l2 + di) (ei l2 + di) (sj l2 + dj) (ej l2 + dj) (sk l2 + dk) (ek l2 + dk).
Proof.
  subst s2 l2. unfold fromcoarser_bx2, finer_bx2. rewrite fromcoarser_bx1_displaced.
  subst di dj dk bs. prepare. unfold pad_half, take_half, fine_origin.
  cbn [si ei sj ej sk ek]. rewrite Hsize, Hcng, M1, M2, Q1, Q2.
  f_equal.
  - axis (ox1 (ni nb)) Hi Ci Q1 R1 T1 H1 H1 P1.
  - axis (ox1 (ni nb)) Hi Ci Q1 R1 T1 H1 H1 P1.
  - axis (ox2 (ni nb)) Hj Cj Q2 R2 T2 H2 Hd2 P2.
  - axis (ox2 (ni nb)) Hj Cj Q2 R2 T2 H2 Hd2 P2.
Qed.

Lemma fromcoarser_bx3_displaced :
  s3 = mkBox (si l3 + di) (ei l3 + di) (sj l3 + dj) (ej l3 + dj) (sk l3 + dk) (ek l3 + dk).
Proof.
  subst s3 l3. unfold fromcoarser_bx3, finer_bx3. rewrite fromcoarser_bx2_displaced.
  subst di dj dk bs. prepare. unfold pad_half, take_half, fine_origin.
  cbn [si ei sj ej sk ek]. rewrite Hsize, Hcng, M2, M3, Q2, Q3.
  f_equal.
  - axis (ox2 (ni nb)) Hj Cj Q2 R2 T2 H2 Hd2 P2.
  - axis (ox2 (ni nb)) Hj Cj Q2 R2 T2 H2 Hd2 P2.
  - axis (ox3 (ni nb)) Hk Ck Q3 R3 T3 H3 Hd3 P3.
  - axis (ox3 (ni nb)) Hk Ck Q3 R3 T3 H3 Hd3 P3.
Qed.

Lemma finer_indices :
  box_indices s1 = to_fine_receiver sender fine nb <$> box_indices l1 /\
  box_indices s2 = to_fine_receiver sender fine nb <$> box_indices l2 /\
  box_indices s3 = to_fine_receiver sender fine nb <$> box_indices l3.
Proof.
  rewrite fromcoarser_bx1_displaced, fromcoarser_bx2_displaced, fromcoarser_bx3_displaced.
  unfold to_fine_receiver. fold bs dk dj di.
  split; [|split]; apply box_indices_displace.
Qed.

(** On a block of axis-2 extent 1 the second box is a single plane, and on
    one of axis-3 extent 1 the third is. *)
Lemma fromcoarser_single_plane :
  (nx2 bs = 1 -> ej s2 = sj s2) /\ (nx3 bs = 1 -> ek s3 = sk s3).
Proof.
  subst s3 s2 bs. prepare. unfold fromcoarser_bx3, fromcoarser_bx2, pad_half.
  cbn [si ei sj ej sk ek]. rewrite Hsize, M2, M3. unfold coarse_extent in Cj, Ck.
  split; intros Hn.
  - rewrite (Hd2 Hn) in *. clear - Cj Hn. crunch.
  - rewrite (Hd3 Hn) in *. clear - Ck Hn. crunch.
Qed.

Variables var coarse_buf : FaceField Real.
Variable buf0 : Buffer Real.

Let sent := LoadBoundaryBufferToFiner Real sender var buf0 nb.
Let out := SetBoundaryFromCoarser Real fine sent.1 nb' coarse_buf.

Lemma LoadBoundaryBufferToFiner_packs :
  sent = PackData Real (x3f Real var)
           (PackData Real (x2f Real var) (PackData Real (x1f Real var) buf0 l1 0).1 l2
              (PackData Real (x1f Real var) buf0 l1 0).2).1 l3
           (PackData Real (x2f Real var) (PackData Real (x1f Real var) buf0 l1 0).1 l2
              (PackData Real (x1f Real var) buf0 l1 0).2).2.
Proof.
  subst sent. unfold LoadBoundaryBufferToFiner. fold l1.
  destruct (PackData Real (x1f Real var) buf0 l1 0) as [b1 p1]. fold l2. cbn [fst snd].
  destruct (PackData Real (x2f Real var) b1 l2 p1) as [b2 p2]. by fold l3.
Qed.

Lemma SetBoundaryFromCoarser_fields (buf : Buffer Real) :
  let u1 := UnpackData Real buf (x1f Real coarse_buf) s1 0 in
  let u2 := UnpackData Real buf (x2f Real coarse_buf) s2 u1.2 in
  let u3 := UnpackData Real buf (x3f Real coarse_buf) s3 u2.2 in
  let o := SetBoundaryFromCoarser Real fine buf nb' coarse_buf in
  x1f Real o = u1.1 /\
  x2f Real o = (if decide (nx2 bs = 1) then copy_x2f_plane Real u2.1 s2 else u2.1) /\
  x3f Real o = (if decide (nx3 bs = 1) then copy_x3f_plane Real u3.1 s3 else u3.1).
Proof.
  intros u1 u2 u3 o. subst o. unfold SetBoundaryFromCoarser. rewrite Hsize. fold bs.
  fold s1. fold u1. destruct u1 as [a1 p1] eqn:E1. fold s2. simpl in u2. fold u2.
  destruct u2 as [a2 p2] eqn:E2. fold s3. simpl in u3. fold u3.
  destruct u3 as [a3 p3] eqn:E3. done.
Qed.

(** Packing on the coarse sender and unpacking on the fine receiver. *)
Lemma finer_roundtrip :
  Z.of_nat sent.2
  = Z.of_nat (length (box_indices l1) + length (box_indices l2) + length (box_indices l3)) /\
  (forall x, x ∈ box_indices l1 ->
     x1f Real out (to_fine_receiver sender fine nb x) = x1f Real var x) /\
  (forall x, x ∈ box_indices l2 ->
     x2f Real out (to_fine_receiver sender fine nb x) = x2f Real var x) /\
  (forall x, x ∈ box_indices l3 ->
     x3f Real out (to_fine_receiver sender fine nb x) = x3f Real var x).
Proof.
  destruct finer_indices as (I1 & I2 & I3).
  destruct fromcoarser_single_plane as (S2 & S3).
  pose proof (three_stage l1 l2 l3 s1 s2 s3 _ I1 I2 I3 (x1f Real var) (x2f Real var)
                (x3f Real var) (x1f Real coarse_buf) (x2f Real coarse_buf)
                (x3f Real coarse_buf) buf0) as (C3 & _ & U1 & U2 & U3 & _).
  rewrite <- LoadBoundaryBufferToFiner_packs in C3, U1, U2, U3.
  destruct (SetBoundaryFromCoarser_fields sent.1) as (E1 & E2 & E3).
  fold out in E1, E2, E3. rewrite E1, E2, E3. clear E1 E2 E3.
  split; [by rewrite C3|]. split; [exact U1|]. split.
  - intros x Hx. destruct (decide (nx2 bs = 1)) as [Hn|Hn]; [|by apply U2].
    rewrite copy_x2f_plane_keeps; [by apply U2|].
    assert (to_fine_receiver sender fine nb x ∈ box_indices s2) as Hin
      by (rewrite I2; by apply list_elem_of_fmap_2).
    destruct (to_fine_receiver sender fine nb x) as [[k j] i].
    apply elem_of_box_indices in Hin as (_ & Hj & _).
    specialize (S2 Hn). cbn [fst snd]. lia.
  - intros x Hx. destruct (decide (nx3 bs = 1)) as [Hn|Hn]; [|by apply U3].
    rewrite copy_x3f_plane_keeps; [by apply U3|].
    assert (to_fine_receiver sender fine nb x ∈ box_indices s3) as Hin
      by (rewrite I3; by apply list_elem_of_fmap_2).
    destruct (to_fine_receiver sender fine nb x) as [[k j] i].
    apply elem_of_box_indices in Hin as (Hk & _ & _).
    specialize (S3 Hn). cbn [fst snd]. lia.
Qed.
End ToFiner.

(** ** From a fine block to a coarser neighbour *)

Section ToCoarser.
Context {Real : Type}.
Variable NGHOST : Z.
Variable RestrictFieldX1 : Array3D Real -> Array3D Real -> Box -> Array3D Real.
Variable RestrictFieldX2 : Array3D Real -> Array3D Real -> Box -> Array3D Real.
Variable RestrictFieldX3 : Array3D Real -> Array3D Real -> Box -> Array3D Real.
Variables fine receiver : LevelBlock.
Variables nb nb' : NeighborBlock.
Hypothesis Hcshape : c_shape_ok fine.
Hypothesis Hshape : shape_ok (block receiver).
Hypothesis Hsize : block_size (block fine) = block_size (block receiver).
Hypothesis Hhalv : halvable_block (block receiver).
Hypothesis Hrel : relation_ok (block fine) nb.
Hypothesis Hmirror : mirror_relation nb nb'.

Let l1 := coarser_bx1 NGHOST fine nb.
Let l2 := coarser_bx2 NGHOST fine nb l1.
Let l3 := coarser_bx3 NGHOST fine nb l2.
Let s1 := fromfiner_bx1 NGHOST receiver nb'.
Let s2 := fromfiner_bx2 NGHOST receiver nb' s1.
Let s3 := fromfiner_bx3 NGHOST receiver nb' s2.
Let bs := block_size (block receiver).
Let dk := ks (cellbounds (block receiver)) - ks (c_cellbounds fine)
          + fine_origin (ox3 (ni nb')) (nx3 bs) (bool_decide (flag_x3 nb' = 1)).
Let dj := js (cellbounds (block receiver)) - js (c_cellbounds fine)
          + fine_origin (ox2 (ni nb')) (nx2 bs) (bool_decide (flag_x2 nb' = 1)).
Let di := is_ (cellbounds (block receiver)) - is_ (c_cellbounds fine)
          + fine_origin (ox1 (ni nb')) (nx1 bs) (bool_decide (fi1 (ni nb') = 1)).

Ltac split_offset o :=
  let E := fresh "E" in
  assert (o = -1 \/ o = 0 \/ o = 1) as [E|[E|E]] by lia; rewrite E in *.

Ltac prepare :=
  destruct Hshape as (Hi & Hj & Hk);
  destruct Hcshape as (Ci & Cj & Ck);
  destruct Hhalv as (V1 & V2 & V3);
  destruct Hrel as ((H1 & H2 & H3) & Hd2 & Hd3);
  destruct Hmirror as (M1 & M2 & M3 & M4);
  cbv zeta in Ci, Cj, Ck;
  rewrite Hsize in Ci, Cj, Ck, Hd2, Hd3;
  apply halvable_quot in V1 as (Q1 & _ & R1 & T1);
  apply halvable_quot in V2 as (Q2 & _ & R2 & T2);
  apply halvable_quot in V3 as (Q3 & _ & R3 & T3);
  unfold offset_ok in *.

Ltac crunch :=
  repeat (first [case_decide|case_bool_decide]; cbn [fst snd]; try lia).

Ltac axis o Hs Hc Hq Hr Ht Ho Hd :=
  clear - Hs Hc Hq Hr Ht Ho Hd; split_offset o; crunch.

Lemma fromfiner_bx1_displaced :
  s1 = mkBox (si l1 + di) (ei l1 + di) (sj l1 + dj) (ej l1 + dj) (sk l1 + dk) (ek l1 + dk).
Proof.
  subst s1 l1 di dj dk bs. prepare.
  unfold fromfiner_bx1, coarser_bx1, widen_pack, widen_unpack, take_half, fine_origin.
  cbn [si ei sj ej sk ek]. rewrite M1, M2, M3, M4, Q1, Q2, Q3.
  f_equal.
  - axis (ox1 (ni nb)) Hi Ci Q1 R1 T1 H1 H1.
  - axis (ox1 (ni nb)) Hi Ci Q1 R1 T1 H1 H1.
  - axis (ox2 (ni nb)) Hj Cj Q2 R2 T2 H2 Hd2.
  - axis (ox2 (ni nb)) Hj Cj Q2 R2 T2 H2 Hd2.
  - axis (ox3 (ni nb)) Hk Ck Q3 R3 T3 H3 Hd3.
  - axis (ox3 (ni nb)) Hk Ck Q3 R3 T3 H3 Hd3.
Qed.

Lemma fromfiner_bx2_displaced :
  s2 = mkBox (si l2 + di) (ei l2 + di) (sj l2 + dj) (ej l2 + dj) (sk l2 + dk) (ek l2 + dk).
Proof.
  subst s2 l2. unfold fromfiner_bx2, coarser_bx2. rewrite fromfiner_bx1_displaced.
  subst di dj dk bs. prepare. unfold widen_pack, widen_unpack, take_half, fine_origin.
  cbn [si ei sj ej sk ek]. rewrite Hsize, M1, M2, M4, Q1, Q2.
  f_equal.
  - axis (ox1 (ni nb)) Hi Ci Q1 R1 T1 H1 H1.
  - axis (ox1 (ni nb)) Hi Ci Q1 R1 T1 H1 H1.
  - axis (ox2 (ni nb)) Hj Cj Q2 R2 T2 H2 Hd2.
  - axis (ox2 (ni nb)) Hj Cj Q2 R2 T2 H2 Hd2.
Qed.

Lemma fromfiner_bx3_displaced :
  s3 = mkBox (si l3 + di) (ei l3 + di) (sj l3 + dj) (ej l3 + dj) (sk l3 + dk) (ek l3 + dk).
Proof.
  subst s3 l3. unfold fromfiner_bx3, coarser_bx3. rewrite fromfiner_bx2_displaced.
  subst di dj dk bs. prepare. unfold widen_pack, widen_unpack, take_half, fine_origin.
  cbn [si ei sj ej sk ek]. rewrite Hsize, M2, M3, M4, Q2, Q3.
  f_equal.
  - axis (ox2 (ni nb)) Hj Cj Q2 R2 T2 H2 Hd2.
  - axis (ox2 (ni nb)) Hj Cj Q2 R2 T2 H2 Hd2.
  - axis (ox3 (ni nb)) Hk Ck Q3 R3 T3 H3 Hd3.
  - axis (ox3 (ni nb)) Hk Ck Q3 R3 T3 H3 Hd3.
Qed.

Lemma coarser_indices :
  box_indices s1 = to_coarse_receiver fine receiver nb' <$> box_indices l1 /\
  box_indices s2 = to_coarse_receiver fine receiver nb' <$> box_indices l2 /\
  box_indices s3 = to_coarse_receiver fine receiver nb' <$> box_indices l3.
Proof.
  rewrite fromfiner_bx1_displaced, fromfiner_bx2_displaced, fromfiner_bx3_displaced.
  unfold to_coarse_receiver. fold bs dk dj di.
  split; [|split]; apply box_indices_displace.
Qed.

Lemma fromfiner_single_plane :
  (nx2 bs = 1 -> ej s2 = sj s2) /\ (nx3 bs = 1 -> ek s3 = sk s3).
Proof.
  subst s3 s2 bs. prepare. unfold fromfiner_bx3, fromfiner_bx2, widen_unpack, take_half.
  cbn [si ei sj ej sk ek]. rewrite M2, M3.
  split; intros Hn.
  - rewrite (Hd2 Hn) in *. clear - Hj Hn. crunch.
  - rewrite (Hd3 Hn) in *. clear - Hk Hn. crunch.
Qed.

Variables var coarse_buf var' : FaceField Real.
Variable buf0 : Buffer Real.

Let sent := LoadBoundaryBufferToCoarser Real NGHOST RestrictFieldX1 RestrictFieldX2
              RestrictFieldX3 fine var coarse_buf buf0 nb.
Let out := SetBoundaryFromFiner Real NGHOST receiver sent.1.1 nb' var'.

Let c1 := RestrictFieldX1 (x1f Real var) (x1f Real coarse_buf) l1.
Let c2 := if decide (nx2 (block_size (block fine)) = 1)
          then copy_x2f_plane Real (RestrictFieldX2 (x2f Real var) (x2f Real coarse_buf) l2) l2
          else RestrictFieldX2 (x2f Real var) (x2f Real coarse_buf) l2.
Let c3 := if decide (nx3 (block_size (block fine)) = 1)
          then copy_x3f_plane Real (RestrictFieldX3 (x3f Real var) (x3f Real coarse_buf) l3) l3
          else RestrictFieldX3 (x3f Real var) (x3f Real coarse_buf) l3.

Lemma LoadBoundaryBufferToCoarser_packs :
  sent = (PackData Real c3
            (PackData Real c2 (PackData Real c1 buf0 l1 0).1 l2
               (PackData Real c1 buf0 l1 0).2).1 l3
            (PackData Real c2 (PackData Real c1 buf0 l1 0).1 l2
               (PackData Real c1 buf0 l1 0).2).2,
          mkFF Real c1 c2 c3).
Proof.
  subst sent. unfold LoadBoundaryBufferToCoarser. fold l1. fold c1.
  destruct (PackData Real c1 buf0 l1 0) as [b1 p1]. fold l2. fold c2. cbn [fst snd].
  destruct (PackData Real c2 b1 l2 p1) as [b2 p2]. fold l3. fold c3. cbn [fst snd].
  by destruct (PackData Real c3 b2 l3 p2) as [b3 p3].
Qed.

Lemma SetBoundaryFromFiner_fields (buf : Buffer Real) :
  let u1 := UnpackData Real buf (x1f Real var') s1 0 in
  let u2 := UnpackData Real buf (x2f Real var') s2 u1.2 in
  let u3 := UnpackData Real buf (x3f Real var') s3 u2.2 in
  let o := SetBoundaryFromFiner Real NGHOST receiver buf nb' var' in
  x1f Real o = u1.1 /\
  x2f Real o = (if decide (nx2 bs = 1) then copy_x2f_plane Real u2.1 s2 else u2.1) /\
  x3f Real o = (if decide (nx3 bs = 1) then copy_x3f_plane Real u3.1 s3 else u3.1).
Proof.
  intros u1 u2 u3 o. subst o. unfold SetBoundaryFromFiner. fold bs.
  fold s1. fold u1. destruct u1 as [a1 p1] eqn:E1. fold s2. simpl in u2. fold u2.
  destruct u2 as [a2 p2] eqn:E2. fold s3. simpl in u3. fold u3.
  destruct u3 as [a3 p3] eqn:E3. done.
Qed.

(** Restricting and packing on the fine sender and unpacking on the coarse
    receiver. *)
Lemma coarser_roundtrip :
  Z.of_nat sent.1.2
  = Z.of_nat (length (box_indices l1) + length (box_indices l2) + length (box_indices l3)) /\
  (forall x, x ∈ box_indices l1 ->
     x1f Real out (to_coarse_receiver fine receiver nb' x) = x1f Real sent.2 x) /\
  (forall x, x ∈ box_indices l2 ->
     x2f Real out (to_coarse_receiver fine receiver nb' x) = x2f Real sent.2 x) /\
  (forall x, x ∈ box_indices l3 ->
     x3f Real out (to_coarse_receiver fine receiver nb' x) = x3f Real sent.2 x).
Proof.
  destruct coarser_indices as (I1 & I2 & I3).
  destruct fromfiner_single_plane as (S2 & S3).
  pose proof (three_stage l1 l2 l3 s1 s2 s3 _ I1 I2 I3 c1 c2 c3
                (x1f Real var') (x2f Real var') (x3f Real var') buf0)
    as (C3 & _ & U1 & U2 & U3 & _).
  destruct (SetBoundaryFromFiner_fields sent.1.1) as (E1 & E2 & E3).
  fold out in E1, E2, E3. rewrite E1, E2, E3. clear E1 E2 E3.
  rewrite LoadBoundaryBufferToCoarser_packs. cbn [fst snd x1f x2f x3f].
  split; [by rewrite C3|]. split; [exact U1|]. split.
  - intros x Hx. destruct (decide (nx2 bs = 1)) as [Hn|Hn]; [|by apply U2].
    rewrite copy_x2f_plane_keeps; [by apply U2|].
    assert (to_coarse_receiver fine receiver nb' x ∈ box_indices s2) as Hin
      by (rewrite I2; by apply list_elem_of_fmap_2).
    destruct (to_coarse_receiver fine receiver nb' x) as [[k j] i].
    apply elem_of_box_indices in Hin as (_ & Hj & _).
    specialize (S2 Hn). cbn [fst snd]. lia.
  - intros x Hx. destruct (decide (nx3 bs = 1)) as [Hn|Hn]; [|by apply U3].
    rewrite copy_x3f_plane_keeps; [by apply U3|].
    assert (to_coarse_receiver fine receiver nb' x ∈ box_indices s3) as Hin
      by (rewrite I3; by apply list_elem_of_fmap_2).
    destruct (to_coarse_receiver fine receiver nb' x) as [[k j] i].
    apply elem_of_box_indices in Hin as (Hk & _ & _).
    specialize (S3 Hn). cbn [fst snd]. lia.
Qed.
End ToCoarser.

(** ** The counts of the cross-level routines *)

Section CrossSizes.
Variable NGHOST : Z.
Variable pmb : LevelBlock.
Variable nb : NeighborBlock.
Hypothesis Hghost : 0 < NGHOST.
Hypothesis Hcng : 0 <= cnghost pmb.
Hypothesis Hhalv : halvable_block (block pmb).
Hypothesis Hshape : shape_ok (block pmb).
Hypothesis Hcshape : c_shape_ok pmb.
Hypothesis Hrel : relation_ok (block pmb) nb.
Hypothesis Hdims : dims_ok pmb.

Let bs := block_size (block pmb).
Let cng := cnghost pmb.
Let f2 : Z := if decide (ndim pmb >= 2) then 1 else 0.
Let f3 : Z := if decide (ndim pmb >= 3) then 1 else 0.
Let h1 := (nx1 bs + 1) `quot` 2.
Let h2 := (nx2 bs + 1) `quot` 2.
Let h3 := (nx3 bs + 1) `quot` 2.
Let wide (ox : Z) : Z :=
  if decide (type (ni nb) <> face) then if decide (ox <> 0) then 1 else 0 else 0.

Let E1i := if decide (ox1 (ni nb) = 0) then h1 + cng + 1 else cng + 1.
Let E1j := if decide (ox2 (ni nb) = 0) then h2 + cng * f2 else cng.
Let E1k := if decide (ox3 (ni nb) = 0) then h3 + cng * f3 else cng.
Let E2i := if decide (ox1 (ni nb) = 0) then h1 + cng else cng.
Let E2j := if decide (ox2 (ni nb) = 0) then h2 + cng * f2 + f2 else cng + 1.
Let E3k := if decide (ox3 (ni nb) = 0) then h3 + cng * f3 + f3 else cng + 1.

Let F1i := (if decide (ox1 (ni nb) = 0) then h1 + 1 else NGHOST) + wide (ox1 (ni nb)).
Let F1j := if decide (ox2 (ni nb) = 0) then h2 else NGHOST.
Let F1k := if decide (ox3 (ni nb) = 0) then h3 else NGHOST.
Let F2i := if decide (ox1 (ni nb) = 0) then h1 else NGHOST.
Let F2j := (if decide (ox2 (ni nb) = 0) then h2 + f2 else NGHOST) + wide (ox2 (ni nb)).
Let F3k := (if decide (ox3 (ni nb) = 0) then h3 + f3 else NGHOST) + wide (ox3 (ni nb)).

Ltac split_offset o :=
  let E := fresh "E" in
  assert (o = -1 \/ o = 0 \/ o = 1) as [E|[E|E]] by lia; rewrite E in *.

Ltac prepare :=
  destruct Hshape as (Hi & Hj & Hk);
  destruct Hcshape as (Ci & Cj & Ck);
  destruct Hhalv as (V1 & V2 & V3);
  destruct Hrel as ((H1 & H2 & H3) & Hd2 & Hd3);
  destruct Hdims as (D2 & D3);
  cbv zeta in Ci, Cj, Ck;
  apply halvable_quot in V1 as (Q1 & Q1' & R1 & T1);
  apply halvable_quot in V2 as (Q2 & Q2' & R2 & T2);
  apply halvable_quot in V3 as (Q3 & Q3' & R3 & T3);
  unfold offset_ok in *.

Ltac crunch :=
  repeat (first [case_decide|case_bool_decide]; cbn [fst snd]; try lia).

Ltac axis o Hs Hc Hq Hr Ht Ho Hd HD :=
  clear - Hs Hc Hq Hr Ht Ho Hd HD Hcng Hghost; split_offset o; crunch.

Ltac unfold_all :=
  unfold E1i, E1j, E1k, E2i, E2j, E3k, F1i, F1j, F1k, F2i, F2j, F3k,
    wide, h1, h2, h3, f2, f3, cng, bs.

Lemma finer_bx1_extents :
  let b := finer_bx1 pmb nb in
  ei b - si b + 1 = E1i /\ ej b - sj b + 1 = E1j /\ ek b - sk b + 1 = E1k.
Proof.
  unfold_all. prepare. unfold finer_bx1, take_half. cbn [si ei sj ej sk ek].
  rewrite Q1, Q2, Q3, Q1', Q2', Q3'. split; [|split].
  - axis (ox1 (ni nb)) Hi Ci Q1 R1 T1 H1 H1 H1.
  - axis (ox2 (ni nb)) Hj Cj Q2 R2 T2 H2 Hd2 D2.
  - axis (ox3 (ni nb)) Hk Ck Q3 R3 T3 H3 Hd3 D3.
Qed.

Lemma finer_bx2_extents :
  let b := finer_bx2 pmb nb (finer_bx1 pmb nb) in
  ei b - si b + 1 = E2i /\ ej b - sj b + 1 = E2j /\ ek b - sk b + 1 = E1k.
Proof.
  destruct finer_bx1_extents as (_ & _ & K). cbv zeta.
  split; [|split; [|exact K]]; clear K; unfold_all; prepare;
    unfold finer_bx2, take_half; cbn [si ei sj ej sk ek];
    rewrite ?Q1, ?Q2, ?Q1', ?Q2'.
  - axis (ox1 (ni nb)) Hi Ci Q1 R1 T1 H1 H1 H1.
  - axis (ox2 (ni nb)) Hj Cj Q2 R2 T2 H2 Hd2 D2.
Qed.

Lemma finer_bx3_extents :
  let b := finer_bx3 pmb nb (finer_bx2 pmb nb (finer_bx1 pmb nb)) in
  ei b - si b + 1 = E2i /\ ej b - sj b + 1 = E1j /\ ek b - sk b + 1 = E3k.
Proof.
  destruct finer_bx2_extents as (I & _ & _). cbv zeta.
  split; [exact I|]. clear I. split; unfold_all; prepare;
    unfold finer_bx3, take_half; cbn [si ei sj ej sk ek];
    rewrite ?Q2, ?Q3, ?Q2', ?Q3'.
  - axis (ox2 (ni nb)) Hj Cj Q2 R2 T2 H2 Hd2 D2.
  - axis (ox3 (ni nb)) Hk Ck Q3 R3 T3 H3 Hd3 D3.
Qed.

Lemma fromcoarser_bx1_extents :
  let b := fromcoarser_bx1 pmb nb in
  ei b - si b + 1 = E1i /\ ej b - sj b + 1 = E1j /\ ek b - sk b + 1 = E1k.
Proof.
  unfold_all. prepare. unfold fromcoarser_bx1, pad_half. cbn [si ei sj ej sk ek].
  rewrite Q1', Q2', Q3'. split; [|split].
  - axis (ox1 (ni nb)) Hi Ci Q1 R1 T1 H1 H1 H1.
  - axis (ox2 (ni nb)) Hj Cj Q2 R2 T2 H2 Hd2 D2.
  - axis (ox3 (ni nb)) Hk Ck Q3 R3 T3 H3 Hd3 D3.
Qed.

Lemma fromcoarser_bx2_extents :
  let b := fromcoarser_bx2 pmb nb (fromcoarser_bx1 pmb nb) in
  ei b - si b + 1 = E2i /\ ej b - sj b + 1 = E2j /\ ek b - sk b + 1 = E1k.
Proof.
  destruct fromcoarser_bx1_extents as (_ & _ & K). cbv zeta.
  split; [|split; [|exact K]]; clear K; unfold_all; prepare;
    unfold fromcoarser_bx2, pad_half; cbn [si ei sj ej sk ek];
    rewrite ?Q1', ?Q2'.
  - axis (ox1 (ni nb)) Hi Ci Q1 R1 T1 H1 H1 H1.
  - axis (ox2 (ni nb)) Hj Cj Q2 R2 T2 H2 Hd2 D2.
Qed.

Lemma fromcoarser_bx3_extents :
  let b := fromcoarser_bx3 pmb nb (fromcoarser_bx2 pmb nb (fromcoarser_bx1 pmb nb)) in
  ei b - si b + 1 = E2i /\ ej b - sj b + 1 = E1j /\ ek b - sk b + 1 = E3k.
Proof.
  destruct fromcoarser_bx2_extents as (I & _ & _). cbv zeta.
  split; [exact I|]. clear I. split; unfold_all; prepare;
    unfold fromcoarser_bx3, pad_half; cbn [si ei sj ej sk ek];
    rewrite ?Q2', ?Q3'.
  - axis (ox2 (ni nb)) Hj Cj Q2 R2 T2 H2 Hd2 D2.
  - axis (ox3 (ni nb)) Hk Ck Q3 R3 T3 H3 Hd3 D3.
Qed.

Lemma coarser_bx1_extents :
  let b := coarser_bx1 NGHOST pmb nb in
  ei b - si b + 1 = F1i /\ ej b - sj b + 1 = F1j /\ ek b - sk b + 1 = F1k.
Proof.
  unfold_all. prepare. unfold coarser_bx1, widen_pack. cbn [si ei sj ej sk ek].
  rewrite Q1', Q2', Q3'. split; [|split].
  - axis (ox1 (ni nb)) Hi Ci Q1 R1 T1 H1 H1 H1.
  - axis (ox2 (ni nb)) Hj Cj Q2 R2 T2 H2 Hd2 D2.
  - axis (ox3 (ni nb)) Hk Ck Q3 R3 T3 H3 Hd3 D3.
Qed.

Lemma coarser_bx2_extents :
  let b := coarser_bx2 NGHOST pmb nb (coarser_bx1 NGHOST pmb nb) in
  ei b - si b + 1 = F2i /\ ej b - sj b + 1 = F2j /\ ek b - sk b + 1 = F1k.
Proof.
  destruct coarser_bx1_extents as (_ & _ & K). cbv zeta.
  split; [|split; [|exact K]]; clear K; unfold_all; prepare;
    unfold coarser_bx2, widen_pack; cbn [si ei sj ej sk ek];
    rewrite ?Q1', ?Q2'.
  - axis (ox1 (ni nb)) Hi Ci Q1 R1 T1 H1 H1 H1.
  - axis (ox2 (ni nb)) Hj Cj Q2 R2 T2 H2 Hd2 D2.
Qed.

Lemma coarser_bx3_extents :
  let b := coarser_bx3 NGHOST pmb nb (coarser_bx2 NGHOST pmb nb (coarser_bx1 NGHOST pmb nb)) in
  ei b - si b + 1 = F2i /\ ej b - sj b + 1 = F1j /\ ek b - sk b + 1 = F3k.
Proof.
  destruct coarser_bx2_extents as (I & _ & _). cbv zeta.
  split; [exact I|]. clear I. split; unfold_all; prepare;
    unfold coarser_bx3, widen_pack; cbn [si ei sj ej sk ek];
    rewrite ?Q2', ?Q3'.
  - axis (ox2 (ni nb)) Hj Cj Q2 R2 T2 H2 Hd2 D2.
  - axis (ox3 (ni nb)) Hk Ck Q3 R3 T3 H3 Hd3 D3.
Qed.

Lemma fromfiner_bx1_extents :
  let b := fromfiner_bx1 NGHOST pmb nb in
  ei b - si b + 1 = F1i /\ ej b - sj b + 1 = F1j /\ ek b - sk b + 1 = F1k.
Proof.
  unfold_all. prepare. unfold fromfiner_bx1, widen_unpack, take_half.
  cbn [si ei sj ej sk ek].
  rewrite Q1, Q2, Q3, Q1', Q2', Q3'. split; [|split].
  - axis (ox1 (ni nb)) Hi Ci Q1 R1 T1 H1 H1 H1.
  - axis (ox2 (ni nb)) Hj Cj Q2 R2 T2 H2 Hd2 D2.
  - axis (ox3 (ni nb)) Hk Ck Q3 R3 T3 H3 Hd3 D3.
Qed.

Lemma fromfiner_bx2_extents :
  let b := fromfiner_bx2 NGHOST pmb nb (fromfiner_bx1 NGHOST pmb nb) in
  ei b - si b + 1 = F2i /\ ej b - sj b + 1 = F2j /\ ek b - sk b + 1 = F1k.
Proof.
  destruct fromfiner_bx1_extents as (_ & _ & K). cbv zeta.
  split; [|split; [|exact K]]; clear K; unfold_all; prepare;
    unfold fromfiner_bx2, widen_unpack, take_half; cbn [si ei sj ej sk ek];
    rewrite ?Q1, ?Q2, ?Q1', ?Q2'.
  - axis (ox1 (ni nb)) Hi Ci Q1 R1 T1 H1 H1 H1.
  - axis (ox2 (ni nb)) Hj Cj Q2 R2 T2 H2 Hd2 D2.
Qed.

Lemma fromfiner_bx3_extents :
  let b := fromfiner_bx3 NGHOST pmb nb
             (fromfiner_bx2 NGHOST pmb nb (fromfiner_bx1 NGHOST pmb nb)) in
  ei b - si b + 1 = F2i /\ ej b - sj b + 1 = F1j /\ ek b - sk b + 1 = F3k.
Proof.
  destruct fromfiner_bx2_extents as (I & _ & _). cbv zeta.
  split; [exact I|]. clear I. split; unfold_all; prepare;
    unfold fromfiner_bx3, widen_unpack, take_half; cbn [si ei sj ej sk ek];
    rewrite ?Q2, ?Q3, ?Q2', ?Q3'.
  - axis (ox2 (ni nb)) Hj Cj Q2 R2 T2 H2 Hd2 D2.
  - axis (ox3 (ni nb)) Hk Ck Q3 R3 T3 H3 Hd3 D3.
Qed.

Let csizeE := E1i * E1j * E1k + E2i * E2j * E1k + E2i * E1j * E3k.
Let fsizeE := F1i * F1j * F1k + F2i * F2j * F1k + F2i * F1j * F3k.

Lemma extents_nonneg :
  (0 <= E1i /\ 0 <= E1j /\ 0 <= E1k /\ 0 <= E2i /\ 0 <= E2j /\ 0 <= E3k) /\
  (0 <= F1i /\ 0 <= F1j /\ 0 <= F1k /\ 0 <= F2i /\ 0 <= F2j /\ 0 <= F3k).
Proof.
  unfold_all. prepare. rewrite Q1', Q2', Q3'.
  clear - R1 R2 R3 Hcng Hghost. repeat split; crunch.
Qed.

Lemma three_boxes_count (b1 b2 b3 : Box) (a1 a2 a3 c1 c2 c3 d1 d2 d3 : Z) :
  0 <= a1 -> 0 <= a2 -> 0 <= a3 -> 0 <= c1 -> 0 <= c2 -> 0 <= c3 ->
  0 <= d1 -> 0 <= d2 -> 0 <= d3 ->
  (ei b1 - si b1 + 1 = a1 /\ ej b1 - sj b1 + 1 = a2 /\ ek b1 - sk b1 + 1 = a3) ->
  (ei b2 - si b2 + 1 = c1 /\ ej b2 - sj b2 + 1 = c2 /\ ek b2 - sk b2 + 1 = c3) ->
  (ei b3 - si b3 + 1 = d1 /\ ej b3 - sj b3 + 1 = d2 /\ ek b3 - sk b3 + 1 = d3) ->
  Z.of_nat (length (box_indices b1) + length (box_indices b2) + length (box_indices b3))
  = a1 * a2 * a3 + c1 * c2 * c3 + d1 * d2 * d3.
Proof.
  intros ? ? ? ? ? ? ? ? ? (A1 & A2 & A3) (C1 & C2 & C3) (D1 & D2 & D3).
  rewrite !Nat2Z.inj_add.
  rewrite (box_count b1 a1 a2 a3), (box_count b2 c1 c2 c3), (box_count b3 d1 d2 d3);
    done.
Qed.

(** What each of the four routines moves. *)
Lemma cross_counts :
  let count (b1 b2 b3 : Box) :=
    Z.of_nat (length (box_indices b1) + length (box_indices b2) + length (box_indices b3)) in
  count (finer_bx1 pmb nb) (finer_bx2 pmb nb (finer_bx1 pmb nb))
        (finer_bx3 pmb nb (finer_bx2 pmb nb (finer_bx1 pmb nb))) = csizeE /\
  count (fromcoarser_bx1 pmb nb) (fromcoarser_bx2 pmb nb (fromcoarser_bx1 pmb nb))
        (fromcoarser_bx3 pmb nb (fromcoarser_bx2 pmb nb (fromcoarser_bx1 pmb nb)))
    = csizeE /\
  count (coarser_bx1 NGHOST pmb nb) (coarser_bx2 NGHOST pmb nb (coarser_bx1 NGHOST pmb nb))
        (coarser_bx3 NGHOST pmb nb
           (coarser_bx2 NGHOST pmb nb (coarser_bx1 NGHOST pmb nb))) = fsizeE /\
  count (fromfiner_bx1 NGHOST pmb nb)
        (fromfiner_bx2 NGHOST pmb nb (fromfiner_bx1 NGHOST pmb nb))
        (fromfiner_bx3 NGHOST pmb nb
           (fromfiner_bx2 NGHOST pmb nb (fromfiner_bx1 NGHOST pmb nb))) = fsizeE.
Proof.
  destruct extents_nonneg as ((? & ? & ? & ? & ? & ?) & (? & ? & ? & ? & ? & ?)).
  cbv zeta. unfold csizeE, fsizeE. repeat split.
  - apply three_boxes_count; try done;
      [apply finer_bx1_extents|apply finer_bx2_extents|apply finer_bx3_extents].
  - apply three_boxes_count; try done;
      [apply fromcoarser_bx1_extents|apply fromcoarser_bx2_extents
      |apply fromcoarser_bx3_extents].
  - apply three_boxes_count; try done;
      [apply coarser_bx1_extents|apply coarser_bx2_extents|apply coarser_bx3_extents].
  - apply three_boxes_count; try done;
      [apply fromfiner_bx1_extents|apply fromfiner_bx2_extents|apply fromfiner_bx3_extents].
Qed.

Lemma variable_sizes_cross :
  multilevel (block pmb) = true ->
  (variable_sizes NGHOST pmb (ni nb) (cnghost pmb)).2 = Some (csizeE, fsizeE).
Proof.
  intros M. unfold variable_sizes. rewrite M. cbn [snd]. fold bs f2 f3 h1 h2 h3 cng.
  apply f_equal. apply f_equal2; [reflexivity|].
  unfold fsizeE, F1i, F1j, F1k, F2i, F2j, F3k, wide.
  destruct (decide (type (ni nb) <> face)) as [Ht|Ht]; [|ring].
  destruct (decide (ox1 (ni nb) = 0)), (decide (ox2 (ni nb) = 0)),
    (decide (ox3 (ni nb) = 0));
    repeat (case_decide; try lia);
    rewrite ?widen_first, ?widen_second, ?widen_third by done; ring.
Qed.
End CrossSizes.

(** The count three consecutive [PackData] calls reach. *)
Lemma pack3_count {Real : Type} (a1 a2 a3 : Array3D Real) (buf0 : Buffer Real)
      (l1 l2 l3 : Box) :
  (PackData Real a3
     (PackData Real a2 (PackData Real a1 buf0 l1 0).1 l2 (PackData Real a1 buf0 l1 0).2).1 l3
     (PackData Real a2 (PackData Real a1 buf0 l1 0).1 l2 (PackData Real a1 buf0 l1 0).2).2).2
  = (length (box_indices l1) + length (box_indices l2) + length (box_indices l3))%nat.
Proof.
  destruct (PackData_spec a1 buf0 l1 0) as (H1 & _).
  destruct (PackData_spec a2 (PackData Real a1 buf0 l1 0).1 l2
              (PackData Real a1 buf0 l1 0).2) as (H2 & _).
  destruct (PackData_spec a3
              (PackData Real a2 (PackData Real a1 buf0 l1 0).1 l2
                 (PackData Real a1 buf0 l1 0).2).1 l3
              (PackData Real a2 (PackData Real a1 buf0 l1 0).1 l2
                 (PackData Real a1 buf0 l1 0).2).2) as (H3 & _).
  cbv zeta in H1, H2, H3. lia.
Qed.

(** X13.  A coarse block packs with [LoadBoundaryBufferToFiner] and its
    finer neighbour unpacks with [SetBoundaryFromCoarser].  When the
    receiver's relation mirrors the sender's and the relation's
    sub-quadrant flags name the half the receiver lies in, the three
    unpacking boxes are the three packing boxes displaced into the
    receiver's coarse index space, so both sides move the same number of
    values, and every value lands in the receiver's coarse buffer at the
    index that corresponds to the sender's. *)
Theorem to_finer_roundtrip {Real : Type}
        (sender fine : LevelBlock) (nb nb' : NeighborBlock)
        (var coarse_buf : FaceField Real) (buf0 : Buffer Real) :
  shape_ok (block sender) ->
  c_shape_ok fine ->
  block_size (block fine) = block_size (block sender) ->
  cnghost fine = cnghost sender ->
  halvable_block (block sender) ->
  relation_ok (block sender) nb ->
  mirror_relation nb nb' ->
  fine_position_ok fine nb ->
  let sent := LoadBoundaryBufferToFiner Real sender var buf0 nb in
  let out := SetBoundaryFromCoarser Real fine sent.1 nb' coarse_buf in
  let l1 := finer_bx1 sender nb in
  let l2 := finer_bx2 sender nb l1 in
  let l3 := finer_bx3 sender nb l2 in
  let s1 := fromcoarser_bx1 fine nb' in
  let s2 := fromcoarser_bx2 fine nb' s1 in
  let s3 := fromcoarser_bx3 fine nb' s2 in
  let f := to_fine_receiver sender fine nb in
  sent.2 = (length (box_indices l1) + length (box_indices l2) + length (box_indices l3))%nat /\
  (box_indices s1 = f <$> box_indices l1 /\
   box_indices s2 = f <$> box_indices l2 /\
   box_indices s3 = f <$> box_indices l3) /\
  (forall x, x ∈ box_indices l1 -> x1f Real out (f x) = x1f Real var x) /\
  (forall x, x ∈ box_indices l2 -> x2f Real out (f x) = x2f Real var x) /\
  (forall x, x ∈ box_indices l3 -> x3f Real out (f x) = x3f Real var x).
Proof.
  intros Hshape Hcshape Hsize Hcng Hhalv Hrel Hmirror Hpos. cbv zeta.
  split; [|split].
  - rewrite LoadBoundaryBufferToFiner_packs. apply pack3_count.
  - by apply finer_indices.
  - by apply finer_roundtrip.
Qed.

(** X14.  A fine block restricts and packs with
    [LoadBoundaryBufferToCoarser] and its coarser neighbour unpacks with
    [SetBoundaryFromFiner].  When the receiver's relation mirrors the
    sender's, the three unpacking boxes are the three packing boxes
    displaced into the half of the receiver that the flags of its relation
    name, both sides move the same number of values, and the receiver's
    field holds, at the displaced index, the value the sender left in its
    coarse buffer.  This holds for any restriction operator. *)
Theorem to_coarser_roundtrip {Real : Type} (NGHOST : Z)
        (RestrictFieldX1 RestrictFieldX2 RestrictFieldX3 :
           Array3D Real -> Array3D Real -> Box -> Array3D Real)
        (fine receiver : LevelBlock) (nb nb' : NeighborBlock)
        (var coarse_buf var' : FaceField Real) (buf0 : Buffer Real) :
  c_shape_ok fine ->
  shape_ok (block receiver) ->
  block_size (block fine) = block_size (block receiver) ->
  halvable_block (block receiver) ->
  relation_ok (block fine) nb ->
  mirror_relation nb nb' ->
  let sent := LoadBoundaryBufferToCoarser Real NGHOST RestrictFieldX1 RestrictFieldX2
                RestrictFieldX3 fine var coarse_buf buf0 nb in
  let out := SetBoundaryFromFiner Real NGHOST receiver sent.1.1 nb' var' in
  let l1 := coarser_bx1 NGHOST fine nb in
  let l2 := coarser_bx2 NGHOST fine nb l1 in
  let l3 := coarser_bx3 NGHOST fine nb l2 in
  let s1 := fromfiner_bx1 NGHOST receiver nb' in
  let s2 := fromfiner_bx2 NGHOST receiver nb' s1 in
  let s3 := fromfiner_bx3 NGHOST receiver nb' s2 in
  let f := to_coarse_receiver fine receiver nb' in
  sent.1.2
  = (length (box_indices l1) + length (box_indices l2) + length (box_indices l3))%nat /\
  (box_indices s1 = f <$> box_indices l1 /\
   box_indices s2 = f <$> box_indices l2 /\
   box_indices s3 = f <$> box_indices l3) /\
  (forall x, x ∈ box_indices l1 -> x1f Real out (f x) = x1f Real sent.2 x) /\
  (forall x, x ∈ box_indices l2 -> x2f Real out (f x) = x2f Real sent.2 x) /\
  (forall x, x ∈ box_indices l3 -> x3f Real out (f x) = x3f Real sent.2 x).
Proof.
  intros Hcshape Hshape Hsize Hhalv Hrel Hmirror. cbv zeta.
  split; [|split].
  - rewrite LoadBoundaryBufferToCoarser_packs. cbn [fst snd]. apply pack3_count.
  - by apply coarser_indices.
  - by apply coarser_roundtrip.
Qed.

(** X15.  On a multilevel mesh the sizes of [ComputeVariableBufferSize]
    and [SetupPersistentMPI] are the counts of the cross-level routines:
    [csize] is what [LoadBoundaryBufferToFiner] packs and
    [SetBoundaryFromCoarser] unpacks, [fsize] is what
    [LoadBoundaryBufferToCoarser] packs and [SetBoundaryFromFiner] unpacks.
    So the computed buffer size holds either packing, and the two requests
    of a finer or coarser neighbour carry exactly the counts packed and
    unpacked. *)
Theorem cross_level_sizes {Real : Type} (NGHOST : Z)
        (RestrictFieldX1 RestrictFieldX2 RestrictFieldX3 :
           Array3D Real -> Array3D Real -> Box -> Array3D Real)
        (pmb : LevelBlock) (nb : NeighborBlock) (mylevel : Z)
        (var coarse_buf : FaceField Real) (buf : Buffer Real) :
  0 < NGHOST ->
  0 <= cnghost pmb ->
  multilevel (block pmb) = true ->
  halvable_block (block pmb) ->
  shape_ok (block pmb) ->
  c_shape_ok pmb ->
  relation_ok (block pmb) nb ->
  dims_ok pmb ->
  let count (b1 b2 b3 : Box) :=
    Z.of_nat (length (box_indices b1) + length (box_indices b2) + length (box_indices b3)) in
  let to_finer := Z.of_nat (LoadBoundaryBufferToFiner Real pmb var buf nb).2 in
  let to_coarser :=
    Z.of_nat (LoadBoundaryBufferToCoarser Real NGHOST RestrictFieldX1 RestrictFieldX2
                RestrictFieldX3 pmb var coarse_buf buf nb).1.2 in
  let from_coarser :=
    count (fromcoarser_bx1 pmb nb) (fromcoarser_bx2 pmb nb (fromcoarser_bx1 pmb nb))
          (fromcoarser_bx3 pmb nb (fromcoarser_bx2 pmb nb (fromcoarser_bx1 pmb nb))) in
  let from_finer :=
    count (fromfiner_bx1 NGHOST pmb nb)
          (fromfiner_bx2 NGHOST pmb nb (fromfiner_bx1 NGHOST pmb nb))
          (fromfiner_bx3 NGHOST pmb nb
             (fromfiner_bx2 NGHOST pmb nb (fromfiner_bx1 NGHOST pmb nb))) in
  (variable_sizes NGHOST pmb (ni nb) (cnghost pmb)).2 = Some (to_finer, to_coarser) /\
  from_coarser = to_finer /\ from_finer = to_coarser /\
  to_finer <= ComputeVariableBufferSize NGHOST pmb (ni nb) (cnghost pmb) /\
  to_coarser <= ComputeVariableBufferSize NGHOST pmb (ni nb) (cnghost pmb) /\
  (level (snb nb) > mylevel ->
   SetupPersistentMPI_field NGHOST pmb mylevel nb = (Some to_finer, Some from_finer)) /\
  (level (snb nb) < mylevel ->
   SetupPersistentMPI_field NGHOST pmb mylevel nb = (Some to_coarser, Some from_coarser)).
Proof.
  intros Hg Hcng M Hhalv Hshape Hcshape Hrel Hdims count to_finer to_coarser
    from_coarser from_finer.
  destruct (cross_counts NGHOST pmb nb Hg Hcng Hhalv Hshape Hcshape Hrel Hdims)
    as (C1 & C2 & C3 & C4).
  cbv zeta in C1, C2, C3, C4.
  pose proof (variable_sizes_cross NGHOST pmb nb Hg M) as V.
  assert (to_finer = count (finer_bx1 pmb nb) (finer_bx2 pmb nb (finer_bx1 pmb nb))
                       (finer_bx3 pmb nb (finer_bx2 pmb nb (finer_bx1 pmb nb)))) as Ef.
  { unfold to_finer, count. rewrite LoadBoundaryBufferToFiner_packs. f_equal.
    apply pack3_count. }
  assert (to_coarser
          = count (coarser_bx1 NGHOST pmb nb)
              (coarser_bx2 NGHOST pmb nb (coarser_bx1 NGHOST pmb nb))
              (coarser_bx3 NGHOST pmb nb
                 (coarser_bx2 NGHOST pmb nb (coarser_bx1 NGHOST pmb nb)))) as Ec.
  { unfold to_coarser, count. rewrite LoadBoundaryBufferToCoarser_packs. cbn [fst snd].
    f_equal. apply pack3_count. }
  unfold count in Ef, Ec. rewrite <- Ef in C1. rewrite <- Ec in C3.
  fold from_coarser in C2. fold from_finer in C4.
  rewrite <- C1, <- C3 in V. rewrite <- C1 in C2. rewrite <- C3 in C4.
  split; [exact V|]. split; [exact C2|]. split; [exact C4|].
  assert (forall size, variable_sizes NGHOST pmb (ni nb) (cnghost pmb)
                       = (size, Some (to_finer, to_coarser)) ->
            to_finer <= ComputeVariableBufferSize NGHOST pmb (ni nb) (cnghost pmb) /\
            to_coarser <= ComputeVariableBufferSize NGHOST pmb (ni nb) (cnghost pmb)) as Hle.
  { intros size E. unfold ComputeVariableBufferSize. rewrite E. lia. }
  destruct (variable_sizes NGHOST pmb (ni nb) (cnghost pmb)) as [size cf] eqn:E.
  cbn [snd] in V. subst cf.
  destruct (Hle size eq_refl) as [L1 L2].
  split; [exact L1|]. split; [exact L2|].
  unfold SetupPersistentMPI_field. rewrite E. split; intros Hl.
  - rewrite decide_False by lia. rewrite decide_False by lia. cbn [fmap option_fmap option_map fst snd].
    apply f_equal2; [reflexivity|]. apply f_equal. symmetry. exact C4.
  - rewrite decide_False by lia. rewrite decide_True by lia. cbn [fmap option_fmap option_map fst snd].
    apply f_equal2; [reflexivity|]. apply f_equal. symmetry. exact C2.
Qed.

(** ** The example blocks meet the conditions *)

Lemma fc_block_ml_shape : shape_ok LevelExamples.fc_block_ml.
Proof. by repeat split. Defined.

Lemma fc_block_ml_halvable : halvable_block LevelExamples.fc_block_ml.
Proof. repeat split; right; exists 2; split; try reflexivity; lia. Defined.

Lemma lb_c_shape (lx : Z) :
  c_shape_ok (mkLB LevelExamples.fc_block_ml 2 (mkIS 2 3 2 3 2 3) 0 lx 0 3).
Proof. by repeat split. Defined.

Lemma lb_dims (b : Block) (lx : Z) :
  block_size b = mkRS 4 4 4 -> dims_ok (mkLB b 2 (mkIS 2 3 2 3 2 3) 0 lx 0 3).
Proof. intros E. unfold dims_ok. simpl. rewrite E. simpl. lia. Defined.

Lemma face_relation_ok (b : Block) (nb : NeighborBlock) :
  block_size b = mkRS 4 4 4 -> offsets_ok (ni nb) -> relation_ok b nb.
Proof. intros E Ho. split; [done|]. rewrite E. simpl. lia. Defined.

Lemma nb_to_fine_offsets : offsets_ok (ni LevelExamples.nb_to_fine).
Proof. unfold offsets_ok, offset_ok. simpl. lia. Defined.

Lemma nb_to_coarse_offsets : offsets_ok (ni LevelExamples.nb_to_coarse).
Proof. unfold offsets_ok, offset_ok. simpl. lia. Defined.

Lemma nb_to_fine_position :
  fine_position_ok LevelExamples.lb_fine LevelExamples.nb_to_fine.
Proof.
  unfold fine_position_ok, flag_x2, flag_x3. simpl. split; [lia|].
  split; intros _ _; (split; [intros ?|intros ?]); try done; try lia.
Defined.

Lemma ComputeVariableBufferSize_holds_same_level_witness :
  ComputeVariableBufferSize 2 LevelExamples.lb_uniform (ni Examples.fc_nb) 2
  = Z.of_nat (LoadBoundaryBufferSameLevel Z 2 Examples.fc_block Examples.ones
                (fun _ => 0) Examples.fc_nb).2.
Proof.
  refine (proj1 (proj2 (ComputeVariableBufferSize_holds_same_level 2
            LevelExamples.lb_uniform Examples.fc_nb 2 0 Examples.ones (fun _ => 0)
            _ _ _ _ _)) eq_refl).
  - lia.
  - unfold extents_ok. simpl. lia.
  - by repeat split.
  - apply face_relation_ok; [reflexivity|]. unfold offsets_ok, offset_ok. simpl. lia.
  - by apply lb_dims.
Defined.

Lemma to_finer_roundtrip_witness :
  let sent := LoadBoundaryBufferToFiner Z LevelExamples.lb_coarse LevelExamples.ramp
                (fun _ => 0) LevelExamples.nb_to_fine in
  let out := SetBoundaryFromCoarser Z LevelExamples.lb_fine sent.1
               LevelExamples.nb_to_coarse Examples.zeros in
  to_fine_receiver LevelExamples.lb_coarse LevelExamples.lb_fine LevelExamples.nb_to_fine
    (2, 2, 4) = (2, 0, 0) /\
  x1f Z out (2, 0, 0) = 4.
Proof.
  intros sent out. split; [reflexivity|].
  destruct (to_finer_roundtrip LevelExamples.lb_coarse LevelExamples.lb_fine
              LevelExamples.nb_to_fine LevelExamples.nb_to_coarse LevelExamples.ramp
              Examples.zeros (fun _ => 0)
              fc_block_ml_shape (lb_c_shape 1) eq_refl eq_refl fc_block_ml_halvable
              (face_relation_ok LevelExamples.fc_block_ml LevelExamples.nb_to_fine eq_refl
                 nb_to_fine_offsets)
              ltac:(by repeat split) nb_to_fine_position)
    as (_ & _ & H & _).
  apply (H (2, 2, 4)). apply elem_of_box_indices. vm_compute. repeat split; discriminate.
Defined.

Lemma to_coarser_roundtrip_witness :
  let sent := LoadBoundaryBufferToCoarser Z 2 LevelExamples.sample LevelExamples.sample
                LevelExamples.sample LevelExamples.lb_fine LevelExamples.ramp
                Examples.zeros (fun _ => 0) LevelExamples.nb_to_coarse in
  let out := SetBoundaryFromFiner Z 2 LevelExamples.lb_coarse sent.1.1
               LevelExamples.nb_to_fine Examples.zeros in
  to_coarse_receiver LevelExamples.lb_fine LevelExamples.lb_coarse LevelExamples.nb_to_fine
    (2, 2, 3) = (2, 4, 7) /\
  x1f Z out (2, 4, 7) = 6.
Proof.
  intros sent out. split; [reflexivity|].
  destruct (to_coarser_roundtrip 2 LevelExamples.sample LevelExamples.sample
              LevelExamples.sample LevelExamples.lb_fine LevelExamples.lb_coarse
              LevelExamples.nb_to_coarse LevelExamples.nb_to_fine LevelExamples.ramp
              Examples.zeros Examples.zeros (fun _ => 0)
              (lb_c_shape 1) fc_block_ml_shape eq_refl fc_block_ml_halvable
              (face_relation_ok LevelExamples.fc_block_ml LevelExamples.nb_to_coarse eq_refl
                 nb_to_coarse_offsets)
              ltac:(by repeat split))
    as (_ & _ & H & _).
  apply (H (2, 2, 3)). apply elem_of_box_indices. vm_compute. repeat split; discriminate.
Defined.

Lemma cross_level_sizes_witness :
  SetupPersistentMPI_field 2 LevelExamples.lb_coarse 0 LevelExamples.nb_to_fine
  = (Some (Z.of_nat (LoadBoundaryBufferToFiner Z LevelExamples.lb_coarse LevelExamples.ramp
                       (fun _ => 0) LevelExamples.nb_to_fine).2),
     Some (Z.of_nat (LoadBoundaryBufferToCoarser Z 2 LevelExamples.sample
                       LevelExamples.sample LevelExamples.sample LevelExamples.lb_coarse
                       LevelExamples.ramp Examples.zeros (fun _ => 0)
                       LevelExamples.nb_to_fine).1.2)).
Proof.
  destruct (cross_level_sizes 2 LevelExamples.sample LevelExamples.sample
              LevelExamples.sample LevelExamples.lb_coarse LevelExamples.nb_to_fine 0
              LevelExamples.ramp Examples.zeros (fun _ => 0)
              ltac:(lia) ltac:(simpl; lia) eq_refl fc_block_ml_halvable fc_block_ml_shape
              (lb_c_shape 0) (face_relation_ok LevelExamples.fc_block_ml LevelExamples.nb_to_fine eq_refl
                 nb_to_fine_offsets)
              (lb_dims LevelExamples.fc_block_ml 0 eq_refl))
    as (_ & _ & E & _ & _ & H & _).
  rewrite H by (simpl; lia). by rewrite E.
Defined.

Import Requests.

(** ** Persistent requests *)

Section RequestFacts.

(** The request arrays that the flux-correction part of
    [SetupPersistentMPI] initialises for one neighbour. *)
Lemma flcor_arrays (pmb : Block) (mylevel : Z) (n : Neighbor) (flag : bool) (size : Z) :
  (fun c => (flux_request n c).1)
    <$> SetupPersistentMPI_flcor pmb mylevel (nbk n) (fid n) (eid n) flag size
  = if decide (type (ni (nbk n)) = face \/ type (ni (nbk n)) = edge) then
      (if decide (level (snb (nbk n)) = mylevel) then
         if decide (type (ni (nbk n)) = face \/ (type (ni (nbk n)) = edge /\ flag = true))
         then [(flux_send, bufid n); (flux_recv, bufid n)] else []
       else [])
      ++ (if decide (level (snb (nbk n)) > mylevel) then [(flux_recv, bufid n)] else [])
      ++ (if decide (level (snb (nbk n)) < mylevel) then [(flux_send, bufid n)] else [])
    else [].
Proof.
  unfold SetupPersistentMPI_flcor.
  match goal with
  | |- context [match ?s with Some _ => _ | None => _ end] =>
      assert (if decide (type (ni (nbk n)) = face \/ type (ni (nbk n)) = edge)
              then is_Some s else s = None) as Hs
  end.
  { destruct (decide (type (ni (nbk n)) = face)) as [Hf|Hf].
    - rewrite decide_True by (by left). repeat case_decide; by eexists.
    - destruct (decide (type (ni (nbk n)) = edge)) as [He|He].
      + rewrite decide_True by (by right). repeat case_decide; by eexists.
      + rewrite decide_False by (intros [?|?]; done). done. }
  destruct (decide (type (ni (nbk n)) = face \/ type (ni (nbk n)) = edge)) as [Ht|Ht].
  - destruct Hs as [[sz f2c] ->]. rewrite !fmap_app.
    repeat case_decide; reflexivity.
  - by rewrite Hs.
Qed.

Lemma shares_flux_true (ec : EdgeCounts) (n : Neighbor) :
  shares_flux ec n = true <->
  type (ni (nbk n)) = face \/
  (type (ni (nbk n)) = edge /\ edge_flag_ ec (Z.to_nat (eid n)) = true).
Proof.
  unfold shares_flux. rewrite orb_true_iff, andb_true_iff, !bool_decide_eq_true. done.
Qed.
End RequestFacts.

Section RequestLists.

Lemma filter_bind_list {A B} (P : B -> Prop) `{forall x, Decision (P x)}
      (g : A -> list B) (l : list A) :
  filter P (l ≫= g) = l ≫= (fun x => filter P (g x)).
Proof.
  induction l as [|x l IH]; [done|]. by rewrite !bind_cons, filter_app, IH.
Qed.

Lemma waited_bind {A} (g : A -> list Cleared) (l : list A) :
  waited (l ≫= g) = l ≫= (fun x => waited (g x)).
Proof.
  unfold waited. induction l as [|x l IH]; [done|].
  by rewrite !bind_cons, bind_app, IH.
Qed.

Lemma bind_subseteq {A B} (g h : A -> list B) (l : list A) :
  (forall x, g x ⊆ h x) -> l ≫= g ⊆ l ≫= h.
Proof.
  intros Hgh y Hy. apply list_elem_of_bind in Hy as (x & Hy & Hx).
  apply list_elem_of_bind. exists x. split; [by apply Hgh|done].
Qed.
End RequestLists.

Section SetUp.
Variable NGHOST : Z.
Variable my_rank : Z.
Variable nblevel : nblevel_t.
Variable pmb : LevelBlock.
Variable mylevel : Z.
Variable ec : EdgeCounts.

(** The arrays set up for one neighbour, the request started and the
    requests waited on for it. *)
Let set_up_for (n : Neighbor) : list Request :=
  if decide (rank (snb (nbk n)) <> my_rank) then
    [(field_send, bufid n); (field_recv, bufid n)]
    ++ ((fun c => (flux_request n c).1)
          <$> SetupPersistentMPI_flcor (block pmb) mylevel (nbk n) (fid n) (eid n)
                (edge_flag_ ec (Z.to_nat (eid n)))
                (variable_sizes NGHOST pmb (ni (nbk n)) (cnghost pmb)).1)
  else [].

Lemma SetupPersistentMPI_requests (neighbor : list Neighbor) (ec0 : EdgeCounts) :
  CountFineEdges nblevel mylevel (nx2 (block_size (block pmb)))
    (nx3 (block_size (block pmb))) ec0 = ec ->
  fst <$> (SetupPersistentMPI NGHOST true my_rank nblevel pmb mylevel neighbor ec0).2
  = neighbor ≫= set_up_for.
Proof.
  intros E. unfold SetupPersistentMPI. cbn [snd]. rewrite E.
  rewrite fmap_bind_list. apply list_bind_ext; [|done]. intros n. unfold set_up_for.
  destruct (decide (rank (snb (nbk n)) <> my_rank)); [|done].
  destruct (SetupPersistentMPI_field NGHOST pmb mylevel (nbk n)) as [ssize rsize].
  rewrite fmap_app. cbn [fmap list_fmap fst]. by rewrite <- list_fmap_compose.
Qed.

Ltac absurd_case := exfalso; intuition (first [congruence | lia]).

Lemma started_for (n : Neighbor) (phase : BoundaryCommSubset) :
  let started :=
    if decide (rank (snb (nbk n)) <> my_rank /\ phase <> gr_amr) then
      [(field_recv, bufid n)]
      ++ (if decide (phase = all /\
                     (type (ni (nbk n)) = face \/ type (ni (nbk n)) = edge)) then
            if decide (level (snb (nbk n)) > mylevel \/
                       (level (snb (nbk n)) = mylevel /\ shares_flux ec n = true))
            then [(flux_recv, bufid n)] else []
          else [])
    else [] in
  started ⊆ set_up_for n /\
  (phase = all ->
   started = filter (fun r => r.1 = field_recv \/ r.1 = flux_recv) (set_up_for n)).
Proof.
  cbv zeta. pose proof (shares_flux_true ec n) as Hs.
  assert (phase = all ->
   (if decide (rank (snb (nbk n)) <> my_rank /\ phase <> gr_amr) then
      [(field_recv, bufid n)]
      ++ (if decide (phase = all /\
                     (type (ni (nbk n)) = face \/ type (ni (nbk n)) = edge)) then
            if decide (level (snb (nbk n)) > mylevel \/
                       (level (snb (nbk n)) = mylevel /\ shares_flux ec n = true))
            then [(flux_recv, bufid n)] else []
          else [])
    else [])
   = filter (fun r => r.1 = field_recv \/ r.1 = flux_recv) (set_up_for n)) as Hall.
  { intros ->. unfold set_up_for. rewrite flcor_arrays.
    destruct (shares_flux ec n); repeat (case_decide; try done);
      first [reflexivity | absurd_case]. }
  split; [|exact Hall].
  destruct phase.
  - unfold set_up_for. repeat (case_decide; try done);
      first [absurd_case | apply list_subseteq_nil | idtac].
    rewrite app_nil_r. intros r ->%list_elem_of_singleton. right. left.
  - rewrite decide_False by (intros [_ H]; by apply H). apply list_subseteq_nil.
  - rewrite Hall by done. intros r Hr. by apply list_elem_of_filter in Hr as [_ ?].
Qed.
Lemma waited_for (n : Neighbor) (phase : BoundaryCommSubset) :
  let waited_on :=
    if decide (rank (snb (nbk n)) <> my_rank /\ phase <> gr_amr) then
      [(field_send, bufid n)]
      ++ (if decide (phase = all) then
            if decide (type (ni (nbk n)) = face \/ type (ni (nbk n)) = edge) then
              if decide (level (snb (nbk n)) < mylevel) then [(flux_send, bufid n)]
              else if decide (level (snb (nbk n)) = mylevel /\ shares_flux ec n = true)
                   then [(flux_send, bufid n)] else []
            else []
          else [])
    else [] in
  waited_on ⊆ set_up_for n /\
  (phase = all ->
   waited_on = filter (fun r => r.1 = field_send \/ r.1 = flux_send) (set_up_for n)).
Proof.
  cbv zeta. pose proof (shares_flux_true ec n) as Hs.
  assert (phase = all ->
    (if decide (rank (snb (nbk n)) <> my_rank /\ phase <> gr_amr) then
      [(field_send, bufid n)]
      ++ (if decide (phase = all) then
            if decide (type (ni (nbk n)) = face \/ type (ni (nbk n)) = edge) then
              if decide (level (snb (nbk n)) < mylevel) then [(flux_send, bufid n)]
              else if decide (level (snb (nbk n)) = mylevel /\ shares_flux ec n = true)
                   then [(flux_send, bufid n)] else []
            else []
          else [])
    else [])
    = filter (fun r => r.1 = field_send \/ r.1 = flux_send) (set_up_for n)) as Hall.
  { intros ->. unfold set_up_for. rewrite flcor_arrays.
    destruct (shares_flux ec n); repeat (case_decide; try done);
      first [reflexivity | absurd_case]. }
  split; [|exact Hall].
  destruct phase.
  - unfold set_up_for. repeat (case_decide; try done);
      first [absurd_case | apply list_subseteq_nil | idtac].
    rewrite app_nil_r. intros r ->%list_elem_of_singleton. left.
  - rewrite decide_False by (intros [_ H]; by apply H). apply list_subseteq_nil.
  - rewrite Hall by done. intros r Hr. by apply list_elem_of_filter in Hr as [_ ?].
Qed.

Lemma waited_ClearBoundary (neighbor : list Neighbor) (phase : BoundaryCommSubset) :
  waited (ClearBoundary true my_rank mylevel neighbor ec phase)
  = neighbor ≫= (fun n =>
      if decide (rank (snb (nbk n)) <> my_rank /\ phase <> gr_amr) then
        [(field_send, bufid n)]
        ++ (if decide (phase = all) then
              if decide (type (ni (nbk n)) = face \/ type (ni (nbk n)) = edge) then
                if decide (level (snb (nbk n)) < mylevel) then [(flux_send, bufid n)]
                else if decide (level (snb (nbk n)) = mylevel /\ shares_flux ec n = true)
                     then [(flux_send, bufid n)] else []
              else []
            else [])
      else []).
Proof.
  unfold ClearBoundary. rewrite waited_bind. apply list_bind_ext; [|done]. intros n.
  unfold waited. repeat (case_decide; try done).
Qed.

(** Requests started, waited on and set up, over a whole neighbour list. *)
Lemma requests_of_neighbors (neighbor : list Neighbor) (ec0 : EdgeCounts)
      (flx : bool) (phase : BoundaryCommSubset) :
  CountFineEdges nblevel mylevel (nx2 (block_size (block pmb)))
    (nx3 (block_size (block pmb))) ec0 = ec ->
  let set_up :=
    fst <$> (SetupPersistentMPI NGHOST true my_rank nblevel pmb mylevel neighbor ec0).2 in
  let started := (StartReceiving true my_rank mylevel neighbor ec flx phase).2 in
  let waited_on := waited (ClearBoundary true my_rank mylevel neighbor ec phase) in
  started ⊆ set_up /\ waited_on ⊆ set_up /\
  (phase = all ->
   started = filter (fun r => r.1 = field_recv \/ r.1 = flux_recv) set_up /\
   waited_on = filter (fun r => r.1 = field_send \/ r.1 = flux_send) set_up).
Proof.
  intros E. cbv zeta. rewrite (SetupPersistentMPI_requests neighbor ec0 E).
  rewrite waited_ClearBoundary. unfold StartReceiving. cbn [snd].
  split; [|split; [|intros Hall; split]].
  - apply bind_subseteq. intros n. apply (started_for n phase).
  - apply bind_subseteq. intros n. apply (waited_for n phase).
  - rewrite filter_bind_list. apply list_bind_ext; [|done]. intros n.
    by apply (started_for n phase).
  - rewrite filter_bind_list. apply list_bind_ext; [|done]. intros n.
    by apply (waited_for n phase).
Qed.
End SetUp.

(** X16.  With [MPI_PARALLEL], every request that [StartReceiving] gives
    to [MPI_Start] and every request that [ClearBoundary] gives to
    [MPI_Wait] was initialised by [SetupPersistentMPI] for the same
    neighbour list and the edge flags it computed.  For the phase [all]
    the requests started are exactly the receive requests initialised, and
    the requests waited on exactly the send requests initialised, in the
    same order; for the phase [gr_amr] nothing is started or waited on. *)
Theorem started_and_waited_requests_are_set_up
        (NGHOST my_rank : Z) (nblevel : nblevel_t) (pmb : LevelBlock) (mylevel : Z)
        (neighbor : list Neighbor) (ec0 : EdgeCounts) (flx : bool)
        (phase : BoundaryCommSubset) :
  let su := SetupPersistentMPI NGHOST true my_rank nblevel pmb mylevel neighbor ec0 in
  let set_up := fst <$> su.2 in
  let started := (StartReceiving true my_rank mylevel neighbor su.1 flx phase).2 in
  let waited_on := waited (ClearBoundary true my_rank mylevel neighbor su.1 phase) in
  started ⊆ set_up /\ waited_on ⊆ set_up /\
  (phase = all ->
   started = filter (fun r => r.1 = field_recv \/ r.1 = flux_recv) set_up /\
   waited_on = filter (fun r => r.1 = field_send \/ r.1 = flux_send) set_up) /\
  (phase = gr_amr -> started = [] /\ waited_on = []).
Proof.
  cbv zeta.
  destruct (requests_of_neighbors NGHOST my_rank nblevel pmb mylevel
              (SetupPersistentMPI NGHOST true my_rank nblevel pmb mylevel neighbor ec0).1
              neighbor ec0 flx phase eq_refl) as (H1 & H2 & H3).
  split; [exact H1|]. split; [exact H2|]. split; [exact H3|].
  intros ->. clear H1 H2 H3.
  generalize (SetupPersistentMPI NGHOST true my_rank nblevel pmb mylevel neighbor ec0).1.
  intros ec. split.
  - unfold StartReceiving. cbn [snd]. induction neighbor as [|n l IH]; [done|].
    rewrite bind_cons, IH. rewrite decide_False by (intros [_ H]; by apply H). done.
  - rewrite waited_ClearBoundary. induction neighbor as [|n l IH]; [done|].
    rewrite bind_cons, IH. rewrite decide_False by (intros [_ H]; by apply H). done.
Qed.

Lemma started_and_waited_requests_are_set_up_witness :
  let su := SetupPersistentMPI 2 true 0 EdgeExamples.nblevel_corner LevelExamples.lb_coarse
              0 RequestExamples.neighbors EdgeExamples.no_edges in
  (StartReceiving true 0 0 RequestExamples.neighbors su.1 false all).2
  = [(field_recv, 0%nat); (flux_recv, 0%nat); (field_recv, 1%nat); (flux_recv, 1%nat);
     (field_recv, 3%nat)] /\
  waited (ClearBoundary true 0 0 RequestExamples.neighbors su.1 all)
  = [(field_send, 0%nat); (flux_send, 0%nat); (field_send, 1%nat); (field_send, 3%nat)].
Proof.
  cbv zeta.
  destruct (started_and_waited_requests_are_set_up 2 0 EdgeExamples.nblevel_corner
              LevelExamples.lb_coarse 0 RequestExamples.neighbors EdgeExamples.no_edges
              false all) as (_ & _ & H & _).
  destruct (H eq_refl) as [Hs Hw]. split.
  - rewrite Hs. reflexivity.
  - rewrite Hw. reflexivity.
Defined.

Import FluxCounts.

(** ** Flux-correction counts and the flux-correction buffer size *)

Lemma half_extent (n : Z) : 1 <= n -> 0 <= n `quot` 2 <= n - 1 /\ 2 * (n `quot` 2) <= n.
Proof.
  intros Hn. rewrite Z.quot_div_nonneg by lia.
  pose proof (Z.div_mod n 2 ltac:(lia)). pose proof (Z.mod_pos_bound n 2 ltac:(lia)). lia.
Qed.

Ltac flux_member H :=
  repeat (apply elem_of_app in H as [H|H]);
  repeat match type of H with
         | _ ∈ (if ?x then _ else _) => destruct x
         | _ ∈ [] => by apply elem_of_nil in H
         | _ ∈ _ :: _ => apply elem_of_cons in H as [->|H]
         end.

Ltac flux_cases H :=
  repeat (case_decide; try (exfalso; first [lia | intuition discriminate])); cbn in H;
  flux_member H;
  (eexists; split; [reflexivity|]; split; [nia|intros; first [reflexivity|lia]]).

(** X17.  The flux-correction buffer size holds every flux-correction
    request.  For a face or edge relation whose type agrees with its
    offsets, whose face id lies on the axis of the offset and whose edge id
    lies in the group of the edge's axes, every request
    [SetupPersistentMPI] initialises has an assigned count between 0 and
    [ComputeFluxCorrectionBufferSize]; toward a neighbour of the same level
    the count is that size. *)
Theorem flux_requests_fit_buffer
        (pmb : Block) (mylevel : Z) (nb : NeighborBlock) (fid : BoundaryFace)
        (eid : Z) (edge_flag : bool) (size cng : Z) :
  extents_ok pmb ->
  relation_ok pmb nb ->
  type (ni nb) = connect_of (ni nb) ->
  (type (ni nb) = face -> fid_on_offset_axis (ni nb) fid) ->
  (type (ni nb) = edge -> eid_in_group (ni nb) eid) ->
  let cap := ComputeFluxCorrectionBufferSize pmb (ni nb) cng in
  forall c, c ∈ SetupPersistentMPI_flcor pmb mylevel nb fid eid edge_flag size ->
    exists n, count_of c = Some n /\ 0 <= n <= cap /\
              (level (snb nb) = mylevel -> n = cap).
Proof.
  intros (E1 & E2 & E3) ((O1 & O2 & O3) & D2 & D3) Hty Hfid Heid cap c Hc.
  destruct (half_extent _ E1) as [Q1 Q1'].
  destruct (half_extent _ E2) as [Q2 Q2'].
  destruct (half_extent _ E3) as [Q3 Q3'].
  unfold offset_ok in *. subst cap.
  unfold SetupPersistentMPI_flcor in Hc. unfold ComputeFluxCorrectionBufferSize.
  unfold connect_of, nonzero_count in Hty.
  unfold fid_on_offset_axis in Hfid. unfold eid_in_group in Heid.
  set (a := nx1 (block_size pmb)) in *. set (b := nx2 (block_size pmb)) in *.
  set (d := nx3 (block_size pmb)) in *.
  set (qa := a `quot` 2) in *. set (qb := b `quot` 2) in *. set (qd := d `quot` 2) in *.
  clearbody qa qb qd a b d.
  destruct (decide (type (ni nb) = face)) as [Tf|Tf];
    [|destruct (decide (type (ni nb) = edge)) as [Te|Te]].
  - specialize (Hfid Tf). destruct Hfid as (F1 & F2 & F3). clear Heid.
    rewrite Tf in Hty.
    destruct (decide (ox1 (ni nb) = 0)) as [Z1|Z1];
      destruct (decide (ox2 (ni nb) = 0)) as [Z2|Z2];
      destruct (decide (ox3 (ni nb) = 0)) as [Z3|Z3]; try discriminate Hty; clear Hty.
    + specialize (F3 Z3). clear F1 F2. destruct F3 as [-> | ->]; cbn in Hc; flux_cases Hc.
    + specialize (F2 Z2). clear F1 F3. destruct F2 as [-> | ->]; cbn in Hc; flux_cases Hc.
    + specialize (F1 Z1). clear F2 F3. destruct F1 as [-> | ->]; cbn in Hc; flux_cases Hc.
  - specialize (Heid Te). destruct Heid as (G1 & G2 & G3). clear Hfid.
    rewrite Te in Hty.
    destruct (decide (ox1 (ni nb) = 0)) as [Z1|Z1];
      destruct (decide (ox2 (ni nb) = 0)) as [Z2|Z2];
      destruct (decide (ox3 (ni nb) = 0)) as [Z3|Z3]; try discriminate Hty; clear Hty.
    + specialize (G3 Z1). clear G1 G2. flux_cases Hc.
    + specialize (G2 Z2). clear G1 G3. flux_cases Hc.
    + specialize (G1 Z3). clear G2 G3. flux_cases Hc.
  - by apply elem_of_nil in Hc.
Qed.

Lemma flux_requests_fit_buffer_witness :
  exists n, count_of (flcor_send (Some 12)) = Some n /\
    0 <= n <= ComputeFluxCorrectionBufferSize LevelExamples.fc_block_ml
                (ni LevelExamples.nb_to_coarse) 0 /\
    (level (snb LevelExamples.nb_to_coarse) = 1 ->
     n = ComputeFluxCorrectionBufferSize LevelExamples.fc_block_ml
           (ni LevelExamples.nb_to_coarse) 0).
Proof.
  apply (flux_requests_fit_buffer LevelExamples.fc_block_ml 1 LevelExamples.nb_to_coarse
           inner_x1 (-1) false 0 0).
  - unfold extents_ok. simpl. lia.
  - unfold relation_ok, offsets_ok, offset_ok. simpl. lia.
  - reflexivity.
  - intros _. unfold fid_on_offset_axis. simpl.
    split; [intros _; by left|split; intros H; by destruct H].
  - intros H. discriminate H.
  - change (flcor_send (Some 12) ∈ [flcor_send (Some 12)]). left.
Defined.
